(** * AutoHome Mosquitto authorization plugin: a verified model

    Shallow embedding of [auth/src/auth-plugin.c] and the properties of its
    password check, its access-control check, its credential lookup and its
    schema initialization.

    Conventions.
    - A [char] is an [ascii]; memory holding characters (an array such as
      [char hash[65]], or the object a [const char*] points to) is a
      [string], that is, the sequence of its characters.  A C string ends at
      its first NUL character; the end of the Rocq string counts as the
      terminator of an object that holds a string constant.
    - A pointer that may be [NULL] is an [option]; a call whose behaviour
      is undefined in C ([strlen] of [NULL]) returns [None].
    - [int] return codes are integers of [Z], with the values of the headers.
    - SQLite and the broker are the environment: an explicit [world] carries
      the database, the faults SQLite is going to report, and the log.
    - A database is the list of its tables, views and indexes, each with
      its columns and rows; a value is [NULL], a text or a blob.  Names
      are resolved as SQLite does, without regard to case, while the count
      in [sqlite_master] compares them exactly.
    - The definitions come first, then the vocabulary of the statements,
      then the lemmas, then the theorems on the access-control check, the
      password check and the lookup; the sections after them cover the
      options, the helpers that run one statement, the creation of a
      table, the shutdown, the return codes and the effects of the
      initialization, the text of the digest, the buffers of the lookup,
      what the initialization keeps of a database, sequences of checks,
      and the second run of the schema initialization. *)

From Stdlib Require Import ZArith List String Ascii Bool Lia DecimalString.
Import ListNotations.

Local Open Scope Z_scope.

(** ** Characters and C strings *)

Module CString.

Definition NUL : ascii := Ascii.zero.

Definition is_nul (c : ascii) : bool := Ascii.eqb c NUL.

(** Value of a character as [unsigned char]. *)
Definition uchar (c : ascii) : Z := Z.of_N (N_of_ascii c).

(** The character with a given [unsigned char] value (taken modulo 256). *)
Definition char_of (z : Z) : ascii := ascii_of_N (Z.to_N (z mod 256)).

(** [strlen p]: number of characters before the first NUL. *)
Fixpoint strlen (p : string) : nat :=
  match p with
  | EmptyString => 0%nat
  | String c p' => if is_nul c then 0%nat else S (strlen p')
  end.

(** [strcmp p q]: zero when the two C strings are equal, otherwise the
    difference of the first two characters that differ, as unsigned. *)
Fixpoint strcmp (p q : string) : Z :=
  match p, q with
  | EmptyString, EmptyString => 0
  | EmptyString, String d _ => 0 - uchar d
  | String c _, EmptyString => uchar c
  | String c p', String d q' =>
      if Ascii.eqb c d
      then (if is_nul c then 0 else strcmp p' q')
      else uchar c - uchar d
  end.

(** [strncpy dst src n]: exactly [n] characters of [dst] are written: the
    characters of [src] up to its terminator, then NUL characters. *)
Fixpoint strncpy (dst src : string) (n : nat) : string :=
  match n with
  | O => dst
  | S n' =>
      match dst with
      | EmptyString => EmptyString
      | String _ dst' =>
          match src with
          | EmptyString => String NUL (strncpy dst' EmptyString n')
          | String c src' =>
              if is_nul c
              then String NUL (strncpy dst' EmptyString n')
              else String c (strncpy dst' src' n')
          end
      end
  end.

(** [load p i] is [p[i]]. *)
Fixpoint load (p : string) (i : nat) : ascii :=
  match p with
  | EmptyString => NUL
  | String c p' => match i with O => c | S i' => load p' i' end
  end.

(** [store p i c] is the memory after [p[i] = c]. *)
Fixpoint store (p : string) (i : nat) (c : ascii) : string :=
  match p with
  | EmptyString => EmptyString
  | String d p' =>
      match i with
      | O => String c p'
      | S i' => String d (store p' i' c)
      end
  end.

(** The C string held at [p]: its characters before the terminator. *)
Fixpoint c_str (p : string) : string :=
  match p with
  | EmptyString => EmptyString
  | String c p' => if is_nul c then EmptyString else String c (c_str p')
  end.

(** [p] holds no NUL character: it is the content of a C string. *)
Fixpoint no_nul (p : string) : bool :=
  match p with
  | EmptyString => true
  | String c p' => negb (is_nul c) && no_nul p'
  end.

(** The first [n] characters of [p]. *)
Fixpoint take (n : nat) (p : string) : string :=
  match n, p with
  | S n', String c p' => String c (take n' p')
  | _, _ => EmptyString
  end.

End CString.

(** ** SHA-256

    Modelled from the spec: the hash of [sha2.h], which the plugin links
    and which is not among its sources.  The specification names the
    function, SHA-256 of the salt bytes followed by the password bytes; it
    is written here after FIPS 180-4, with bytes and 32-bit words as
    integers of [Z]. *)

Module SHA256.

Definition mask32 : Z := 0xffffffff.
Definition trunc32 (x : Z) : Z := Z.land x mask32.
Definition add32 (x y : Z) : Z := trunc32 (x + y).
Definition not32 (x : Z) : Z := Z.lxor x mask32.
Definition shr (n x : Z) : Z := Z.shiftr x n.
Definition rotr (n x : Z) : Z :=
  Z.lor (Z.shiftr x n) (trunc32 (Z.shiftl x (32 - n))).

Definition Ch (x y z : Z) : Z := Z.lxor (Z.land x y) (Z.land (not32 x) z).
Definition Maj (x y z : Z) : Z :=
  Z.lxor (Z.lxor (Z.land x y) (Z.land x z)) (Z.land y z).
Definition Sum0 (x : Z) : Z := Z.lxor (Z.lxor (rotr 2 x) (rotr 13 x)) (rotr 22 x).
Definition Sum1 (x : Z) : Z := Z.lxor (Z.lxor (rotr 6 x) (rotr 11 x)) (rotr 25 x).
Definition sig0 (x : Z) : Z := Z.lxor (Z.lxor (rotr 7 x) (rotr 18 x)) (shr 3 x).
Definition sig1 (x : Z) : Z := Z.lxor (Z.lxor (rotr 17 x) (rotr 19 x)) (shr 10 x).

(** The first sixty-four prime numbers. *)
Definition is_prime (p : Z) : bool :=
  forallb (fun d => negb (p mod d =? 0))
          (map Z.of_nat (seq 2 (Z.to_nat p - 2))).

Definition primes : list Z := filter is_prime (map Z.of_nat (seq 2 310)).

(** Integer cube root by bisection on the bits of the root. *)
Fixpoint root3 (bits : nat) (x r : Z) : Z :=
  match bits with
  | O => r
  | S b =>
      let r' := r + 2 ^ Z.of_nat b in
      root3 b x (if r' * r' * r' <=? x then r' else r)
  end.

(** The round constants: the first thirty-two bits of the fractional parts
    of the cube roots of the primes. *)
Definition K : list Z :=
  Eval vm_compute in
    map (fun p => root3 36 (p * 2 ^ 96) 0 mod 2 ^ 32) primes.

(** The eight working variables, and the eight words of a hash value. *)
Record regs : Type := Regs {
  ra : Z; rb : Z; rc : Z; rd : Z; re : Z; rf : Z; rg : Z; rh : Z
}.

(** The initial hash value: the first thirty-two bits of the fractional
    parts of the square roots of the first eight primes. *)
Definition frac_sqrt (p : Z) : Z := Z.sqrt (p * 2 ^ 64) mod 2 ^ 32.

Definition H0 : regs :=
  Eval vm_compute in
    Regs (frac_sqrt 2) (frac_sqrt 3) (frac_sqrt 5) (frac_sqrt 7)
         (frac_sqrt 11) (frac_sqrt 13) (frac_sqrt 17) (frac_sqrt 19).

(** One round, with round constant [k] and schedule word [w]. *)
Definition round (r : regs) (kw : Z * Z) : regs :=
  let t1 := add32 (add32 (add32 (add32 (rh r) (Sum1 (re r)))
                                (Ch (re r) (rf r) (rg r))) (fst kw)) (snd kw) in
  let t2 := add32 (Sum0 (ra r)) (Maj (ra r) (rb r) (rc r)) in
  Regs (add32 t1 t2) (ra r) (rb r) (rc r) (add32 (rd r) t1) (re r) (rf r) (rg r).

(** Big-endian words of a block of bytes. *)
Fixpoint words (bs : list Z) : list Z :=
  match bs with
  | b3 :: b2 :: b1 :: b0 :: bs' =>
      Z.lor (Z.lor (Z.lor (Z.shiftl b3 24) (Z.shiftl b2 16)) (Z.shiftl b1 8)) b0
      :: words bs'
  | _ => []
  end.

(** Message schedule: [win] holds the sixteen words before the next one. *)
Fixpoint extend (n : nat) (win : list Z) : list Z :=
  match n with
  | O => []
  | S n' =>
      let w := add32 (add32 (add32 (sig1 (nth 14 win 0)) (nth 9 win 0))
                            (sig0 (nth 1 win 0))) (nth 0 win 0) in
      w :: extend n' (tl win ++ [w])
  end.

Definition schedule (block : list Z) : list Z :=
  let w16 := words block in w16 ++ extend 48 w16.

Definition compress (hv : regs) (block : list Z) : regs :=
  let r := fold_left round (combine K (schedule block)) hv in
  Regs (add32 (ra hv) (ra r)) (add32 (rb hv) (rb r))
       (add32 (rc hv) (rc r)) (add32 (rd hv) (rd r))
       (add32 (re hv) (re r)) (add32 (rf hv) (rf r))
       (add32 (rg hv) (rg r)) (add32 (rh hv) (rh r)).

Definition be32 (w : Z) : list Z :=
  [Z.land (Z.shiftr w 24) 255; Z.land (Z.shiftr w 16) 255;
   Z.land (Z.shiftr w 8) 255; Z.land w 255].

(** Padding: a one bit, zero bits up to 56 modulo 64 bytes, and the length
    of the message in bits as a 64-bit big-endian number. *)
Definition pad (msg : list Z) : list Z :=
  let len := Z.of_nat (List.length msg) in
  let bits := 8 * len in
  msg ++ [0x80] ++ repeat 0 (Z.to_nat ((55 - len) mod 64))
      ++ be32 (Z.shiftr bits 32) ++ be32 bits.

Fixpoint blocks (fuel : nat) (bs : list Z) : list (list Z) :=
  match fuel with
  | O => []
  | S fuel' =>
      match bs with
      | [] => []
      | _ => firstn 64 bs :: blocks fuel' (skipn 64 bs)
      end
  end.

Definition output (hv : regs) : list Z :=
  be32 (ra hv) ++ be32 (rb hv) ++ be32 (rc hv) ++ be32 (rd hv) ++
  be32 (re hv) ++ be32 (rf hv) ++ be32 (rg hv) ++ be32 (rh hv).

Definition hash (msg : list Z) : list Z :=
  let padded := pad msg in
  output (fold_left compress (blocks (List.length padded) padded) H0).

(** The digest of a sequence of characters, as thirty-two characters. *)
Definition digest (msg : string) : string :=
  string_of_list_ascii
    (map CString.char_of (hash (map CString.uchar (list_ascii_of_string msg)))).

End SHA256.

Import CString.

Local Open Scope string_scope.

(** ** SQLite, as the plugin uses it *)

Module SQLite.

(** Result codes of [sqlite3.h]. *)
Definition SQLITE_OK : Z := 0.
Definition SQLITE_ROW : Z := 100.
Definition SQLITE_DONE : Z := 101.

(** The primary error codes; extended result codes are off by default. *)
Inductive error : Type :=
| SQLITE_ERROR | SQLITE_INTERNAL | SQLITE_PERM | SQLITE_ABORT | SQLITE_BUSY
| SQLITE_LOCKED | SQLITE_NOMEM | SQLITE_READONLY | SQLITE_INTERRUPT
| SQLITE_IOERR | SQLITE_CORRUPT | SQLITE_NOTFOUND | SQLITE_FULL
| SQLITE_CANTOPEN | SQLITE_PROTOCOL | SQLITE_EMPTY | SQLITE_SCHEMA
| SQLITE_TOOBIG | SQLITE_CONSTRAINT | SQLITE_MISMATCH | SQLITE_MISUSE
| SQLITE_NOLFS | SQLITE_AUTH | SQLITE_FORMAT | SQLITE_RANGE | SQLITE_NOTADB
| SQLITE_NOTICE | SQLITE_WARNING.

Definition code (e : error) : Z :=
  match e with
  | SQLITE_ERROR => 1 | SQLITE_INTERNAL => 2 | SQLITE_PERM => 3
  | SQLITE_ABORT => 4 | SQLITE_BUSY => 5 | SQLITE_LOCKED => 6
  | SQLITE_NOMEM => 7 | SQLITE_READONLY => 8 | SQLITE_INTERRUPT => 9
  | SQLITE_IOERR => 10 | SQLITE_CORRUPT => 11 | SQLITE_NOTFOUND => 12
  | SQLITE_FULL => 13 | SQLITE_CANTOPEN => 14 | SQLITE_PROTOCOL => 15
  | SQLITE_EMPTY => 16 | SQLITE_SCHEMA => 17 | SQLITE_TOOBIG => 18
  | SQLITE_CONSTRAINT => 19 | SQLITE_MISMATCH => 20 | SQLITE_MISUSE => 21
  | SQLITE_NOLFS => 22 | SQLITE_AUTH => 23 | SQLITE_FORMAT => 24
  | SQLITE_RANGE => 25 | SQLITE_NOTADB => 26 | SQLITE_NOTICE => 27
  | SQLITE_WARNING => 28
  end.

(** A value held in a column: SQL [NULL], a text or a blob, each with its
    bytes.  Numbers are left out: a column declared [text], as every column
    the lookup reads from the plugin's tables is, stores them as text. *)
Inductive value : Type :=
| Null
| Text (s : string)
| Blob (s : string).

(** What [sqlite3_column_text] returns for a value: a [NULL] pointer for
    [NULL], the bytes with a terminator after them otherwise. *)
Definition text_of (v : value) : option string :=
  match v with
  | Null => None
  | Text s | Blob s => Some s
  end.

(** [column = ?] with a text bound to the parameter, under the default
    collation: a text with the same bytes. *)
Definition matches (v : value) (parameter : string) : bool :=
  match v with
  | Text s => String.eqb s parameter
  | _ => false
  end.

(** Names of tables, views, indexes and columns are compared without
    regard to the case of the letters [A] to [Z]. *)
Definition lower (c : ascii) : ascii :=
  let v := uchar c in
  if (65 <=? v)%Z && (v <=? 90)%Z then char_of (v + 32) else c.

Fixpoint fold_case (s : string) : string :=
  match s with
  | EmptyString => EmptyString
  | String c s' => String (lower c) (fold_case s')
  end.

Definition same_name (a b : string) : bool :=
  String.eqb (fold_case a) (fold_case b).

(** The names of the columns of a list of column definitions separated by
    commas, each a name, a space and the type and constraints, as the
    plugin writes its table definitions. *)
Fixpoint first_word (s : string) : string :=
  match s with
  | EmptyString => EmptyString
  | String c s' =>
      if Ascii.eqb c " "%char then EmptyString
      else String c (first_word s')
  end.

Fixpoint items (s : string) : list string :=
  match s with
  | EmptyString => [EmptyString]
  | String c s' =>
      if Ascii.eqb c ","%char then EmptyString :: items s'
      else match items s' with
           | item :: rest => String c item :: rest
           | [] => [String c EmptyString]
           end
  end.

Definition column_names (defn : string) : list string :=
  map first_word (items defn).

(** The kinds of objects that share the name space of the tables. *)
Inductive kind : Type := a_table | a_view | an_index.

(** An object of the schema: its kind, the text of its definition, the
    names of its columns as SQLite reads them from the definition, and the
    rows it holds (for a view, the rows it yields) in the order in which a
    scan finds them, each row the values of its columns in the order of
    the definition. *)
Record object : Type := Item {
  kind_of : kind;
  definition : string;
  columns : list string;
  rows : list (list value)
}.

(** The table that [create table name (defn)] makes, with the given rows. *)
Definition Table (defn : string) (content : list (list value)) : object :=
  Item a_table defn (column_names defn) content.

(** A database: the objects listed in [sqlite_master], by name.  The
    indexes that SQLite makes on its own for the keys of a table, named
    [sqlite_autoindex_...], go with their table and are not listed: no
    statement of the plugin can tell them. *)
Definition database : Type := list (string * object).

Definition named (name : string) (entry : string * object) : bool :=
  String.eqb (fst entry) name.

Definition is_table (entry : string * object) : bool :=
  match kind_of (snd entry) with a_table => true | _ => false end.

Definition is_index (entry : string * object) : bool :=
  match kind_of (snd entry) with an_index => true | _ => false end.

(** [type='table' and name='%s']: the tables listed under exactly this
    name. *)
Definition listed (name : string) (entry : string * object) : bool :=
  is_table entry && named name entry.

Definition count_tables (name : string) (d : database) : Z :=
  Z.of_nat (List.length (filter (listed name) d)).

Definition has_table (name : string) (d : database) : bool :=
  existsb (listed name) d.

(** The object listed under exactly this name. *)
Definition find_table (name : string) (d : database) : option object :=
  option_map snd (find (named name) d).

(** The table or view a statement means by [name]. *)
Definition answers (name : string) (entry : string * object) : bool :=
  negb (is_index entry) && same_name (fst entry) name.

Definition resolve (name : string) (d : database) : option object :=
  option_map snd (find (answers name) d).

Definition resolves (name : string) (d : database) : bool :=
  existsb (answers name) d.

(** An index has the name. *)
Definition index_named (name : string) (d : database) : bool :=
  existsb (fun entry => is_index entry && same_name (fst entry) name) d.

(** The position of a column in a list of column names. *)
Fixpoint column_index (name : string) (cols : list string) : option nat :=
  match cols with
  | [] => None
  | c :: rest =>
      if same_name c name then Some O
      else option_map S (column_index name rest)
  end.

(** The table or view the password query reads, with the positions of the
    columns [hash], [salt] and [username] in it; [None] when the query does
    not compile on the database. *)
Definition lookup_columns (d : database)
  : option (object * nat * nat * nat) :=
  match resolve "auth" d with
  | None => None
  | Some t =>
      match column_index "hash" (columns t),
            column_index "salt" (columns t),
            column_index "username" (columns t) with
      | Some h, Some s, Some u => Some (t, h, s, u)
      | _, _, _ => None
      end
  end.

(** The values of [hash] and [salt] in the first row of that table whose
    [username] is the text [username]. *)
Definition stored (d : database) (username : string)
  : option (value * value) :=
  match lookup_columns d with
  | None => None
  | Some (t, h, s, u) =>
      match find (fun row => matches (nth u row Null) username) (rows t) with
      | Some row => Some (nth h row Null, nth s row Null)
      | None => None
      end
  end.

(** The four statements the plugin compiles.  The plugin builds the text
    of the second and the third with [snprintf] from a table name and a
    table definition that are constants of the program. *)
Inductive sql : Type :=
| pragma_foreign_keys_on
    (* pragma foreign_keys = on; *)
| select_count_table (name : string)
    (* select count( * ) from sqlite_master where type='table' and name='%s'; *)
| create_table_if_not_exists (name defn : string)
    (* create table if not exists %s (%s); *)
| select_hash_salt.
    (* select hash, salt from auth where username=?; *)

(** Where the evaluation of a compiled statement stands. *)
Inductive progress : Type :=
| Ready                          (* reset: ready to be stepped *)
| AtCount (n : Z)                (* on a row that holds one integer *)
| AtRow (cols : list value)      (* on a row of the password query *)
| Done                           (* ran to completion *)
| Failed (e : error).            (* the last step failed *)

Record sqlite3_stmt : Type := Stmt {
  text : sql;
  param : option string;
  at_ : progress
}.

(** A connection handle; the state of the connection is in the world. *)
Inductive sqlite3 : Type := connection.

End SQLite.

Import SQLite.

(** ** The environment *)

(** Everything outside the plugin: the database file, the connection's
    foreign-key flag, the faults SQLite is going to report (one entry per
    call of a fallible API function, [None] for a call that works; past the
    end of the list nothing fails), the broker's log, and two choices of the
    C implementation: whether plain [char] is signed, and what an
    uninitialized automatic array holds. *)
Record world : Type := World {
  disk : database;
  foreign_keys : bool;
  faults : list (option error);
  log : list (Z * string);
  char_is_signed : bool;
  automatic : nat -> ascii
}.

Definition with_disk (d : database) (w : world) : world :=
  World d (foreign_keys w) (faults w) (log w) (char_is_signed w) (automatic w).
Definition with_foreign_keys (b : bool) (w : world) : world :=
  World (disk w) b (faults w) (log w) (char_is_signed w) (automatic w).
Definition with_faults (f : list (option error)) (w : world) : world :=
  World (disk w) (foreign_keys w) f (log w) (char_is_signed w) (automatic w).
Definition with_log (l : list (Z * string)) (w : world) : world :=
  World (disk w) (foreign_keys w) (faults w) l (char_is_signed w) (automatic w).

(** State passing over the world. *)
Definition M (A : Type) : Type := world -> A * world.

Definition ret {A : Type} (a : A) : M A := fun w => (a, w).

Definition bind {A B : Type} (m : M A) (k : A -> M B) : M B :=
  fun w => let (a, w') := m w in k a w'.

Declare Scope plugin_scope.
Delimit Scope plugin_scope with plugin.
Notation "x <- m ;; k" := (bind m (fun x => k))
  (at level 61, m at next level, right associativity) : plugin_scope.
Notation "' pat <- m ;; k" := (bind m (fun x => match x with pat => k end))
  (at level 61, pat pattern, m at next level, right associativity) : plugin_scope.
Notation "m ;; k" := (bind m (fun _ => k))
  (at level 61, right associativity) : plugin_scope.
Local Open Scope plugin_scope.

(** The fault, if any, of the next call into SQLite. *)
Definition next_fault : M (option error) := fun w =>
  match faults w with
  | [] => (None, w)
  | f :: rest => (f, with_faults rest w)
  end.

(** An automatic array of [n] characters at offset [off] of the frame. *)
Definition indeterminate (w : world) (off n : nat) : string :=
  string_of_list_ascii (map (automatic w) (seq off n)).

(** *** The SQLite API *)

Definition with_progress (p : progress) (s : sqlite3_stmt) : sqlite3_stmt :=
  Stmt (text s) (param s) p.

Definition sqlite3_initialize : M Z :=
  f <- next_fault ;;
  ret (match f with Some e => code e | None => SQLITE_OK end).

Definition sqlite3_shutdown : M Z :=
  f <- next_fault ;;
  ret (match f with Some e => code e | None => SQLITE_OK end).

(** The file is created empty when it does not exist: [disk] is then []. *)
Definition sqlite3_open (filename : string) : M (Z * sqlite3) :=
  f <- next_fault ;;
  match f with
  | Some e => ret (code e, connection)
  | None => fun w => ((SQLITE_OK, connection), with_foreign_keys false w)
  end.

Definition sqlite3_close (db : sqlite3) : M Z :=
  f <- next_fault ;;
  ret (match f with Some e => code e | None => SQLITE_OK end).

(** Whether a statement compiles on a database: the password query needs
    a table or view [auth] with the three columns it names; the statement
    that creates a table is refused when an index has the name and no table
    or view has it (with one, [if not exists] makes it a statement that
    does nothing). *)
Definition prepares (q : sql) (d : database) : bool :=
  match q with
  | select_hash_salt =>
      match lookup_columns d with Some _ => true | None => false end
  | create_table_if_not_exists name _ =>
      resolves name d || negb (index_named name d)
  | _ => true
  end.

(** On failure the statement pointer is set to [NULL]. *)
Definition sqlite3_prepare_v2 (db : sqlite3) (q : sql)
  : M (Z * option sqlite3_stmt) :=
  f <- next_fault ;;
  match f with
  | Some e => ret (code e, None)
  | None =>
      fun w =>
        if prepares q (disk w)
        then ((SQLITE_OK, Some (Stmt q None Ready)), w)
        else ((code SQLITE_ERROR, None), w)
  end.

(** What a statement does when it is run from its start.  A statement that
    no longer compiles on the database fails; a parameter that is not bound
    is [NULL], which equals nothing. *)
Definition evaluate (s : sqlite3_stmt) (w : world) : progress * world :=
  match text s with
  | pragma_foreign_keys_on => (Done, with_foreign_keys true w)
  | select_count_table name => (AtCount (count_tables name (disk w)), w)
  | create_table_if_not_exists name defn =>
      if resolves name (disk w) then (Done, w)
      else if index_named name (disk w) then (Failed SQLITE_ERROR, w)
      else (Done, with_disk (disk w ++ [(name, Table defn [])])%list w)
  | select_hash_salt =>
      match lookup_columns (disk w) with
      | None => (Failed SQLITE_ERROR, w)
      | Some _ =>
          match param s with
          | None => (Done, w)
          | Some username =>
              match stored (disk w) username with
              | Some (hash, salt) => (AtRow [hash; salt], w)
              | None => (Done, w)
              end
          end
      end
  end.

Definition result_code (p : progress) : Z :=
  match p with
  | Ready => SQLITE_OK
  | AtCount _ | AtRow _ => SQLITE_ROW
  | Done => SQLITE_DONE
  | Failed e => code e
  end.

(** A step from a row finds no further row: the count has one row, and
    the plugin never steps the password query from a row, so that what
    the database holds after the first row found does not matter. *)
Definition sqlite3_step (s : sqlite3_stmt) : M (Z * sqlite3_stmt) :=
  f <- next_fault ;;
  match f with
  | Some e => ret (code e, with_progress (Failed e) s)
  | None =>
      match at_ s with
      | AtCount _ | AtRow _ => ret (SQLITE_DONE, with_progress Done s)
      | _ => fun w =>
               let (p, w') := evaluate s w in
               ((result_code p, with_progress p s), w')
      end
  end.

(** The statement is reset in every case; the code returned is that of the
    failure of the last step, if it failed. *)
Definition sqlite3_reset (s : sqlite3_stmt) : M (Z * sqlite3_stmt) :=
  f <- next_fault ;;
  ret (match f with
       | Some e => code e
       | None => match at_ s with Failed e => code e | _ => SQLITE_OK end
       end,
       with_progress Ready s).

(** Binding the first parameter to the C string at [value]; a statement
    that was stepped and not reset refuses it. *)
Definition sqlite3_bind_text (s : sqlite3_stmt) (index : Z) (value : string)
  : M (Z * sqlite3_stmt) :=
  f <- next_fault ;;
  ret (match f with
       | Some e => (code e, s)
       | None =>
           match at_ s with
           | Ready =>
               if (index =? 1)%Z
               then (SQLITE_OK, Stmt (text s) (Some (c_str value)) Ready)
               else (code SQLITE_RANGE, s)
           | _ => (code SQLITE_MISUSE, s)
           end
       end).

(** Finalizing [NULL] is a harmless no-op. *)
Definition sqlite3_finalize (s : option sqlite3_stmt) : M Z :=
  match s with
  | None => ret SQLITE_OK
  | Some s =>
      f <- next_fault ;;
      ret (match f with
           | Some e => code e
           | None => match at_ s with Failed e => code e | _ => SQLITE_OK end
           end)
  end.

Definition sqlite3_column_int (s : sqlite3_stmt) (col : nat) : Z :=
  match at_ s with
  | AtCount n => n
  | _ => 0
  end.

(** The same calls through a statement pointer, which [sqlite3_prepare_v2]
    has set: a step of [NULL] is a misuse, a column of [NULL] is zero. *)
Definition sqlite3_step_at (s : option sqlite3_stmt)
  : M (Z * option sqlite3_stmt) :=
  match s with
  | Some st => '(retval, st) <- sqlite3_step st ;; ret (retval, Some st)
  | None => ret (code SQLITE_MISUSE, None)
  end.

Definition sqlite3_column_int_at (s : option sqlite3_stmt) (col : nat) : Z :=
  match s with
  | Some st => sqlite3_column_int st col
  | None => 0
  end.

(** The text of a column of the current row: a [NULL] pointer for an SQL
    [NULL], for a column the row does not have and when the statement is
    not on a row.  (The call is not among those that consume a fault of
    the world: a failure to allocate the text, which also yields [NULL],
    is left out.) *)
Definition sqlite3_column_text (s : sqlite3_stmt) (col : nat)
  : option string :=
  match at_ s with
  | AtRow cols => text_of (nth col cols Null)
  | AtCount n =>
      match col with
      | O => Some (NilZero.string_of_int (Z.to_int n))
      | S _ => None
      end
  | _ => None
  end.

(** *** The broker *)

(** Log levels and result codes of [mosquitto.h]. *)
Definition MOSQ_LOG_INFO : Z := 0x01.
Definition MOSQ_LOG_NOTICE : Z := 0x02.
Definition MOSQ_LOG_WARNING : Z := 0x04.
Definition MOSQ_LOG_ERR : Z := 0x08.

Definition MOSQ_ERR_SUCCESS : Z := 0.
Definition MOSQ_ERR_AUTH : Z := 11.
Definition MOSQ_ERR_ACL_DENIED : Z := 12.
Definition MOSQ_ERR_UNKNOWN : Z := 13.

Definition mosquitto_log_printf (level : Z) (msg : string) : M unit :=
  fun w => (tt, with_log (log w ++ [(level, msg)])%list w).

(** ** The plugin *)

(** Plugin-specific API return codes ([enum return_codes]). *)
Definition SUCCESS : Z := 0.
Definition FAILED_SQLITE : Z := 1.
Definition NO_DB_FILE_SPECIFIED : Z := 2.
Definition DB_FILE_CANTOPEN : Z := 3.
Definition DB_FILE_CANTCLOSE : Z := 4.
Definition DB_ERROR : Z := 5.
Definition NOTREQUIRED : Z := 102.

(** Plugin global context.  [passquery] is the prepared statement for
    password queries; [superuser] and [guestsecret] are [NULL] when they are
    not configured. *)
Record Context : Type := Build_Context {
  db : sqlite3;
  passquery : sqlite3_stmt;
  superuser : option string;
  guestsecret : option string
}.

Definition with_passquery (q : sqlite3_stmt) (c : Context) : Context :=
  Build_Context (db c) q (superuser c) (guestsecret c).

(** [a != b] on [int]. *)
Definition neq (a b : Z) : bool := negb (Z.eqb a b).

(** Prepare, evaluate and destroy an SQL statement with no outputs. *)
Definition sql_exec_void (db : sqlite3) (query : sql) : M Z :=
  '(retval, statement) <- sqlite3_prepare_v2 db query ;;
  if neq retval SQLITE_OK then sqlite3_finalize statement ;; ret retval
  else
    '(retval, statement) <- sqlite3_step_at statement ;;
    if neq retval SQLITE_DONE && neq retval SQLITE_ROW
    then sqlite3_finalize statement ;; ret retval
    else
      retval <- sqlite3_finalize statement ;;
      if neq retval SQLITE_OK then ret retval else ret SQLITE_OK.

(** Prepare, evaluate and destroy an SQL statement with a single integer
    output.  [result] is the integer the out-parameter points to; it is
    returned as the call leaves it. *)
Definition sql_exec_single_int (db : sqlite3) (query : sql) (result : Z)
  : M (Z * Z) :=
  '(retval, statement) <- sqlite3_prepare_v2 db query ;;
  if neq retval SQLITE_OK
  then sqlite3_finalize statement ;; ret (retval, result)
  else
    '(retval, statement) <- sqlite3_step_at statement ;;
    if neq retval SQLITE_ROW
    then sqlite3_finalize statement ;; ret (retval, result)
    else
      let result := sqlite3_column_int_at statement 0 in
      retval <- sqlite3_finalize statement ;;
      if neq retval SQLITE_OK then ret (retval, result)
      else ret (SQLITE_OK, result).

(** Create a table in the database if not already there.  [count] starts
    with whatever the frame holds. *)
Definition create_table (db : sqlite3) (name defn : string) : M Z :=
  fun w =>
  let count := uchar (automatic w 0) in
  ('(retval, count) <- sql_exec_single_int db (select_count_table name) count ;;
   if neq retval SQLITE_OK then ret retval
   else if (count =? 0)%Z
   then
     retval <- sql_exec_void db (create_table_if_not_exists name defn) ;;
     if neq retval SQLITE_OK then ret retval else ret SUCCESS
   else ret NOTREQUIRED) w.

(** The end of [retrieve_password], where the two branches that have
    written [hash] and [salt] meet: the last reset and the return. *)
Definition retrieve_password_end (passquery : sqlite3_stmt)
    (hash salt : string) : M (Z * sqlite3_stmt * string * string) :=
  '(retval, passquery) <- sqlite3_reset passquery ;;
  if neq retval SQLITE_OK then ret (retval, passquery, hash, salt)
  else ret (SQLITE_OK, passquery, hash, salt).

(** Retrieve the corresponding password hash for a given user.  The two
    out-parameters [hash] and [salt] are returned as the call leaves them,
    with the statement.  [None] stands for undefined behaviour: [strncpy]
    from the [NULL] pointer that [sqlite3_column_text] has returned. *)
Definition retrieve_password (passquery : sqlite3_stmt) (username : string)
    (hash : string) (hashlen : nat) (salt : string) (saltlen : nat)
  : M (option (Z * sqlite3_stmt * string * string)) :=
  '(retval, passquery) <- sqlite3_reset passquery ;;
  if neq retval SQLITE_OK then ret (Some (retval, passquery, hash, salt))
  else
    '(retval, passquery) <- sqlite3_bind_text passquery 1 username ;;
    if neq retval SQLITE_OK then ret (Some (retval, passquery, hash, salt))
    else
      '(retval, passquery) <- sqlite3_step passquery ;;
      if (retval =? SQLITE_DONE)%Z then         (* unrecognized user *)
        let hash := store hash 0 NUL in
        let salt := store salt 0 NUL in
        r <- retrieve_password_end passquery hash salt ;;
        ret (Some r)
      else if (retval =? SQLITE_ROW)%Z then     (* recognized user *)
        match sqlite3_column_text passquery 0 with
        | None => ret None
        | Some result =>
            let hash := strncpy hash result hashlen in
            let hash := store hash (hashlen - 1) NUL in
            match sqlite3_column_text passquery 1 with
            | None => ret None
            | Some result =>
                let salt := strncpy salt result saltlen in
                let salt := store salt (saltlen - 1) NUL in
                r <- retrieve_password_end passquery hash salt ;;
                ret (Some r)
            end
        end
      else ret (Some (retval, passquery, hash, salt)).

(** *** Plugin initialization *)

(** One turn of the loop over the configuration options: [dbfile],
    [context->superuser] and [context->guestsecret] after option [opt].
    A copied value is the [strlen] characters before its terminator. *)
Definition read_option (acc : option string * option string * option string)
    (opt : string * string) : option string * option string * option string :=
  let '(dbfile, superuser, guestsecret) := acc in
  let (key, value) := opt in
  if (strcmp key "db_file" =? 0)%Z then (Some value, superuser, guestsecret)
  else if (strcmp key "superuser" =? 0)%Z then
    let sulen := strlen value in
    (dbfile, Some (take sulen value), guestsecret)
  else if (strcmp key "guest_secret" =? 0)%Z then
    let passlen := strlen value in
    (dbfile, superuser, Some (take passlen value))
  else acc.

(** The definitions of the three tables, as [plugin_init] spells them. *)
Definition profile_definition : string :=
  "username text not null primary key,"
  ++ "displayname text not null unique,"
  ++ "type text not null,"
  ++ "connected text not null,"
  ++ "status text not null".

Definition auth_definition : string :=
  "username text not null primary key references profile on delete cascade,"
  ++ "hash text not null,"
  ++ "salt text not null".

Definition schedule_definition : string :=
  "id integer not null primary key,"
  ++ "username text not null references profile on delete cascade,"
  ++ "command text not null,"
  ++ "fuzzy int not null,"
  ++ "recurrent int not null,"
  ++ "firedate int not null,"
  ++ "weekday int not null,"
  ++ "hours int not null,"
  ++ "minutes int not null".

(** The three calls of [create_table] in [plugin_init]. *)
Definition create_tables (db : sqlite3) : M (Z * Z * Z) :=
  profretvalue <- create_table db "profile" profile_definition ;;
  authretvalue <- create_table db "auth" auth_definition ;;
  schedretvalue <- create_table db "schedule" schedule_definition ;;
  ret (profretvalue, authretvalue, schedretvalue).

(** Plugin initialization routine: the return code and, on success, the
    context handed to the broker (on failure the context is freed). *)
Definition mosquitto_auth_plugin_init (auth_opts : list (string * string))
  : M (Z * option Context) :=
  let '(dbfile, superuser, guestsecret) :=
    fold_left read_option auth_opts (None, None, None) in
  retval <- sqlite3_initialize ;;
  if neq retval SQLITE_OK then
    mosquitto_log_printf MOSQ_LOG_ERR "Failed to initialize SQLite3." ;;
    ret (FAILED_SQLITE, None)
  else
  match dbfile with
  | None =>
      mosquitto_log_printf MOSQ_LOG_ERR
        "No SQLite database specified. Check your Mosquitto configuration file; it should include an appropriate auth_opt_db_file variable." ;;
      ret (NO_DB_FILE_SPECIFIED, None)
  | Some dbfile =>
  '(retval, db) <- sqlite3_open dbfile ;;
  if neq retval SQLITE_OK then
    mosquitto_log_printf MOSQ_LOG_ERR "Failed to open SQLite database." ;;
    sqlite3_close db ;;
    ret (DB_FILE_CANTOPEN, None)
  else
  retval <- sql_exec_void db pragma_foreign_keys_on ;;
  if neq retval SQLITE_OK then
    mosquitto_log_printf MOSQ_LOG_ERR "Failed to enable foreign keys." ;;
    sqlite3_close db ;;
    ret (DB_ERROR, None)
  else
  '(profretvalue, authretvalue, schedretvalue) <- create_tables db ;;
  let error :=
    (neq profretvalue SUCCESS && neq profretvalue NOTREQUIRED)
    || (neq authretvalue SUCCESS && neq authretvalue NOTREQUIRED)
    || (neq schedretvalue SUCCESS && neq schedretvalue NOTREQUIRED) in
  if error then                            (* SQL error *)
    mosquitto_log_printf MOSQ_LOG_ERR "Failed to create tables." ;;
    sqlite3_close db ;;
    ret (DB_ERROR, None)
  else
  (if (profretvalue =? SUCCESS)%Z && (authretvalue =? SUCCESS)%Z
      && (schedretvalue =? SUCCESS)%Z
   then mosquitto_log_printf MOSQ_LOG_NOTICE
          "Uninitialized database. Creating from scratch."
   else if (profretvalue =? NOTREQUIRED)%Z && (authretvalue =? NOTREQUIRED)%Z
           && (schedretvalue =? NOTREQUIRED)%Z
   then ret tt                             (* database was already OK *)
   else mosquitto_log_printf MOSQ_LOG_NOTICE
          "Incomplete database. Patching (but foreign keys may be wrong).") ;;
  '(retval, passquery) <- sqlite3_prepare_v2 db select_hash_salt ;;
  match neq retval SQLITE_OK, passquery with
  | false, Some passquery =>
      mosquitto_log_printf MOSQ_LOG_INFO
        "AutoHome authorization plugin initialized successfully" ;;
      ret (SUCCESS, Some (Build_Context db passquery superuser guestsecret))
  | _, _ =>
      mosquitto_log_printf MOSQ_LOG_ERR
        "Failed to compile password prepared statement." ;;
      sqlite3_finalize passquery ;;
      sqlite3_close db ;;
      ret (DB_ERROR, None)
  end
  end.

(** Plugin shut down routine. *)
Definition mosquitto_auth_plugin_cleanup (context : Context) : M Z :=
  retval <- sqlite3_finalize (Some (passquery context)) ;;
  if neq retval SQLITE_OK then
    mosquitto_log_printf MOSQ_LOG_ERR
      "Failed to finalize password prepared statement." ;;
    sqlite3_close (db context) ;;
    ret DB_FILE_CANTCLOSE
  else
  retval <- sqlite3_close (db context) ;;
  if neq retval SQLITE_OK then
    mosquitto_log_printf MOSQ_LOG_ERR "Failed to close SQLite database." ;;
    ret DB_FILE_CANTCLOSE
  else
  retval <- sqlite3_shutdown ;;
  if neq retval SQLITE_OK then
    mosquitto_log_printf MOSQ_LOG_ERR "Failed to shutdown SQLite3." ;;
    ret FAILED_SQLITE
  else
  mosquitto_log_printf MOSQ_LOG_INFO
    "AutoHome authorization plugin shut down successfully" ;;
  ret SUCCESS.

Definition mosquitto_auth_security_init (context : Context) (reload : bool)
  : Z := SUCCESS.

Definition mosquitto_auth_security_cleanup (context : Context) (reload : bool)
  : Z := SUCCESS.

Definition mosquitto_auth_psk_key_get : Z := NOTREQUIRED.

(** *** Access control list check *)

(** The loop [for (i = 0; i < namelen; i++)] from index [i], with
    [n = namelen - i] turns left: [None] when a turn returns
    [MOSQ_ERR_ACL_DENIED], otherwise the value of [i] after the loop.
    The strings of MQTT have at most 65535 bytes, so [int i] and the
    [size_t] lengths are natural numbers here. *)
Fixpoint acl_loop (n i : nat) (username topic : string) : option nat :=
  match n with
  | O => Some i
  | S n' =>
      if negb (Ascii.eqb (load username i) (load topic i)) then None
      else acl_loop n' (S i) username topic
  end.

(** [None] stands for undefined behaviour: [strlen] of a [NULL] topic. *)
Definition mosquitto_auth_acl_check (context : Context)
    (clientid username topic : option string) (access : Z) : M (option Z) :=
  match clientid, username with
  | Some clientid, Some username =>
      if match superuser context with
         | Some su => (strcmp su username =? 0)%Z
         | None => false
         end
      then ret (Some MOSQ_ERR_SUCCESS)
      else if neq (strcmp clientid username) 0 then
        mosquitto_log_printf MOSQ_LOG_NOTICE
          "Unauthorized access: ClientID != Username." ;;
        ret (Some MOSQ_ERR_ACL_DENIED)
      else
        match topic with
        | None => ret None
        | Some topic =>
            let namelen := strlen username in
            let topiclen := strlen topic in
            if (topiclen <? namelen + 2)%nat   (* at least 'username/x' long *)
            then ret (Some MOSQ_ERR_ACL_DENIED)
            else
              match acl_loop namelen 0 username topic with
              | None => ret (Some MOSQ_ERR_ACL_DENIED)
              | Some i =>
                  if negb (Ascii.eqb (load topic i) "/"%char)
                  then ret (Some MOSQ_ERR_ACL_DENIED)
                  else ret (Some MOSQ_ERR_SUCCESS)
              end
        end
  | _, _ =>
      mosquitto_log_printf MOSQ_LOG_NOTICE "Bad username" ;;
      ret (Some MOSQ_ERR_ACL_DENIED)
  end.

(** *** Username-password check *)

(** Modelled from the spec: the interface of [sha2.h], which is not among
    the sources.  A context absorbs bytes, and the SHA-256 digest of all of
    them, 32 bytes, is written at the end; the context is the bytes
    absorbed so far. *)
Definition sha256_ctx : Type := string.

Definition sha256_init : sha256_ctx := "".

Definition sha256_update (ctx : sha256_ctx) (message : string) (len : nat)
  : sha256_ctx := ctx ++ take len message.

(** [blit src dst]: [dst] with its first characters overwritten by [src]. *)
Fixpoint blit (src dst : string) : string :=
  match src, dst with
  | String c src', String _ dst' => String c (blit src' dst')
  | _, _ => dst
  end.

Definition sha256_final (ctx : sha256_ctx) (digest : string) : string :=
  blit (SHA256.digest ctx) digest.

(** Integer value of a plain [char]. *)
Definition int_of_char (signed : bool) (c : ascii) : Z :=
  if signed && (128 <=? uchar c)%Z then uchar c - 256 else uchar c.

Definition digit : string := "0123456789abcdef".

(** The loop [for (int i = 31, k = 63; i >= 0; i--, k -= 2)] that encodes
    the digest in place as a base16 string; [fuel] bounds the turns. *)
Fixpoint encode_loop (fuel : nat) (signed : bool) (i k : Z) (clienthash : string)
  : string :=
  match fuel with
  | O => clienthash
  | S fuel' =>
      if (0 <=? i)%Z then
        let byte := int_of_char signed (load clienthash (Z.to_nat i)) in
        let clienthash :=
          store clienthash (Z.to_nat k)
                (load digit (Z.to_nat (Z.land byte 0x0f))) in
        let clienthash :=
          store clienthash (Z.to_nat (k - 1))
                (load digit (Z.to_nat (Z.land (Z.shiftr byte 4) 0x0f))) in
        encode_loop fuel' signed (i - 1) (k - 2) clienthash
      else clienthash
  end.

(** The result is paired with the context, whose prepared statement the
    call has used.  [None] stands for undefined behaviour: that of the
    lookup, or [strlen] of a [NULL] password. *)
Definition mosquitto_auth_unpwd_check (context : Context)
    (username password : option string) : M (option Z * Context) :=
  fun w =>
  let clienthash := indeterminate w 0 65 in
  let hash := indeterminate w 65 65 in
  let salt := indeterminate w 130 65 in
  match username with
  | None => (Some MOSQ_ERR_AUTH, context, w)
  | Some username =>
      (found <-
         retrieve_password (passquery context) username hash 65 salt 65 ;;
       match found with
       | None => ret (None, context)
       | Some (retval, passquery, hash, salt) =>
       let context := with_passquery passquery context in
       if neq retval 0 then
         mosquitto_log_printf MOSQ_LOG_WARNING
           "Internal SQLite error, authentication cancelled." ;;
         ret (Some MOSQ_ERR_UNKNOWN, context)
       else if (strlen hash =? 0)%nat then       (* unrecognized user *)
         ret (Some
                (if match guestsecret context, password with
                    | None, None => true
                    | Some secret, Some password =>
                        (strcmp secret password =? 0)%Z
                    | _, _ => false
                    end
                 then MOSQ_ERR_SUCCESS else MOSQ_ERR_AUTH),
              context)
       else
         match password with
         | None => ret (None, context)
         | Some password =>
             let hashctx := sha256_init in
             let hashctx := sha256_update hashctx salt (strlen salt) in
             let hashctx := sha256_update hashctx password (strlen password) in
             let clienthash := sha256_final hashctx clienthash in
             (* encode as a human-readable base16 string *)
             let clienthash :=
               encode_loop 32 (char_is_signed w) 31 63 clienthash in
             let clienthash := store clienthash 64 NUL in
             ret (Some (if (strcmp clienthash hash =? 0)%Z
                        then MOSQ_ERR_SUCCESS else MOSQ_ERR_AUTH),
                  context)
         end
       end) w
  end.

(** ** Vocabulary of the specification *)

(** *** Results of the calls *)

(** An access kind of [mosquitto_plugin.h]. *)
Definition MOSQ_ACL_READ : Z := 1.
Definition MOSQ_ACL_WRITE : Z := 2.

(** The value a call of the plugin returns, its effects left aside. *)
Definition unpwd_result (context : Context) (username password : option string)
    (w : world) : option Z :=
  fst (fst (mosquitto_auth_unpwd_check context username password w)).

Definition acl_result (context : Context) (clientid username topic : option string)
    (access : Z) (w : world) : option Z :=
  fst (mosquitto_auth_acl_check context clientid username topic access w).

(** The return code of a lookup whose behaviour is defined, and that of
    the lookup [unpwd_check] makes for [username]. *)
Definition retrieve_code (q : sqlite3_stmt) (username hash salt : string)
    (w : world) : option Z :=
  option_map (fun r => fst (fst (fst r)))
             (fst (retrieve_password q username hash 65 salt 65 w)).

Definition lookup_code (context : Context) (username : string) (w : world)
  : option Z :=
  retrieve_code (passquery context) username
                (indeterminate w 65 65) (indeterminate w 130 65) w.

(** The lookup returns an error code. *)
Definition lookup_fails (context : Context) (username : string) (w : world)
  : Prop :=
  exists rc, lookup_code context username w = Some rc /\ rc <> SQLITE_OK.

(** The compiled query as a lookup leaves it. *)
Definition lookup_leaves (q : sqlite3_stmt) (username hash salt : string)
    (w : world) : option sqlite3_stmt :=
  option_map (fun r => snd (fst (fst r)))
             (fst (retrieve_password q username hash 65 salt 65 w)).

(** *** Text *)

(** Base16 text of a sequence of bytes: two lowercase digits per byte, the
    high nibble first. *)
Fixpoint base16 (s : string) : string :=
  match s with
  | EmptyString => EmptyString
  | String c s' =>
      String (load digit (Z.to_nat (uchar c / 16)))
             (String (load digit (Z.to_nat (uchar c mod 16))) (base16 s'))
  end.

(** The two digits of a byte as the loop of [unpwd_check] computes them,
    and the text the loop produces for a sequence of bytes. *)
Definition loop_digits (signed : bool) (c : ascii) : ascii * ascii :=
  (load digit (Z.to_nat (Z.land (Z.shiftr (int_of_char signed c) 4) 0x0f)),
   load digit (Z.to_nat (Z.land (int_of_char signed c) 0x0f))).

Fixpoint loop_base16 (signed : bool) (s : string) : string :=
  match s with
  | EmptyString => EmptyString
  | String c s' =>
      String (fst (loop_digits signed c))
             (String (snd (loop_digits signed c)) (loop_base16 signed s'))
  end.

(** The value of a base16 digit, and the byte of two digits. *)
Definition digit_value (c : ascii) : Z :=
  let v := uchar c in
  if (v <? 58)%Z then v - 48 else v - 87.

Definition unhex (hi lo : ascii) : ascii :=
  char_of (16 * digit_value hi + digit_value lo).

(** What a buffer of 65 characters holds of a stored text: the first 64
    characters of its C string. *)
Definition held (stored : string) : string := take 64 (c_str stored).

(** The text [unpwd_check] compares with the held hash: the base16 text of
    the digest of the held salt followed by the password. *)
Definition client_hash (salt password : string) : string :=
  base16 (SHA256.digest (held salt ++ c_str password)).

(** [n] times the character [c]. *)
Fixpoint replicate (n : nat) (c : ascii) : string :=
  match n with
  | O => EmptyString
  | S n' => String c (replicate n' c)
  end.

(** *** Rules *)

(** The namespace rule as [acl_check] computes it, after the identity
    checks: the length test, the loop and the test of the separator. *)
Definition acl_rule (username topic : string) : bool :=
  if (strlen topic <? strlen username + 2)%nat then false
  else
    match acl_loop (strlen username) 0 username topic with
    | None => false
    | Some i => Ascii.eqb (load topic i) "/"%char
    end.

(** [topic] is [name], then a slash, then at least one more character. *)
Definition in_namespace (name topic : string) : Prop :=
  exists rest : string, rest <> "" /\ topic = name ++ "/" ++ rest.

(** The guest rule: without a guest secret no password may be given; with
    one, the password must be given and be the same C string. *)
Definition guest_rule (context : Context) (password : option string) : bool :=
  match guestsecret context, password with
  | None, None => true
  | Some secret, Some password => String.eqb (c_str secret) (c_str password)
  | _, _ => false
  end.

(** *** The database and the faults *)

(** The credential a database holds for a username: the texts of the
    [hash] and [salt] columns of the first row with that username in the
    table or view that answers to [auth]; none when one of the two is
    [NULL]. *)
Definition credential (d : database) (username : string)
  : option (string * string) :=
  match stored d username with
  | Some (h, s) =>
      match text_of h, text_of s with
      | Some h, Some s => Some (h, s)
      | _, _ => None
      end
  | None => None
  end.

Definition is_null (v : value) : bool :=
  match v with Null => true | _ => false end.

(** The database serves the password query: it has a table or view [auth]
    with the columns [hash], [salt] and [username], and no row of it holds
    [NULL] for [hash] or [salt], as the [not null] of the plugin's
    definition of the table requires. *)
Definition serves (d : database) : bool :=
  match lookup_columns d with
  | None => false
  | Some (t, h, s, _) =>
      forallb (fun row => negb (is_null (nth h row Null))
                          && negb (is_null (nth s row Null))) (rows t)
  end.

Definition is_none {A : Type} (o : option A) : bool :=
  match o with None => true | Some _ => false end.

(** None of the next [n] calls into SQLite is going to fail. *)
Definition quiet (n : nat) (w : world) : bool :=
  forallb is_none (firstn n (faults w)).

Definition failed (p : progress) : bool :=
  match p with Failed _ => true | _ => false end.

Definition is_select_hash_salt (q : sql) : bool :=
  match q with select_hash_salt => true | _ => false end.

(** The conditions under which a lookup goes through: the context holds the
    password query, whose last step did not fail; the database serves the
    query; and the four calls of the lookup meet no fault. *)
Definition lookup_works (context : Context) (w : world) : bool :=
  is_select_hash_salt (text (passquery context))
  && negb (failed (at_ (passquery context)))
  && serves (disk w)
  && quiet 4 w.

(** A registered user: the lookup goes through and finds a credential
    whose hash, as the buffer holds it, is not empty. *)
Definition registered (context : Context) (username : string) (w : world)
    (h s : string) : Prop :=
  lookup_works context w = true
  /\ credential (disk w) (c_str username) = Some (h, s)
  /\ held h <> "".

(** The world after one call into SQLite has consumed its fault entry. *)
Definition pop (w : world) : world := with_faults (tl (faults w)) w.

(** [n] calls into SQLite have consumed their fault entries. *)
Fixpoint pops (n : nat) (w : world) : world :=
  match n with
  | O => w
  | S n' => pops n' (pop w)
  end.

(** The tables of [d'] are those of [d] and possibly more, after them. *)
Definition grows (d d' : database) : Prop :=
  exists more : database, d' = (d ++ more)%list.

(** The three tables of the schema exist, under exactly their names. *)
Definition schema_present (d : database) : bool :=
  has_table "profile" d && has_table "auth" d && has_table "schedule" d.

(** A return code of [create_table] that is not an error. *)
Definition created (rc : Z) : Prop := rc = SUCCESS \/ rc = NOTREQUIRED.

(** A return code of [create_table] on a table that exists: the table is
    reported as already there, unless SQLite reports an error. *)
Definition already_there (rc : Z) : Prop :=
  rc = NOTREQUIRED \/ exists e : error, rc = code e.

(** The options as the loop of [plugin_init] reads them. *)
Definition read_options (auth_opts : list (string * string))
  : option string * option string * option string :=
  fold_left read_option auth_opts (None, None, None).

(** The message of a successful initialization. *)
Definition initialized : Z * string :=
  (MOSQ_LOG_INFO, "AutoHome authorization plugin initialized successfully").

(** *** Triples *)

(** A Hoare triple over the world: from a world that satisfies [P], the
    computation [m] ends with a result and a world that satisfy [Q]. *)
Definition hoare {A : Type} (P : world -> Prop) (m : M A)
    (Q : A -> world -> Prop) : Prop :=
  forall w, P w -> Q (fst (m w)) (snd (m w)).

(** [m] leaves the database as it is. *)
Definition keeps {A : Type} (m : M A) : Prop :=
  forall w, disk (snd (m w)) = disk w.

(** [m] keeps an invariant of the database. *)
Definition maintains {A : Type} (I : database -> Prop) (m : M A) : Prop :=
  hoare (fun w => I (disk w)) m (fun _ w' => I (disk w')).

(** [m] never reports [SUCCESS]. *)
Definition fails (m : M (Z * option Context)) : Prop :=
  forall w, fst (fst (m w)) <> SUCCESS.

(** *** Examples *)

(** A context and a world for the examples: superuser [root], guest secret
    [letmein], an empty database file, and no fault ahead. *)
Definition example_query : sqlite3_stmt := Stmt select_hash_salt None Ready.

Definition example_context : Context :=
  Build_Context connection example_query (Some "root") (Some "letmein").

Definition example_world : world :=
  World [] false [] [] true (fun _ => "?"%char).

(** The options and the two runs of the example of initialization. *)
Definition example_options : list (string * string) :=
  [("db_file", "autohome.db"); ("superuser", "root")].

Definition first_run : Z * option Context * world :=
  mosquitto_auth_plugin_init example_options example_world.

Definition second_run : Z * option Context * world :=
  mosquitto_auth_plugin_init example_options (snd first_run).

(** A database with the three tables, [auth] holding the given rows, and
    the world around it, with the given faults ahead. *)
Definition accounts (credentials : list (list string)) : database :=
  [("profile", Table profile_definition []);
   ("auth", Table auth_definition (map (map Text) credentials));
   ("schedule", Table schedule_definition [])].

Definition world_of (d : database) (fs : list (option error)) : world :=
  World d true fs [] true (fun _ => "?"%char).

(** The credential of the specification's example: salt [s1], password
    [hunter2]. *)
Definition alice_hash : string :=
  "ebd45ded486507e4a30383e322e28c6cfc1be36610b1be98d98f50ce6ae2f823".

Definition alice_world : world :=
  world_of (accounts [["alice"; alice_hash; "s1"]]) [].

(** A credential whose salt has exactly 64 characters, for a password of
    200 characters. *)
Definition long_password : string := replicate 200 "p".

Definition bob_salt : string := replicate 64 "s".

Definition bob_hash : string :=
  Eval vm_compute in base16 (SHA256.digest (bob_salt ++ long_password)).

Definition bob_world : world :=
  world_of (accounts [["bob"; bob_hash; bob_salt]]) [].

(** A credential whose salt has 65 characters, with the hash of that salt
    and the password [hunter2]. *)
Definition carol_salt : string := replicate 65 "s".

Definition carol_hash : string :=
  Eval vm_compute in base16 (SHA256.digest (carol_salt ++ "hunter2")).

Definition carol_world : world :=
  world_of (accounts [["carol"; carol_hash; carol_salt]]) [].

(** A credential whose stored hash is the right one followed by one more
    character [c]. *)
Definition dave_world (c : ascii) : world :=
  world_of (accounts [["dave"; alice_hash ++ String c ""; "s1"]]) [].

(** A credential whose salt is that of [bob] followed by one more
    character [c], with the hash of [bob]. *)
Definition erin_world (c : ascii) : world :=
  world_of (accounts [["erin"; bob_hash; bob_salt ++ String c ""]]) [].

(** The world of [alice] with a fault ahead: the third call into SQLite,
    which is the step of the next lookup, is going to report
    [SQLITE_BUSY]. *)
Definition busy_world : world :=
  world_of (accounts [["alice"; alice_hash; "s1"]])
           [None; None; Some SQLITE_BUSY].

(** An empty database file with a fault at the sixth call into SQLite, and
    a context whose query has met a failure at its last step. *)
Definition late_fault_world : world :=
  World [] false [None; None; None; None; None; Some SQLITE_BUSY] [] true
        (fun _ => "?"%char).

Definition stale_context : Context :=
  Build_Context connection
    (Stmt select_hash_salt (Some "alice") (Failed SQLITE_BUSY))
    (Some "root") None.

(** Two databases that the plugin did not create: one whose table [auth]
    has other columns, and one whose table of profiles is named in capital
    letters. *)
Definition foreign_world : world :=
  world_of [("auth", Table "user text,pass text" [])] [].

Definition capital_world : world :=
  world_of [("PROFILE", Table profile_definition [])] [].

(** A database whose table [auth] was created without the [not null] of
    the plugin and holds a row with no salt. *)
Definition null_world : world :=
  world_of [("auth", Item a_table "username text,hash text,salt text"
                       ["username"; "hash"; "salt"]
                       [[Text "nobody"; Text "x"; Null]])] [].

(** *** Further vocabulary *)

(** The world with another choice of the C implementation. *)
Definition with_platform (signed : bool) (junk : nat -> ascii) (w : world)
  : world :=
  World (disk w) (foreign_keys w) (faults w) (log w) signed junk.

(** [m] does not look at the choices of the C implementation. *)
Definition uniform {A : Type} (m : M A) : Prop :=
  forall signed junk w,
    m (with_platform signed junk w)
    = (fst (m w), with_platform signed junk (snd (m w))).

(** The value of the last option whose key is the C string [key]. *)
Fixpoint last_value (key : string) (opts : list (string * string))
  : option string :=
  match opts with
  | [] => None
  | (k, v) :: rest =>
      match last_value key rest with
      | Some v' => Some v'
      | None => if String.eqb (c_str k) key then Some v else None
      end
  end.

(** The first fault among the next [n] calls into SQLite. *)
Fixpoint first_fault (n : nat) (fs : list (option error)) : option error :=
  match n, fs with
  | S n', Some e :: _ => Some e
  | S n', None :: rest => first_fault n' rest
  | _, _ => None
  end.

(** A table, a view or an index answers to the name. *)
Definition occupied (name : string) (d : database) : bool :=
  resolves name d || index_named name d.

(** The database once [create table if not exists name (defn)] has been
    run: the table is added, empty, unless something has the name; with a
    table or a view of the name the statement does nothing, with an index
    of the name it is refused. *)
Definition ensure (name defn : string) (d : database) : database :=
  if occupied name d then d else (d ++ [(name, Table defn [])])%list.

(** What [retrieve_password] has done to its two buffers when it returns:
    nothing, the empty string in both, or a copy of two texts. *)
Inductive written : Type :=
| Untouched
| Cleared
| Copied (hash_text salt_text : string).

Definition hash_after (wr : written) (hash : string) : string :=
  match wr with
  | Untouched => hash
  | Cleared => store hash 0 NUL
  | Copied t _ => store (strncpy hash t 65) (65 - 1) NUL
  end.

Definition salt_after (wr : written) (salt : string) : string :=
  match wr with
  | Untouched => salt
  | Cleared => store salt 0 NUL
  | Copied _ t => store (strncpy salt t 65) (65 - 1) NUL
  end.

(** The bytes of a base16 text. *)
Fixpoint decode16 (s : string) : string :=
  match s with
  | String hi (String lo s') => String (unhex hi lo) (decode16 s')
  | _ => EmptyString
  end.

Definition is_hex_digit (c : ascii) : bool :=
  let v := uchar c in
  ((48 <=? v)%Z && (v <=? 57)%Z) || ((97 <=? v)%Z && (v <=? 102)%Z).

Fixpoint all_chars (f : ascii -> bool) (s : string) : bool :=
  match s with
  | EmptyString => true
  | String c s' => f c && all_chars f s'
  end.

(** Every result of [m] satisfies [S]. *)
Definition ends {A : Type} (S : A -> Prop) (m : M A) : Prop :=
  forall w, S (fst (m w)).

(** How an initialization that has opened the database ends: with
    [SUCCESS] and a context, or with [DB_ERROR] and none. *)
Definition settled (r : Z * option Context) : Prop :=
  (fst r = SUCCESS /\ exists context, snd r = Some context)
  \/ (fst r = DB_ERROR /\ snd r = None).

(** The database once the three statements that create the tables of the
    schema have been run. *)
Definition ensure_schema (d : database) : database :=
  ensure "schedule" schedule_definition
    (ensure "auth" auth_definition
       (ensure "profile" profile_definition d)).

(** The schema of a database: its objects with their kinds, definitions
    and columns, the rows left aside. *)
Definition schema_of (d : database)
  : list (string * kind * string * list string) :=
  map (fun entry => (fst entry, kind_of (snd entry), definition (snd entry),
                     columns (snd entry))) d.

(** The statement that creates the table is refused: an index has the name
    and no table or view answers to it. *)
Definition blocked (name : string) (d : database) : bool :=
  negb (resolves name d) && index_named name d.

(** The return code of [create_table] when no call into SQLite fails. *)
Definition outcome (name : string) (d : database) : Z :=
  if has_table name d then NOTREQUIRED
  else if blocked name d then code SQLITE_ERROR
  else SUCCESS.

(** The three tables of the plugin, as [plugin_init] names and defines
    them. *)
Definition plugin_tables : list (string * string) :=
  [("profile", profile_definition); ("auth", auth_definition);
   ("schedule", schedule_definition)].

(** The notice of an initialization, by the tables it has found. *)
Definition schema_notice (d : database) : list (Z * string) :=
  let p := has_table "profile" d in
  let a := has_table "auth" d in
  let s := has_table "schedule" d in
  if negb p && negb a && negb s
  then [(MOSQ_LOG_NOTICE, "Uninitialized database. Creating from scratch.")]
  else if p && a && s then []
  else [(MOSQ_LOG_NOTICE,
         "Incomplete database. Patching (but foreign keys may be wrong).")].

(** The answer of [unpwd_check] once the lookup has returned [SQLITE_OK],
    by what the lookup has written to the buffers. *)
Definition answer (context : Context) (wr : written)
    (password : option string) : option Z :=
  match wr with
  | Copied h s =>
      if String.eqb (held h) ""
      then Some (if guest_rule context password
                 then MOSQ_ERR_SUCCESS else MOSQ_ERR_AUTH)
      else
        match password with
        | None => None
        | Some p => Some (if String.eqb (client_hash s p) (held h)
                          then MOSQ_ERR_SUCCESS else MOSQ_ERR_AUTH)
        end
  | _ => Some (if guest_rule context password
               then MOSQ_ERR_SUCCESS else MOSQ_ERR_AUTH)
  end.

(** The warning of a lookup that failed. *)
Definition cancelled : Z * string :=
  (MOSQ_LOG_WARNING, "Internal SQLite error, authentication cancelled.").

(** What a call with result [r] adds to the log. *)
Definition warning_of (r : option Z) : list (Z * string) :=
  match r with
  | Some rc => if (rc =? MOSQ_ERR_UNKNOWN)%Z then [cancelled] else []
  | None => []
  end.

(** The statement is the count of the tables of a name. *)
Definition counts (q : sql) : bool :=
  match q with select_count_table _ => true | _ => false end.

(** * Properties *)

(** ** C strings *)

Section CStrings.

Lemma uchar_inj (c d : ascii) : uchar c = uchar d -> c = d.
Proof.
  unfold uchar. intros H. apply N2Z.inj in H.
  rewrite <- (ascii_N_embedding c), <- (ascii_N_embedding d). now rewrite H.
Qed.

Lemma uchar_nul (c : ascii) : uchar c = 0 <-> is_nul c = true.
Proof.
  unfold is_nul. rewrite Ascii.eqb_eq. split.
  - intros H. apply uchar_inj. exact H.
  - intros ->. reflexivity.
Qed.

Lemma strlen_c_str (p : string) : strlen p = String.length (c_str p).
Proof.
  induction p as [|c p IH]; simpl; [reflexivity|].
  destruct (is_nul c); simpl; congruence.
Qed.

Lemma take_strlen (p : string) : take (strlen p) p = c_str p.
Proof.
  induction p as [|c p IH]; simpl; [reflexivity|].
  destruct (is_nul c); simpl; congruence.
Qed.

Lemma c_str_no_nul (p : string) : no_nul p = true -> c_str p = p.
Proof.
  induction p as [|c p IH]; simpl; [reflexivity|].
  destruct (is_nul c); simpl; [discriminate|]. intros H. now rewrite IH.
Qed.

Lemma no_nul_c_str (p : string) : no_nul (c_str p) = true.
Proof.
  induction p as [|c p IH]; simpl; [reflexivity|].
  destruct (is_nul c) eqn:E; simpl; [reflexivity|]. now rewrite E.
Qed.

Lemma c_str_app (p q : string) :
  no_nul p = true -> c_str (p ++ q) = p ++ c_str q.
Proof.
  induction p as [|c p IH]; simpl; [reflexivity|].
  destruct (is_nul c); simpl; [discriminate|]. intros H. now rewrite IH.
Qed.

(** [strcmp] is zero exactly on equal C strings. *)
Lemma strcmp_zero (p q : string) : strcmp p q = 0 <-> c_str p = c_str q.
Proof.
  revert q. induction p as [|c p IH]; intros [|d q]; simpl.
  - tauto.
  - destruct (is_nul d) eqn:E.
    + apply uchar_nul in E. rewrite E. tauto.
    + split; [|discriminate]. intros H.
      assert (uchar d = 0) as H0 by lia. apply uchar_nul in H0. congruence.
  - destruct (is_nul c) eqn:E.
    + apply uchar_nul in E. tauto.
    + split; [|discriminate]. intros H. apply uchar_nul in H. congruence.
  - destruct (Ascii.eqb c d) eqn:E.
    + apply Ascii.eqb_eq in E. subst d.
      destruct (is_nul c); [tauto|]. rewrite IH.
      split; [now intros ->|]. intros H. now injection H.
    + apply Ascii.eqb_neq in E. split.
      * intros H. exfalso. apply E, uchar_inj. lia.
      * destruct (is_nul c) eqn:Ec, (is_nul d) eqn:Ed; try discriminate.
        -- unfold is_nul in *. apply Ascii.eqb_eq in Ec, Ed. congruence.
        -- intros H. injection H as H _. contradiction.
Qed.

Lemma strcmp_eqb (p q : string) :
  (strcmp p q =? 0)%Z = String.eqb (c_str p) (c_str q).
Proof.
  destruct (String.eqb (c_str p) (c_str q)) eqn:E.
  - apply String.eqb_eq in E. apply Z.eqb_eq. now apply strcmp_zero.
  - apply String.eqb_neq in E. apply Z.eqb_neq. now rewrite strcmp_zero.
Qed.

Lemma neq_strcmp (p q : string) :
  neq (strcmp p q) 0 = negb (String.eqb (c_str p) (c_str q)).
Proof. unfold neq. now rewrite strcmp_eqb. Qed.

Lemma take_all (n : nat) (p : string) :
  (String.length p <= n)%nat -> take n p = p.
Proof.
  revert p. induction n as [|n IH]; intros [|c p]; simpl; intros H;
    try reflexivity; try lia.
  rewrite IH; [reflexivity | lia].
Qed.

(** What [strncpy] and the terminator written after it leave in a buffer
    of [n + 1] characters: the first [n] characters of the source. *)
Lemma strncpy_terminated (n : nat) (dst src : string) :
  String.length dst = S n ->
  c_str (store (strncpy dst src (S n)) n NUL) = take n (c_str src).
Proof.
  revert dst src. induction n as [|n IH]; intros [|x dst] src H;
    try discriminate.
  - destruct dst; [|discriminate]. simpl.
    destruct src as [|c src]; [reflexivity|]. now destruct (is_nul c).
  - injection H as H.
    change (strncpy (String x dst) src (S (S n))) with
      (match src with
       | EmptyString => String NUL (strncpy dst EmptyString (S n))
       | String c src' =>
           if is_nul c then String NUL (strncpy dst EmptyString (S n))
           else String c (strncpy dst src' (S n))
       end).
    destruct src as [|c src]; [reflexivity|].
    cbn [c_str]. destruct (is_nul c) eqn:E; [reflexivity|].
    cbn [store c_str take]. rewrite E. now rewrite IH.
Qed.

Lemma length_indeterminate (w : world) (off n : nat) :
  String.length (indeterminate w off n) = n.
Proof.
  unfold indeterminate. revert off.
  induction n as [|n IH]; intros off; simpl; [reflexivity|].
  now rewrite IH.
Qed.

Lemma strlen_store_nul (p : string) : strlen (store p 0 NUL) = 0%nat.
Proof. destruct p; reflexivity. Qed.

End CStrings.

(** ** The base16 encoding *)

Section Base16.

(** The digit the loop writes for the low and for the high nibble of a
    byte does not depend on the signedness of [char]. *)
Lemma low_nibble (signed : bool) (c : ascii) :
  load digit (Z.to_nat (Z.land (int_of_char signed c) 0x0f))
  = load digit (Z.to_nat (uchar c mod 16)).
Proof.
  destruct signed; destruct c as [[] [] [] [] [] [] [] []]; reflexivity.
Qed.

Lemma high_nibble (signed : bool) (c : ascii) :
  load digit (Z.to_nat (Z.land (Z.shiftr (int_of_char signed c) 4) 0x0f))
  = load digit (Z.to_nat (uchar c / 16)).
Proof.
  destruct signed; destruct c as [[] [] [] [] [] [] [] []]; reflexivity.
Qed.

Lemma loop_base16_spec (signed : bool) (s : string) :
  loop_base16 signed s = base16 s.
Proof.
  induction s as [|c s IH]; [reflexivity|].
  cbn [loop_base16 base16]. unfold loop_digits. cbn [fst snd].
  now rewrite IH, low_nibble, high_nibble.
Qed.

Lemma unhex_digits (c : ascii) :
  unhex (load digit (Z.to_nat (uchar c / 16)))
        (load digit (Z.to_nat (uchar c mod 16))) = c.
Proof. destruct c as [[] [] [] [] [] [] [] []]; reflexivity. Qed.

Lemma digits_not_nul (c : ascii) :
  is_nul (load digit (Z.to_nat (uchar c / 16))) = false
  /\ is_nul (load digit (Z.to_nat (uchar c mod 16))) = false.
Proof. destruct c as [[] [] [] [] [] [] [] []]; split; reflexivity. Qed.

Lemma base16_inj (s t : string) : base16 s = base16 t -> s = t.
Proof.
  revert t. induction s as [|c s IH]; intros [|d t]; cbn [base16];
    try reflexivity; try discriminate.
  intros H. injection H as H1 H2 H3.
  assert (c = d) as ->.
  { rewrite <- (unhex_digits c), <- (unhex_digits d). f_equal; assumption. }
  f_equal. now apply IH.
Qed.

Lemma no_nul_base16 (s : string) : no_nul (base16 s) = true.
Proof.
  induction s as [|c s IH]; [reflexivity|]. cbn [base16 no_nul].
  destruct (digits_not_nul c) as [-> ->]. exact IH.
Qed.

Lemma length_base16 (s : string) :
  String.length (base16 s) = (2 * String.length s)%nat.
Proof. induction s as [|c s IH]; simpl; [reflexivity|]. rewrite IH. lia. Qed.

(** The in-place loop of [unpwd_check], run on a buffer of 65 characters
    whose first 32 hold a digest, followed by the terminator at index 64:
    the buffer then holds the base16 text of the digest. *)
Lemma encode_in_place (signed : bool) (d buffer : string) :
  String.length d = 32%nat -> String.length buffer = 65%nat ->
  store (encode_loop 32 signed 31 63 (blit d buffer)) 64 NUL
  = loop_base16 signed d ++ String NUL EmptyString.
Proof.
  intros Hd Hb.
  do 32 (destruct d as [|? d]; [discriminate Hd|]).
  destruct d; [|discriminate Hd].
  do 65 (destruct buffer as [|? buffer]; [discriminate Hb|]).
  destruct buffer; [|discriminate Hb].
  reflexivity.
Qed.

(** The loop stops by itself after [i + 1] turns: more fuel changes
    nothing. *)
Lemma encode_loop_stopped (fuel : nat) (signed : bool) (i k : Z)
    (buffer : string) :
  (i < 0)%Z -> encode_loop fuel signed i k buffer = buffer.
Proof.
  intros Hi. destruct fuel as [|fuel]; [reflexivity|]. cbn [encode_loop].
  now destruct (Z.leb_spec 0 i); [lia|].
Qed.

Lemma encode_loop_fuel (n extra : nat) (signed : bool) (i k : Z)
    (buffer : string) :
  i = Z.of_nat n - 1 ->
  encode_loop (n + extra) signed i k buffer
  = encode_loop n signed i k buffer.
Proof.
  revert i k buffer. induction n as [|n IH]; intros i k buffer Hi.
  - cbn [Nat.add encode_loop]. apply encode_loop_stopped. lia.
  - cbn [Nat.add encode_loop].
    destruct (0 <=? i)%Z; [|reflexivity]. apply IH. lia.
Qed.

Lemma c_str_terminated (p q : string) :
  no_nul p = true -> c_str (p ++ String NUL q) = p.
Proof.
  intros H. rewrite c_str_app by exact H. simpl.
  clear H. induction p as [|c p IH]; simpl; congruence.
Qed.

Lemma c_str_encoded (signed : bool) (d buffer : string) :
  String.length d = 32%nat -> String.length buffer = 65%nat ->
  c_str (store (encode_loop 32 signed 31 63 (blit d buffer)) 64 NUL)
  = base16 d.
Proof.
  intros Hd Hb. rewrite encode_in_place by assumption.
  rewrite loop_base16_spec. apply c_str_terminated, no_nul_base16.
Qed.

(** The model of SHA-256 on the test vectors of FIPS 180-4, and on a
    message of 56 bytes, which needs a second block for its padding. *)
Example digest_abc :
  base16 (SHA256.digest "abc")
  = "ba7816bf8f01cfea414140de5dae2223b00361a396177a9cb410ff61f20015ad".
Proof. vm_compute. reflexivity. Qed.

Example digest_empty :
  base16 (SHA256.digest "")
  = "e3b0c44298fc1c149afbf4c8996fb92427ae41e4649b934ca495991b7852b855".
Proof. vm_compute. reflexivity. Qed.

Example digest_two_blocks :
  base16 (SHA256.digest (replicate 56 "a"))
  = "b35439a4ac6f0948b6d6f9e3c6af0f5f590ce20f1bde7090ef7970686ec6738a".
Proof. vm_compute. reflexivity. Qed.

Lemma length_digest (msg : string) :
  String.length (SHA256.digest msg) = 32%nat.
Proof.
  unfold SHA256.digest, SHA256.hash.
  destruct (fold_left _ _ _). reflexivity.
Qed.

End Base16.

(** ** Access control *)

Section AccessControl.

Lemma acl_loop_shift (n i : nat) (c d : ascii) (u t : string) :
  acl_loop n (S i) (String c u) (String d t) = option_map S (acl_loop n i u t).
Proof.
  revert i. induction n as [|n IH]; intros i; [reflexivity|].
  cbn [acl_loop load]. destruct (negb _); [reflexivity|]. apply IH.
Qed.

Lemma acl_rule_short_topic (u t : string) :
  strlen t = 0%nat -> acl_rule u t = false.
Proof. unfold acl_rule. intros ->. now rewrite Nat.add_comm. Qed.

Lemma acl_rule_cons (c d : ascii) (u t : string) :
  is_nul c = false -> is_nul d = false ->
  acl_rule (String c u) (String d t) = Ascii.eqb c d && acl_rule u t.
Proof.
  intros Hc Hd. unfold acl_rule. cbn [strlen]. rewrite Hc, Hd.
  change (S (strlen t) <? S (strlen u) + 2)%nat
    with (strlen t <? strlen u + 2)%nat.
  destruct (strlen t <? strlen u + 2)%nat; [now rewrite andb_false_r|].
  cbn [acl_loop load]. destruct (Ascii.eqb c d); [|reflexivity].
  cbn [negb andb]. rewrite acl_loop_shift.
  now destruct (acl_loop (strlen u) 0 u t).
Qed.

Lemma acl_rule_no_name (u t : string) :
  strlen u = 0%nat ->
  acl_rule u t = true <-> in_namespace "" (c_str t).
Proof.
  intros Hu. unfold acl_rule, in_namespace. rewrite Hu. cbn [acl_loop].
  destruct t as [|d t].
  - split; [discriminate|]. intros (rest & _ & H). discriminate H.
  - cbn [strlen c_str load]. destruct (is_nul d) eqn:Ed.
    + split; [discriminate|]. intros (rest & _ & H). discriminate H.
    + rewrite (strlen_c_str t). destruct (c_str t) as [|e r] eqn:Et.
      * split; [discriminate|]. intros (rest & Hr & H).
        injection H as _ H. now subst rest.
      * cbn [String.length Nat.add Nat.ltb Nat.leb]. rewrite Ascii.eqb_eq.
        split.
        -- intros ->. exists (String e r). split; [discriminate|reflexivity].
        -- intros (rest & _ & H). now injection H.
Qed.

(** The rule computed by the code is the namespace rule. *)
Lemma acl_rule_spec (u t : string) :
  acl_rule u t = true <-> in_namespace (c_str u) (c_str t).
Proof.
  revert t. induction u as [|c u IH]; intros t.
  - now apply acl_rule_no_name.
  - destruct (is_nul c) eqn:Ec.
    + rewrite acl_rule_no_name by (cbn [strlen]; now rewrite Ec).
      cbn [c_str]. now rewrite Ec.
    + cbn [c_str]. rewrite Ec. destruct t as [|d t].
      * rewrite acl_rule_short_topic by reflexivity.
        split; [discriminate|]. intros (rest & _ & H). discriminate H.
      * destruct (is_nul d) eqn:Ed.
        -- rewrite acl_rule_short_topic by (cbn [strlen]; now rewrite Ed).
           cbn [c_str]. rewrite Ed.
           split; [discriminate|]. intros (rest & _ & H). discriminate H.
        -- rewrite acl_rule_cons by assumption. cbn [c_str]. rewrite Ed.
           rewrite andb_true_iff, Ascii.eqb_eq, IH. unfold in_namespace.
           split.
           ++ intros [-> (rest & Hr & H)]. exists rest.
              split; [exact Hr|]. cbn [append]. now rewrite H.
           ++ intros (rest & Hr & H). cbn [append] in H.
              injection H as H1 H2. split; [congruence|]. now exists rest.
Qed.

(** The namespace rule in terms of lengths and characters. *)
Lemma in_namespace_chars (name topic : string) :
  in_namespace name topic <->
  (String.length name + 2 <= String.length topic)%nat
  /\ take (String.length name) topic = name
  /\ load topic (String.length name) = "/"%char.
Proof.
  unfold in_namespace. revert topic.
  induction name as [|c name IH]; intros topic.
  - cbn [String.length Nat.add append]. split.
    + intros (rest & Hr & ->). destruct rest as [|e r]; [contradiction|].
      cbn. repeat split. lia.
    + intros (Hl & _ & Hs). destruct topic as [|d [|e r]]; cbn in Hl; try lia.
      cbn in Hs. subst d. exists (String e r). split; [discriminate|reflexivity].
  - destruct topic as [|d topic].
    + split.
      * intros (rest & _ & H). discriminate H.
      * intros (Hl & _). cbn in Hl. lia.
    + cbn [String.length Nat.add append take load]. split.
      * intros (rest & Hr & H). injection H as -> H.
        destruct (proj1 (IH topic)) as (H1 & H2 & H3); [now exists rest|].
        repeat split; [lia | congruence | exact H3].
      * intros (Hl & Ht & Hs). injection Ht as -> Ht.
        destruct (proj2 (IH topic)) as (rest & Hr & H);
          [repeat split; [lia | exact Ht | exact Hs]|].
        exists rest. split; [exact Hr|]. f_equal. exact H.
Qed.

Lemma append_inv_head (p a b : string) : p ++ a = p ++ b -> a = b.
Proof.
  induction p as [|c p IH]; cbn [append]; intros H; [exact H|].
  injection H as H. now apply IH.
Qed.

Lemma append_nil_inv (p a : string) : p = p ++ a -> a = "".
Proof.
  induction p as [|c p IH]; cbn [append]; intros H; [now symmetry|].
  injection H as H. now apply IH.
Qed.

(** What [acl_check] returns for a client whose identifier is its
    username, when the username is not that of the superuser. *)
Lemma acl_check_rule (context : Context) (cid u topic : string) (access : Z)
    (w : world) :
  (forall su, superuser context = Some su -> c_str su <> c_str u) ->
  c_str cid = c_str u ->
  acl_result context (Some cid) (Some u) (Some topic) access w
  = Some (if acl_rule u topic then MOSQ_ERR_SUCCESS else MOSQ_ERR_ACL_DENIED).
Proof.
  intros Hsu Hcid. unfold acl_result, mosquitto_auth_acl_check.
  assert (match superuser context with
          | Some su => (strcmp su u =? 0)%Z
          | None => false
          end = false) as ->.
  { destruct (superuser context) as [su|]; [|reflexivity].
    rewrite strcmp_eqb. apply String.eqb_neq. now apply Hsu. }
  rewrite neq_strcmp, Hcid, String.eqb_refl. cbn [negb]. unfold acl_rule.
  destruct (strlen topic <? strlen u + 2)%nat; [reflexivity|].
  destruct (acl_loop (strlen u) 0 u topic) as [i|]; [|reflexivity].
  now destruct (Ascii.eqb (load topic i) "/").
Qed.

End AccessControl.

(** ** The credential lookup *)

Section Lookup.

Lemma next_fault_pop (w : world) : next_fault w = (hd None (faults w), pop w).
Proof. destruct w as [d fk [|f fs] l s a]; reflexivity. Qed.

Lemma quiet_hd (n : nat) (w : world) :
  quiet (S n) w = true -> hd None (faults w) = None.
Proof.
  unfold quiet. destruct (faults w) as [|[e|] fs]; cbn; try reflexivity.
  discriminate.
Qed.

Lemma quiet_pop (n : nat) (w : world) :
  quiet (S n) w = true -> quiet n (pop w) = true.
Proof.
  unfold quiet, pop. cbn. destruct (faults w) as [|[e|] fs]; cbn.
  - now destruct n.
  - discriminate.
  - trivial.
Qed.

Lemma reset_calm (s : sqlite3_stmt) (w : world) :
  hd None (faults w) = None ->
  sqlite3_reset s w =
  ((match at_ s with Failed e => code e | _ => SQLITE_OK end,
    with_progress Ready s), pop w).
Proof.
  intros H. unfold sqlite3_reset, bind, ret. now rewrite next_fault_pop, H.
Qed.

Lemma reset_fault (s : sqlite3_stmt) (w : world) (e : error) :
  hd None (faults w) = Some e ->
  sqlite3_reset s w = ((code e, with_progress Ready s), pop w).
Proof.
  intros H. unfold sqlite3_reset, bind, ret. now rewrite next_fault_pop, H.
Qed.

Lemma bind_calm (s : sqlite3_stmt) (value : string) (w : world) :
  hd None (faults w) = None -> at_ s = Ready ->
  sqlite3_bind_text s 1 value w =
  ((SQLITE_OK, Stmt (text s) (Some (c_str value)) Ready), pop w).
Proof.
  intros H Hs. unfold sqlite3_bind_text, bind, ret.
  now rewrite next_fault_pop, H, Hs.
Qed.

Lemma bind_fault (s : sqlite3_stmt) (value : string) (w : world) (e : error) :
  hd None (faults w) = Some e ->
  sqlite3_bind_text s 1 value w = ((code e, s), pop w).
Proof.
  intros H. unfold sqlite3_bind_text, bind, ret.
  now rewrite next_fault_pop, H.
Qed.

Lemma step_calm (s : sqlite3_stmt) (w : world) :
  hd None (faults w) = None -> at_ s = Ready ->
  sqlite3_step s w =
  ((result_code (fst (evaluate s (pop w))),
    with_progress (fst (evaluate s (pop w))) s),
   snd (evaluate s (pop w))).
Proof.
  intros H Hs. unfold sqlite3_step, bind, ret.
  rewrite next_fault_pop, H, Hs. now destruct (evaluate s (pop w)).
Qed.

Lemma step_fault (s : sqlite3_stmt) (w : world) (e : error) :
  hd None (faults w) = Some e ->
  sqlite3_step s w = ((code e, with_progress (Failed e) s), pop w).
Proof.
  intros H. unfold sqlite3_step, bind, ret. now rewrite next_fault_pop, H.
Qed.

Lemma code_not_ok (e : error) : neq (code e) SQLITE_OK = true.
Proof. now destruct e. Qed.

Lemma code_not_done (e : error) : (code e =? SQLITE_DONE)%Z = false.
Proof. now destruct e. Qed.

Lemma code_not_row (e : error) : (code e =? SQLITE_ROW)%Z = false.
Proof. now destruct e. Qed.

Lemma code_nonzero (e : error) : code e <> 0.
Proof. now destruct e. Qed.

Lemma has_table_find (name : string) (d : database) :
  has_table name d = true -> exists t, find_table name d = Some t.
Proof.
  unfold has_table, find_table, listed.
  induction d as [|entry d IH]; cbn; [discriminate|].
  destruct (named name entry); [now exists (snd entry)|].
  rewrite andb_false_r. exact IH.
Qed.

(** The select of the lookup, evaluated on a database. *)
Lemma evaluate_select (username : string) (w : world) :
  evaluate (Stmt select_hash_salt (Some username) Ready) w =
  (match lookup_columns (disk w) with
   | None => Failed SQLITE_ERROR
   | Some _ =>
       match stored (disk w) username with
       | Some (h, s) => AtRow [h; s]
       | None => Done
       end
   end, w).
Proof.
  unfold evaluate. cbn [text param].
  destruct (lookup_columns (disk w)); [|reflexivity].
  now destruct (stored (disk w) username) as [[h s]|].
Qed.

Lemma serves_compiles (d : database) :
  serves d = true -> prepares select_hash_salt d = true.
Proof.
  unfold serves, prepares. now destruct (lookup_columns d).
Qed.

(** On a database that serves the query, a row that is found holds texts:
    the credential is the row. *)
Lemma serves_stored (d : database) (username : string) :
  serves d = true ->
  match stored d username with
  | Some (h, s) =>
      exists ht st, text_of h = Some ht /\ text_of s = Some st
                    /\ credential d username = Some (ht, st)
  | None => credential d username = None
  end.
Proof.
  unfold serves, credential, stored.
  destruct (lookup_columns d) as [[[[t h] s] u]|]; [|discriminate].
  intros H. rewrite forallb_forall in H.
  destruct (find _ (rows t)) as [row|] eqn:E; [|reflexivity].
  apply find_some in E. destruct E as [E _]. apply H in E.
  apply andb_true_iff in E. destruct E as [E1 E2].
  destruct (nth h row Null) as [|ht|ht]; try discriminate E1;
    destruct (nth s row Null) as [|st|st]; try discriminate E2;
    cbn [text_of]; eexists; eexists; repeat split.
Qed.

(** The lookup is a reset, a bind, a step and a reset; when these calls
    meet no fault and the query compiles on the database, it returns as
    follows: a row with [NULL] for [hash] or [salt] is where its behaviour
    is undefined. *)
Lemma retrieve_password_quiet (q : sqlite3_stmt) (u hash salt : string)
    (w : world) :
  is_select_hash_salt (text q) = true -> failed (at_ q) = false ->
  prepares select_hash_salt (disk w) = true -> quiet 4 w = true ->
  retrieve_password q u hash 65 salt 65 w =
  match stored (disk w) (c_str u) with
  | None =>
      (Some (SQLITE_OK, Stmt select_hash_salt (Some (c_str u)) Ready,
             store hash 0 NUL, store salt 0 NUL),
       pop (pop (pop (pop w))))
  | Some (h, s) =>
      match text_of h, text_of s with
      | Some ht, Some st =>
          (Some (SQLITE_OK, Stmt select_hash_salt (Some (c_str u)) Ready,
                 store (strncpy hash ht 65) 64 NUL,
                 store (strncpy salt st 65) 64 NUL),
           pop (pop (pop (pop w))))
      | _, _ => (None, pop (pop (pop w)))
      end
  end.
Proof.
  intros Hq Hf Ht Hw.
  destruct q as [t pa st]. cbn in Hq, Hf.
  destruct t; try discriminate Hq. clear Hq.
  pose proof (quiet_hd _ _ Hw) as H1. apply quiet_pop in Hw.
  pose proof (quiet_hd _ _ Hw) as H2. apply quiet_pop in Hw.
  pose proof (quiet_hd _ _ Hw) as H3. apply quiet_pop in Hw.
  pose proof (quiet_hd _ _ Hw) as H4.
  unfold retrieve_password, bind.
  rewrite (reset_calm _ _ H1).
  assert (match at_ (Stmt select_hash_salt pa st) with
          | Failed e => code e
          | _ => SQLITE_OK
          end = SQLITE_OK) as -> by (cbn; now destruct st).
  cbn [neq Z.eqb SQLITE_OK negb with_progress text param].
  rewrite bind_calm by first [exact H2 | reflexivity].
  cbn [neq Z.eqb SQLITE_OK negb text].
  rewrite step_calm by first [exact H3 | reflexivity].
  rewrite evaluate_select.
  change (disk (pop (pop (pop w)))) with (disk w).
  unfold prepares in Ht.
  destruct (lookup_columns (disk w)) as [cols|]; [|discriminate Ht].
  destruct (stored (disk w) (c_str u)) as [[h s]|];
    cbn [fst snd result_code with_progress text param];
    cbn [Z.eqb SQLITE_DONE SQLITE_ROW Pos.eqb].
  - unfold sqlite3_column_text. cbn [at_ with_progress nth].
    destruct (text_of h) as [ht|]; [|reflexivity].
    destruct (text_of s) as [st0|]; [|reflexivity].
    unfold retrieve_password_end, bind.
    rewrite (reset_calm _ _ H4). reflexivity.
  - unfold retrieve_password_end, bind.
    rewrite (reset_calm _ _ H4). reflexivity.
Qed.

(** On a database that serves the query the lookup is defined. *)
Lemma retrieve_password_calm (q : sqlite3_stmt) (u hash salt : string)
    (w : world) :
  is_select_hash_salt (text q) = true -> failed (at_ q) = false ->
  serves (disk w) = true -> quiet 4 w = true ->
  retrieve_password q u hash 65 salt 65 w =
  (Some (SQLITE_OK, Stmt select_hash_salt (Some (c_str u)) Ready,
         match credential (disk w) (c_str u) with
         | Some (h, _) => store (strncpy hash h 65) 64 NUL
         | None => store hash 0 NUL
         end,
         match credential (disk w) (c_str u) with
         | Some (_, s) => store (strncpy salt s 65) 64 NUL
         | None => store salt 0 NUL
         end),
   pop (pop (pop (pop w)))).
Proof.
  intros Hq Hf Ht Hw.
  rewrite retrieve_password_quiet
    by first [assumption | now apply serves_compiles].
  pose proof (serves_stored (disk w) (c_str u) Ht) as H.
  destruct (stored (disk w) (c_str u)) as [[h s]|].
  - destruct H as (ht & st & -> & -> & ->). reflexivity.
  - now rewrite H.
Qed.

End Lookup.

(** ** The password check *)

Section PasswordCheck.

Lemma strlen_zero (p : string) : (strlen p =? 0)%nat = String.eqb (c_str p) "".
Proof.
  rewrite strlen_c_str. now destruct (c_str p).
Qed.

(** The comparison that ends [unpwd_check], on buffers of 65 characters. *)
Lemma compare_hashes (signed : bool) (salt password clienthash hash : string) :
  String.length clienthash = 65%nat ->
  let hashctx := sha256_init in
  let hashctx := sha256_update hashctx salt (strlen salt) in
  let hashctx := sha256_update hashctx password (strlen password) in
  let clienthash := sha256_final hashctx clienthash in
  let clienthash := encode_loop 32 signed 31 63 clienthash in
  let clienthash := store clienthash 64 NUL in
  (strcmp clienthash hash =? 0)%Z
  = String.eqb (base16 (SHA256.digest (c_str salt ++ c_str password)))
               (c_str hash).
Proof.
  intros Hc. cbv zeta. rewrite strcmp_eqb.
  unfold sha256_final, sha256_update, sha256_init. cbn [append].
  rewrite !take_strlen.
  now rewrite c_str_encoded by (exact Hc || apply length_digest).
Qed.

(** The password check in a world where the lookup goes through. *)
Lemma unpwd_check_calm (context : Context) (u : string)
    (password : option string) (w : world) :
  lookup_works context w = true ->
  unpwd_result context (Some u) password w =
  match credential (disk w) (c_str u) with
  | None => Some (if guest_rule context password
                  then MOSQ_ERR_SUCCESS else MOSQ_ERR_AUTH)
  | Some (h, s) =>
      if String.eqb (held h) ""
      then Some (if guest_rule context password
                 then MOSQ_ERR_SUCCESS else MOSQ_ERR_AUTH)
      else
        match password with
        | None => None
        | Some p => Some (if String.eqb (client_hash s p) (held h)
                          then MOSQ_ERR_SUCCESS else MOSQ_ERR_AUTH)
        end
  end.
Proof.
  unfold lookup_works. rewrite !andb_true_iff.
  intros [[[Hq Hf] Ht] Hw]. apply negb_true_iff in Hf.
  unfold unpwd_result, mosquitto_auth_unpwd_check, bind.
  rewrite retrieve_password_calm by assumption.
  pose proof (length_indeterminate w 0 65) as Hc.
  pose proof (length_indeterminate w 65 65) as Hh.
  pose proof (length_indeterminate w 130 65) as Hs.
  revert Hc Hh Hs.
  generalize (indeterminate w 0 65), (indeterminate w 65 65),
    (indeterminate w 130 65).
  intros clienthash hash salt Hc Hh Hs.
  cbn [neq Z.eqb SQLITE_OK negb].
  assert (forall g pw : option string,
             match g, pw with
             | None, None => true
             | Some secret, Some password => (strcmp secret password =? 0)%Z
             | _, _ => false
             end
             = match g, pw with
               | None, None => true
               | Some secret, Some password =>
                   String.eqb (c_str secret) (c_str password)
               | _, _ => false
               end) as Hg.
  { intros [g|] [pw|]; try reflexivity. apply strcmp_eqb. }
  destruct (credential (disk w) (c_str u)) as [[h s]|].
  - rewrite strlen_zero, (strncpy_terminated 64) by exact Hh.
    fold (held h). destruct (String.eqb (held h) "").
    + unfold ret, guest_rule. cbn [fst]. now rewrite Hg.
    + destruct password as [p|]; [|reflexivity].
      unfold ret. cbn [fst].
      rewrite compare_hashes by exact Hc.
      now rewrite !(strncpy_terminated 64) by assumption.
  - rewrite strlen_store_nul. unfold ret, guest_rule. cbn [Nat.eqb fst].
    now rewrite Hg.
Qed.

(** A check whose lookup goes through hands the query back ready. *)
Lemma unpwd_check_ready (context : Context) (u : string)
    (password : option string) (w : world) :
  lookup_works context w = true ->
  passquery (snd (fst (mosquitto_auth_unpwd_check context (Some u) password w)))
  = Stmt select_hash_salt (Some (c_str u)) Ready.
Proof.
  unfold lookup_works. rewrite !andb_true_iff.
  intros [[[Hq Hf] Ht] Hw]. apply negb_true_iff in Hf.
  unfold mosquitto_auth_unpwd_check, bind.
  rewrite retrieve_password_calm by assumption.
  cbn [neq Z.eqb SQLITE_OK negb].
  destruct (strlen _ =? 0)%nat; [reflexivity|].
  now destruct password.
Qed.

(** A failed lookup ends the check with [MOSQ_ERR_UNKNOWN]; a lookup that
    returns [SQLITE_OK] never does. *)
Lemma unpwd_check_unknown (context : Context) (u : string)
    (password : option string) (w : world) :
  unpwd_result context (Some u) password w = Some MOSQ_ERR_UNKNOWN
  <-> lookup_fails context u w.
Proof.
  unfold unpwd_result, lookup_fails, lookup_code, retrieve_code,
    mosquitto_auth_unpwd_check, bind.
  destruct (retrieve_password _ _ _ _ _ _ w)
    as [[[[[rc q] hash] salt]|] w'].
  2:{ cbn. split; [discriminate | intros (rc & H & _); discriminate H]. }
  cbn [fst option_map]. unfold neq, SQLITE_OK.
  destruct (rc =? 0)%Z eqn:E; cbn [negb].
  - apply Z.eqb_eq in E. split.
    + destruct (strlen hash =? 0)%nat.
      * unfold ret. cbn [fst].
        destruct (match guestsecret _ with Some _ => _ | None => _ end);
          intros H; cbv in H; discriminate H.
      * destruct password as [p|]; unfold ret; cbn [fst]; [|discriminate].
        destruct (strcmp _ _ =? 0)%Z; intros H; cbv in H; discriminate H.
    + intros (rc' & H & Hn). injection H as <-. contradiction.
  - apply Z.eqb_neq in E. split; [|reflexivity].
    intros _. now exists rc.
Qed.

End PasswordCheck.

(** ** Schema initialization *)

Section Schema.

Lemma neq_code_row (e : error) : neq (code e) SQLITE_ROW = true.
Proof. now destruct e. Qed.

Lemma neq_code_done (e : error) : neq (code e) SQLITE_DONE = true.
Proof. now destruct e. Qed.

Lemma code_not_success (e : error) : code e <> SUCCESS /\ code e <> NOTREQUIRED.
Proof. now destruct e. Qed.

(** The count query, by the faults of its three calls (prepare, step,
    finalize). *)
Lemma sql_exec_single_int_count (db : sqlite3) (name : string) (r0 : Z)
    (w : world) :
  sql_exec_single_int db (select_count_table name) r0 w =
  match hd None (faults w) with
  | Some e => ((code e, r0), pop w)
  | None =>
      match hd None (faults (pop w)) with
      | Some e => ((code e, r0), pops 3 w)
      | None =>
          ((match hd None (faults (pops 2 w)) with
            | Some e => code e
            | None => SQLITE_OK
            end, count_tables name (disk w)), pops 3 w)
      end
  end.
Proof.
  unfold sql_exec_single_int, sqlite3_prepare_v2, sqlite3_step_at,
    sqlite3_column_int_at, sqlite3_step, sqlite3_finalize, bind, ret.
  cbn [pops].
  rewrite next_fault_pop. destruct (hd None (faults w)) as [e|].
  - now rewrite code_not_ok.
  - cbn [prepares neq Z.eqb SQLITE_OK negb at_]. rewrite next_fault_pop.
    destruct (hd None (faults (pop w))) as [e|].
    + rewrite neq_code_row, next_fault_pop. reflexivity.
    + cbn [evaluate text result_code neq Z.eqb SQLITE_ROW Pos.eqb negb].
      rewrite next_fault_pop.
      destruct (hd None (faults (pop (pop w)))) as [e|].
      * now rewrite code_not_ok.
      * reflexivity.
Qed.

(** The statement that creates a table, likewise; it is refused without
    any fault when an index has the name and no table or view has it. *)
Lemma sql_exec_void_create (db : sqlite3) (name defn : string) (w : world) :
  sql_exec_void db (create_table_if_not_exists name defn) w =
  match hd None (faults w) with
  | Some e => (code e, pop w)
  | None =>
      if resolves name (disk w) || negb (index_named name (disk w)) then
        match hd None (faults (pop w)) with
        | Some e => (code e, pops 3 w)
        | None =>
            (match hd None (faults (pops 2 w)) with
             | Some e => code e
             | None => SQLITE_OK
             end,
             if occupied name (disk w) then pops 3 w
             else with_disk (disk w ++ [(name, Table defn [])])%list
                            (pops 3 w))
        end
      else (code SQLITE_ERROR, pop w)
  end.
Proof.
  unfold sql_exec_void, sqlite3_prepare_v2, sqlite3_step_at, sqlite3_step,
    sqlite3_finalize, bind, ret. cbn [pops].
  rewrite next_fault_pop. destruct (hd None (faults w)) as [e|].
  - now rewrite code_not_ok.
  - cbn [prepares]. change (disk (pop w)) with (disk w). unfold occupied.
    destruct (resolves name (disk w)) eqn:Er;
      [|destruct (index_named name (disk w)) eqn:Ei]; cbn [orb negb];
      [| reflexivity |];
      cbn [neq Z.eqb SQLITE_OK negb at_]; rewrite next_fault_pop;
      (destruct (hd None (faults (pop w))) as [e|];
       [rewrite neq_code_done, neq_code_row; cbn [andb];
        rewrite next_fault_pop; reflexivity|]);
      cbn [evaluate text]; change (disk (pop (pop w))) with (disk w);
      rewrite Er; try rewrite Ei;
      cbn [result_code neq Z.eqb SQLITE_ROW SQLITE_DONE Pos.eqb negb andb];
      rewrite next_fault_pop;
      match goal with
      | |- context [hd None (faults ?x)] =>
          change (hd None (faults x)) with (hd None (faults (pop (pop w))))
      end;
      (destruct (hd None (faults (pop (pop w)))) as [e|];
       [now rewrite code_not_ok | reflexivity]).
Qed.

(** The pragma, likewise. *)
Lemma sql_exec_void_pragma (db : sqlite3) (w : world) :
  sql_exec_void db pragma_foreign_keys_on w =
  match hd None (faults w) with
  | Some e => (code e, pop w)
  | None =>
      match hd None (faults (pop w)) with
      | Some e => (code e, pops 3 w)
      | None =>
          (match hd None (faults (pops 2 w)) with
           | Some e => code e
           | None => SQLITE_OK
           end, with_foreign_keys true (pops 3 w))
      end
  end.
Proof.
  unfold sql_exec_void, sqlite3_prepare_v2, sqlite3_step_at, sqlite3_step,
    sqlite3_finalize, bind, ret. cbn [pops].
  rewrite next_fault_pop. destruct (hd None (faults w)) as [e|].
  - now rewrite code_not_ok.
  - cbn [prepares neq Z.eqb SQLITE_OK negb at_]. rewrite next_fault_pop.
    destruct (hd None (faults (pop w))) as [e|].
    + rewrite neq_code_done, neq_code_row. cbn [andb].
      rewrite next_fault_pop. reflexivity.
    + cbn [evaluate text result_code neq Z.eqb SQLITE_ROW SQLITE_DONE
             Pos.eqb negb andb].
      rewrite next_fault_pop.
      change (hd None (faults (with_foreign_keys true (pop (pop w)))))
        with (hd None (faults (pop (pop w)))).
      destruct (hd None (faults (pop (pop w)))) as [e|];
        [now rewrite code_not_ok | reflexivity].
Qed.

Lemma count_tables_zero (name : string) (d : database) :
  (count_tables name d =? 0)%Z = negb (has_table name d).
Proof.
  unfold count_tables, has_table.
  induction d as [|entry d IH]; [reflexivity|]. cbn [filter existsb].
  destruct (listed name entry); [reflexivity|]. exact IH.
Qed.

(** [create_table], by the faults of the calls it makes. *)
Lemma create_table_cases (db : sqlite3) (name defn : string) (w : world) :
  create_table db name defn w =
  match hd None (faults w) with
  | Some e => (code e, pop w)
  | None =>
      match hd None (faults (pop w)) with
      | Some e => (code e, pops 3 w)
      | None =>
          match hd None (faults (pops 2 w)) with
          | Some e => (code e, pops 3 w)
          | None =>
              if has_table name (disk w) then (NOTREQUIRED, pops 3 w)
              else
                let r := sql_exec_void db
                           (create_table_if_not_exists name defn) (pops 3 w) in
                (if neq (fst r) SQLITE_OK then fst r else SUCCESS, snd r)
          end
      end
  end.
Proof.
  unfold create_table, bind. rewrite sql_exec_single_int_count.
  destruct (hd None (faults w)) as [e|]; [now rewrite code_not_ok|].
  destruct (hd None (faults (pop w))) as [e|]; [now rewrite code_not_ok|].
  destruct (hd None (faults (pops 2 w))) as [e|]; [now rewrite code_not_ok|].
  cbn [neq Z.eqb SQLITE_OK negb]. rewrite count_tables_zero.
  destruct (has_table name (disk w)); cbn [negb]; [reflexivity|].
  destruct (sql_exec_void _ _ _) as [rc w']. cbn [fst snd].
  now destruct (neq rc SQLITE_OK).
Qed.

Lemma grows_refl (d : database) : grows d d.
Proof. exists []. now rewrite app_nil_r. Qed.

Lemma has_table_grows (name : string) (d d' : database) :
  grows d d' -> has_table name d = true -> has_table name d' = true.
Proof.
  intros [more ->] H. unfold has_table in *. rewrite existsb_app, H.
  reflexivity.
Qed.

Lemma has_table_added (name defn : string) (d : database) :
  has_table name (d ++ [(name, Table defn [])])%list = true.
Proof.
  unfold has_table. rewrite existsb_app. cbn. unfold listed, named.
  cbn [fst]. rewrite String.eqb_refl. now rewrite orb_true_r.
Qed.

Lemma disk_pops (n : nat) (w : world) : disk (pops n w) = disk w.
Proof.
  revert w. induction n as [|n IH]; intros w; [reflexivity|].
  cbn [pops]. now rewrite IH.
Qed.

(** A table that exists is left alone, and so is the rest of the
    database, whatever faults occur. *)
Lemma create_table_existing (db : sqlite3) (name defn : string) (w : world) :
  has_table name (disk w) = true ->
  disk (snd (create_table db name defn w)) = disk w
  /\ (fst (create_table db name defn w) = NOTREQUIRED
      \/ exists e, fst (create_table db name defn w) = code e).
Proof.
  intros H. rewrite create_table_cases, H.
  destruct (hd None (faults w)) as [e|];
    [split; [reflexivity | right; now exists e]|].
  destruct (hd None (faults (pop w))) as [e|];
    [split; [apply disk_pops | right; now exists e]|].
  destruct (hd None (faults (pops 2 w))) as [e|].
  - split; [apply disk_pops | right; now exists e].
  - split; [apply disk_pops | now left].
Qed.

Lemma create_table_existing_calm (db : sqlite3) (name defn : string)
    (w : world) :
  has_table name (disk w) = true -> quiet 3 w = true ->
  create_table db name defn w = (NOTREQUIRED, pops 3 w).
Proof.
  intros H Hw. rewrite create_table_cases, H.
  rewrite (quiet_hd _ _ Hw). apply quiet_pop in Hw.
  rewrite (quiet_hd _ _ Hw). apply quiet_pop in Hw.
  cbn [pops]. now rewrite (quiet_hd _ _ Hw).
Qed.

Lemma resolves_added (name defn : string) (d : database) :
  resolves name (d ++ [(name, Table defn [])])%list = true.
Proof.
  unfold resolves. rewrite existsb_app. cbn. unfold answers, same_name.
  cbn [fst]. rewrite String.eqb_refl. now rewrite orb_true_r.
Qed.

Lemma resolves_grows (name : string) (d d' : database) :
  grows d d' -> resolves name d = true -> resolves name d' = true.
Proof.
  intros [more ->] H. unfold resolves in *. rewrite existsb_app, H.
  reflexivity.
Qed.

(** In every case the database only grows, and when the call reports
    [SUCCESS] or [NOTREQUIRED] a table or a view answers to the name
    afterwards. *)
Lemma create_table_post (db : sqlite3) (name defn : string) (w : world) :
  grows (disk w) (disk (snd (create_table db name defn w)))
  /\ (fst (create_table db name defn w) = SUCCESS
      \/ fst (create_table db name defn w) = NOTREQUIRED ->
      occupied name (disk (snd (create_table db name defn w))) = true).
Proof.
  rewrite create_table_cases.
  assert (forall e w', grows (disk w) (disk w) /\
            (code e = SUCCESS \/ code e = NOTREQUIRED ->
             occupied name (disk w') = true)) as Herr.
  { intros e w'. split; [apply grows_refl|].
    destruct (code_not_success e). tauto. }
  destruct (hd None (faults w)) as [e|]; [apply Herr|].
  destruct (hd None (faults (pop w))) as [e|]; [apply Herr|].
  destruct (hd None (faults (pops 2 w))) as [e|]; [apply Herr|].
  destruct (has_table name (disk w)) eqn:Hn.
  - split; [apply grows_refl|]. intros _. cbn [snd]. rewrite disk_pops.
    unfold occupied, resolves. unfold has_table in Hn.
    apply existsb_exists in Hn. destruct Hn as (entry & Hin & He).
    apply orb_true_iff. left. apply existsb_exists. exists entry.
    split; [exact Hin|]. unfold listed, is_table, named in He.
    unfold answers, is_index, same_name.
    apply andb_true_iff in He. destruct He as [Hk He].
    apply String.eqb_eq in He. rewrite He, String.eqb_refl.
    now destruct (kind_of (snd entry)).
  - cbv zeta. rewrite sql_exec_void_create. rewrite !disk_pops.
    assert (forall e w', code e = SUCCESS \/ code e = NOTREQUIRED ->
              occupied name (disk w') = true) as Herr'.
    { intros e w'. destruct (code_not_success e). tauto. }
    destruct (hd None (faults (pops 3 w))) as [e|].
    { cbn [fst snd]. rewrite code_not_ok. split; [apply grows_refl|apply Herr']. }
    destruct (resolves name (disk w) || negb (index_named name (disk w)))
      eqn:Ep.
    2:{ cbn [fst snd]. rewrite code_not_ok.
        split; [apply grows_refl | apply Herr']. }
    destruct (hd None (faults (pop (pops 3 w)))) as [e|].
    { cbn [fst snd]. rewrite code_not_ok. rewrite !disk_pops.
      split; [apply grows_refl|apply Herr']. }
    cbn [fst snd]. destruct (occupied name (disk w)) eqn:Eo.
    + rewrite !disk_pops. split; [apply grows_refl|]. intros _. exact Eo.
    + cbn [disk with_disk]. split.
      * eexists. reflexivity.
      * intros _. unfold occupied. now rewrite resolves_added.
Qed.

(** *** Triples *)

Lemma hoare_bind {A B : Type} (P : world -> Prop) (R : A -> world -> Prop)
    (Q : B -> world -> Prop) (m : M A) (k : A -> M B) :
  hoare P m R -> (forall a, hoare (R a) (k a) Q) -> hoare P (bind m k) Q.
Proof.
  unfold hoare, bind. intros Hm Hk w Hw. specialize (Hm w Hw).
  destruct (m w) as [a w']. now apply Hk.
Qed.

Lemma hoare_weaken {A : Type} (P P' : world -> Prop) (Q : A -> world -> Prop)
    (m : M A) :
  (forall w, P w -> P' w) -> hoare P' m Q -> hoare P m Q.
Proof. unfold hoare. auto. Qed.

Lemma hoare_keeps {A : Type} (I : database -> Prop) (m : M A) :
  keeps m -> hoare (fun w => I (disk w)) m (fun _ w' => I (disk w')).
Proof. unfold hoare, keeps. intros H w Hw. now rewrite H. Qed.

Lemma keeps_bind {A B : Type} (m : M A) (k : A -> M B) :
  keeps m -> (forall a, keeps (k a)) -> keeps (bind m k).
Proof.
  unfold keeps, bind. intros Hm Hk w. specialize (Hm w).
  destruct (m w) as [a w']. cbn [snd] in Hm. now rewrite Hk.
Qed.

Lemma keeps_ret {A : Type} (a : A) : keeps (ret a).
Proof. now intros w. Qed.

Lemma keeps_next_fault : keeps next_fault.
Proof. intros w. now rewrite next_fault_pop. Qed.

Lemma keeps_log (level : Z) (msg : string) :
  keeps (mosquitto_log_printf level msg).
Proof. now intros w. Qed.

Lemma keeps_initialize : keeps sqlite3_initialize.
Proof. apply keeps_bind; [apply keeps_next_fault|]. intros f. apply keeps_ret. Qed.

Lemma keeps_close (db : sqlite3) : keeps (sqlite3_close db).
Proof. apply keeps_bind; [apply keeps_next_fault|]. intros f. apply keeps_ret. Qed.

Lemma keeps_open (filename : string) : keeps (sqlite3_open filename).
Proof.
  apply keeps_bind; [apply keeps_next_fault|]. intros [e|];
    [apply keeps_ret | now intros w].
Qed.

Lemma keeps_finalize (s : option sqlite3_stmt) : keeps (sqlite3_finalize s).
Proof.
  destruct s as [s|]; [|apply keeps_ret].
  apply keeps_bind; [apply keeps_next_fault|]. intros f. apply keeps_ret.
Qed.

Lemma keeps_prepare (db : sqlite3) (q : sql) : keeps (sqlite3_prepare_v2 db q).
Proof.
  apply keeps_bind; [apply keeps_next_fault|]. intros [e|];
    [apply keeps_ret|]. intros w.
  now destruct (prepares q (disk w)).
Qed.

Lemma keeps_pragma (db : sqlite3) : keeps (sql_exec_void db pragma_foreign_keys_on).
Proof.
  intros w. rewrite sql_exec_void_pragma.
  destruct (hd None (faults w)); [reflexivity|].
  destruct (hd None (faults (pop w))); [apply disk_pops|].
  cbn [snd]. apply (disk_pops 3).
Qed.

(** *** The three tables *)

Lemma schema_present_iff (d : database) :
  schema_present d = true <->
  has_table "profile" d = true /\ has_table "auth" d = true
  /\ has_table "schedule" d = true.
Proof. unfold schema_present. rewrite !andb_true_iff. tauto. Qed.

Lemma create_tables_existing (db : sqlite3) (w : world) :
  schema_present (disk w) = true ->
  disk (snd (create_tables db w)) = disk w
  /\ already_there (fst (fst (fst (create_tables db w))))
  /\ already_there (snd (fst (fst (create_tables db w))))
  /\ already_there (snd (fst (create_tables db w))).
Proof.
  rewrite schema_present_iff. intros (Hp & Ha & Hs).
  unfold create_tables, bind.
  destruct (create_table_existing db "profile" profile_definition w Hp)
    as [E1 C1].
  destruct (create_table db "profile" _ w) as [p w1]. cbn [fst snd] in E1, C1.
  rewrite <- E1 in Ha, Hs.
  destruct (create_table_existing db "auth" auth_definition w1 Ha)
    as [E2 C2].
  destruct (create_table db "auth" _ w1) as [a w2]. cbn [fst snd] in E2, C2.
  rewrite <- E2 in Hs.
  destruct (create_table_existing db "schedule" schedule_definition w2 Hs)
    as [E3 C3].
  destruct (create_table db "schedule" _ w2) as [s w3]. cbn [fst snd] in E3, C3.
  cbn [ret fst snd]. repeat split; try assumption. congruence.
Qed.

Lemma quiet_pops (n k : nat) (w : world) :
  quiet (n + k) w = true -> quiet k (pops n w) = true.
Proof.
  revert w. induction n as [|n IH]; intros w H; [exact H|].
  cbn [pops]. apply IH. now apply quiet_pop.
Qed.

Lemma quiet_le (n k : nat) (w : world) :
  (k <= n)%nat -> quiet n w = true -> quiet k w = true.
Proof.
  unfold quiet. generalize (faults w). intros fs. revert n fs.
  induction k as [|k IH]; intros n fs Hk H; [reflexivity|].
  destruct n as [|n]; [lia|]. destruct fs as [|f fs]; [reflexivity|].
  cbn [firstn forallb] in *. apply andb_true_iff in H as [-> H].
  apply (IH n); [lia | exact H].
Qed.

Lemma pops_add (n k : nat) (w : world) : pops k (pops n w) = pops (n + k) w.
Proof. revert w. induction n as [|n IH]; intros w; [reflexivity|]. apply IH. Qed.

(** A second run, without faults: each table is reported as already there. *)
Lemma create_tables_existing_calm (db : sqlite3) (w : world) :
  schema_present (disk w) = true -> quiet 9 w = true ->
  create_tables db w = ((NOTREQUIRED, NOTREQUIRED, NOTREQUIRED), pops 9 w).
Proof.
  rewrite schema_present_iff. intros (Hp & Ha & Hs) Hw.
  unfold create_tables, bind.
  rewrite create_table_existing_calm;
    [| exact Hp | apply (quiet_le 9); [lia | exact Hw]].
  rewrite create_table_existing_calm;
    [| now rewrite disk_pops | apply (quiet_le 6); [lia|now apply (quiet_pops 3 6)]].
  rewrite create_table_existing_calm;
    [| now rewrite !disk_pops | rewrite pops_add; now apply (quiet_pops 6 3)].
  rewrite !pops_add. reflexivity.
Qed.

(** *** Initialization *)

Lemma maintains_bind {A B : Type} (I : database -> Prop) (m : M A)
    (k : A -> M B) :
  maintains I m -> (forall a, maintains I (k a)) -> maintains I (bind m k).
Proof. intros Hm Hk. eapply hoare_bind; [exact Hm | exact Hk]. Qed.

Lemma maintains_keeps {A : Type} (I : database -> Prop) (m : M A) :
  keeps m -> maintains I m.
Proof. apply hoare_keeps. Qed.

Lemma maintains_ret {A : Type} (I : database -> Prop) (a : A) :
  maintains I (ret a).
Proof. apply maintains_keeps, keeps_ret. Qed.

Ltac maintain :=
  repeat lazymatch goal with
    | |- maintains _ (bind _ _) => apply maintains_bind; [|intro]
    | |- maintains _ (ret _) => apply maintains_ret
    | |- maintains _ (mosquitto_log_printf _ _) =>
        apply maintains_keeps, keeps_log
    | |- maintains _ sqlite3_initialize =>
        apply maintains_keeps, keeps_initialize
    | |- maintains _ (sqlite3_open _) => apply maintains_keeps, keeps_open
    | |- maintains _ (sqlite3_close _) => apply maintains_keeps, keeps_close
    | |- maintains _ (sqlite3_finalize _) =>
        apply maintains_keeps, keeps_finalize
    | |- maintains _ (sqlite3_prepare_v2 _ _) =>
        apply maintains_keeps, keeps_prepare
    | |- maintains _ (sql_exec_void _ pragma_foreign_keys_on) =>
        apply maintains_keeps, keeps_pragma
    | |- maintains _ (create_tables _) =>
        match goal with
        | H : forall db, maintains _ (create_tables db) |- _ => apply H
        end
    | |- maintains _ (let _ := _ in _) => cbv zeta
    | |- maintains _ (match ?x with _ => _ end) => destruct x
    end.

(** Initialization keeps every invariant of the database that the three
    calls of [create_table] keep. *)
Lemma plugin_init_maintains (I : database -> Prop)
    (auth_opts : list (string * string)) :
  (forall db, maintains I (create_tables db)) ->
  maintains I (mosquitto_auth_plugin_init auth_opts).
Proof.
  intros Hc. unfold mosquitto_auth_plugin_init.
  destruct (fold_left read_option auth_opts (None, None, None))
    as [[dbfile su] gs].
  maintain.
Qed.

(** On a database that has the three tables, initialization changes
    nothing in the database, whatever faults occur. *)
Lemma plugin_init_existing (auth_opts : list (string * string)) (w : world) :
  schema_present (disk w) = true ->
  disk (snd (mosquitto_auth_plugin_init auth_opts w)) = disk w.
Proof.
  intros H.
  apply (plugin_init_maintains (fun d => d = disk w) auth_opts);
    [|reflexivity].
  intros db w' Hw'. rewrite <- Hw' in H. rewrite <- Hw'.
  now apply (proj1 (create_tables_existing db w' H)).
Qed.

Lemma fails_bind {A : Type} (m : M A) (k : A -> M (Z * option Context)) :
  (forall a, fails (k a)) -> fails (bind m k).
Proof.
  unfold fails, bind. intros Hk w. destruct (m w) as [a w']. apply Hk.
Qed.

Lemma fails_ret (rc : Z) (c : option Context) :
  rc <> SUCCESS -> fails (ret (rc, c)).
Proof. now intros H w. Qed.

Lemma hoare_fails (P : world -> Prop)
    (J : Z * option Context -> world -> Prop) (m : M (Z * option Context)) :
  fails m -> hoare P m (fun r w' => fst r = SUCCESS -> J r w').
Proof. intros H w _ E. now apply H in E. Qed.

Ltac failing :=
  apply hoare_fails;
  repeat (apply fails_bind; intro);
  apply fails_ret; discriminate.

Lemma created_of_codes (rc : Z) :
  neq rc SUCCESS && neq rc NOTREQUIRED = false -> created rc.
Proof.
  unfold neq, created. rewrite andb_false_iff, !negb_false_iff, !Z.eqb_eq.
  tauto.
Qed.

Lemma prepare_statement (db : sqlite3) (q : sql) :
  hoare (fun _ => True) (sqlite3_prepare_v2 db q)
    (fun r w' => neq (fst r) SQLITE_OK = false ->
                 snd r = Some (Stmt q None Ready)
                 /\ prepares q (disk w') = true).
Proof.
  intros w _. unfold sqlite3_prepare_v2, bind, ret.
  destruct (next_fault w) as [[e|] w']; cbn [fst snd].
  - now rewrite code_not_ok.
  - destruct (prepares q (disk w')) eqn:E; cbn [fst snd]; [now split|].
    now rewrite code_not_ok.
Qed.

(** When initialization reports [SUCCESS], the password query compiles on
    the database it leaves. *)
Lemma plugin_init_success (auth_opts : list (string * string)) :
  hoare (fun _ => True) (mosquitto_auth_plugin_init auth_opts)
    (fun r w' => fst r = SUCCESS ->
                 prepares select_hash_salt (disk w') = true).
Proof.
  unfold mosquitto_auth_plugin_init.
  destruct (fold_left read_option auth_opts (None, None, None))
    as [[dbfile su] gs].
  apply hoare_bind with (R := fun _ _ => True); [easy|]. intros rc.
  destruct (neq rc SQLITE_OK); [failing|].
  destruct dbfile as [dbfile|]; [|failing].
  apply hoare_bind with (R := fun _ _ => True); [easy|]. intros [rc' db].
  destruct (neq rc' SQLITE_OK); [failing|].
  apply hoare_bind with (R := fun _ _ => True); [easy|]. intros rc''.
  destruct (neq rc'' SQLITE_OK); [failing|].
  apply hoare_bind with (R := fun _ _ => True); [easy|]. intros [[p a] s].
  cbv zeta.
  destruct (neq p SUCCESS && neq p NOTREQUIRED
            || neq a SUCCESS && neq a NOTREQUIRED
            || neq s SUCCESS && neq s NOTREQUIRED); [failing|].
  apply hoare_bind with (R := fun _ _ => True); [easy|]. intros u.
  eapply hoare_bind; [apply prepare_statement|].
  intros [rc3 q]. cbn [fst snd].
  destruct (neq rc3 SQLITE_OK); [destruct q; failing|].
  destruct q as [q|]; [|failing].
  intros w H _. now destruct (H eq_refl).
Qed.

(** The context of a successful initialization: the compiled password
    query, ready to be used, and the two names as the options give them. *)
Lemma plugin_init_context (auth_opts : list (string * string)) :
  hoare (fun _ => True) (mosquitto_auth_plugin_init auth_opts)
    (fun r _ =>
       fst r = SUCCESS ->
       exists dbfile context,
         snd r = Some context
         /\ read_options auth_opts
            = (Some dbfile, superuser context, guestsecret context)
         /\ passquery context = example_query).
Proof.
  unfold mosquitto_auth_plugin_init, read_options.
  destruct (fold_left read_option auth_opts (None, None, None))
    as [[dbfile su] gs].
  apply hoare_bind with (R := fun _ _ => True); [easy|]. intros rc.
  destruct (neq rc SQLITE_OK); [failing|].
  destruct dbfile as [dbfile|]; [|failing].
  apply hoare_bind with (R := fun _ _ => True); [easy|]. intros [rc' db].
  destruct (neq rc' SQLITE_OK); [failing|].
  apply hoare_bind with (R := fun _ _ => True); [easy|]. intros rc''.
  destruct (neq rc'' SQLITE_OK); [failing|].
  apply hoare_bind with (R := fun _ _ => True); [easy|]. intros [[p a] s].
  cbv zeta.
  destruct (neq p SUCCESS && neq p NOTREQUIRED
            || neq a SUCCESS && neq a NOTREQUIRED
            || neq s SUCCESS && neq s NOTREQUIRED); [failing|].
  apply hoare_bind with (R := fun _ _ => True); [easy|]. intros u.
  eapply hoare_bind; [apply prepare_statement|].
  intros [rc3 q]. cbn [fst snd].
  destruct (neq rc3 SQLITE_OK); [destruct q; failing|].
  destruct q as [q|]; [|failing].
  intros w H _. destruct (H eq_refl) as [H' _]. injection H' as ->.
  exists dbfile. eexists. repeat split.
Qed.

Lemma initialize_calm (w : world) :
  hd None (faults w) = None -> sqlite3_initialize w = (SQLITE_OK, pop w).
Proof.
  intros H. unfold sqlite3_initialize, bind, ret.
  now rewrite next_fault_pop, H.
Qed.

Lemma open_calm (filename : string) (w : world) :
  hd None (faults w) = None ->
  sqlite3_open filename w
  = ((SQLITE_OK, connection), with_foreign_keys false (pop w)).
Proof.
  intros H. unfold sqlite3_open, bind, ret. now rewrite next_fault_pop, H.
Qed.

Lemma pragma_calm (db : sqlite3) (w : world) :
  quiet 3 w = true ->
  sql_exec_void db pragma_foreign_keys_on w
  = (SQLITE_OK, with_foreign_keys true (pops 3 w)).
Proof.
  intros Hw. rewrite sql_exec_void_pragma.
  rewrite (quiet_hd _ _ Hw). apply quiet_pop in Hw.
  rewrite (quiet_hd _ _ Hw). apply quiet_pop in Hw.
  cbn [pops]. now rewrite (quiet_hd _ _ Hw).
Qed.

Lemma prepare_calm (db : sqlite3) (w : world) :
  hd None (faults w) = None ->
  prepares select_hash_salt (disk w) = true ->
  sqlite3_prepare_v2 db select_hash_salt w
  = ((SQLITE_OK, Some example_query), pop w).
Proof.
  intros H Ht. unfold sqlite3_prepare_v2, bind, ret.
  rewrite next_fault_pop, H.
  change (disk (pop w)) with (disk w). now rewrite Ht.
Qed.

Lemma log_pops (n : nat) (w : world) : log (pops n w) = log w.
Proof.
  revert w. induction n as [|n IH]; intros w; [reflexivity|].
  cbn [pops]. now rewrite IH.
Qed.

Lemma disk_with_foreign_keys (b : bool) (w : world) :
  disk (with_foreign_keys b w) = disk w.
Proof. reflexivity. Qed.

Lemma log_with_foreign_keys (b : bool) (w : world) :
  log (with_foreign_keys b w) = log w.
Proof. reflexivity. Qed.

Lemma log_pop (w : world) : log (pop w) = log w.
Proof. reflexivity. Qed.

(** A second run of the initialization without faults: it succeeds,
    reports nothing about the tables, and leaves the database alone. *)
Lemma plugin_init_existing_calm (auth_opts : list (string * string))
    (dbfile : string) (su gs : option string) (w : world) :
  read_options auth_opts = (Some dbfile, su, gs) ->
  schema_present (disk w) = true ->
  prepares select_hash_salt (disk w) = true -> quiet 15 w = true ->
  fst (mosquitto_auth_plugin_init auth_opts w)
  = (SUCCESS, Some (Build_Context connection example_query su gs))
  /\ log (snd (mosquitto_auth_plugin_init auth_opts w))
     = (log w ++ [initialized])%list.
Proof.
  unfold read_options. intros Ho Hd Hc Hw.
  set (w' := pop (pops 9 (with_foreign_keys true
               (pops 3 (with_foreign_keys false (pop (pop w))))))).
  assert (mosquitto_auth_plugin_init auth_opts w
          = ((SUCCESS, Some (Build_Context connection example_query su gs)),
             with_log (log w' ++ [initialized])%list w')) as ->.
  { unfold mosquitto_auth_plugin_init. rewrite Ho. unfold bind.
    rewrite initialize_calm by exact (quiet_hd _ _ Hw).
    apply quiet_pop in Hw. cbn [neq Z.eqb SQLITE_OK negb].
    rewrite open_calm by exact (quiet_hd _ _ Hw).
    apply quiet_pop in Hw. cbn [neq Z.eqb SQLITE_OK negb].
    rewrite pragma_calm by (apply (quiet_le 13); [lia | exact Hw]).
    cbn [neq Z.eqb SQLITE_OK negb].
    apply (quiet_pops 3 10) in Hw.
    rewrite create_tables_existing_calm;
      [| rewrite disk_with_foreign_keys, disk_pops; exact Hd
       | apply (quiet_le 10); [lia | exact Hw]].
    apply (quiet_pops 9 1) in Hw.
    cbn [neq Z.eqb SUCCESS NOTREQUIRED negb andb orb Pos.eqb].
    unfold ret at 1.
    rewrite prepare_calm;
      [| exact (quiet_hd _ _ Hw)
       | rewrite disk_pops, disk_with_foreign_keys, disk_pops; exact Hc ].
    reflexivity. }
  cbn [fst snd log with_log]. split; [reflexivity|]. unfold w'.
  rewrite log_pop, log_pops, log_with_foreign_keys, log_pops.
  reflexivity.
Qed.

End Schema.

(** * The access-control check *)

Section AccessControlClaims.

Lemma acl_check_decided (context : Context) (cid u topic : string)
    (access : Z) (w : world) :
  (forall su, superuser context = Some su -> c_str su <> c_str u) ->
  c_str cid = c_str u ->
  (acl_result context (Some cid) (Some u) (Some topic) access w
   = Some MOSQ_ERR_SUCCESS <-> in_namespace (c_str u) (c_str topic))
  /\ (acl_result context (Some cid) (Some u) (Some topic) access w
      = Some MOSQ_ERR_ACL_DENIED <-> ~ in_namespace (c_str u) (c_str topic)).
Proof.
  intros Hsu Hcid. rewrite (acl_check_rule _ _ _ _ _ _ Hsu Hcid).
  rewrite <- acl_rule_spec. destruct (acl_rule u topic); split; split;
    try reflexivity; try discriminate; try tauto.
Qed.

Lemma not_in_namespace_self (name : string) : ~ in_namespace name name.
Proof.
  intros (rest & _ & H). apply append_nil_inv in H. discriminate H.
Qed.

Lemma not_in_namespace_longer (name : string) :
  ~ in_namespace name (name ++ "x/y").
Proof.
  intros (rest & _ & H). apply append_inv_head in H. discriminate H.
Qed.

Lemma in_namespace_child (name : string) : in_namespace name (name ++ "/x").
Proof. exists "x". split; [discriminate | reflexivity]. Qed.

(** C3.  For a username [u] that is not the superuser and a client
    identifier equal to [u], [acl_check] allows a topic exactly when the
    topic is [u], a slash, and at least one more character, that is, when
    the topic has at least [len(u) + 2] characters, starts with [u] and
    has a slash at index [len(u)]; otherwise it denies.  In particular
    topic [u/x] is allowed, and topics [u] and [ux/y] are denied.
    Usernames, identifiers and topics are read as C strings. *)
Theorem acl_check_namespace (context : Context) (cid u topic : string)
    (access : Z) (w : world) :
  (forall su, superuser context = Some su -> c_str su <> c_str u) ->
  c_str cid = c_str u ->
  let name := c_str u in
  let t := c_str topic in
  let result := acl_result context (Some cid) (Some u) (Some topic) access w in
  (result = Some MOSQ_ERR_SUCCESS <-> in_namespace name t)
  /\ (result = Some MOSQ_ERR_ACL_DENIED <-> ~ in_namespace name t)
  /\ (in_namespace name t <->
      (String.length name + 2 <= String.length t)%nat
      /\ take (String.length name) t = name
      /\ load t (String.length name) = "/"%char)
  /\ (t = name ++ "/x" -> result = Some MOSQ_ERR_SUCCESS)
  /\ (t = name -> result = Some MOSQ_ERR_ACL_DENIED)
  /\ (t = name ++ "x/y" -> result = Some MOSQ_ERR_ACL_DENIED).
Proof.
  intros Hsu Hcid name t result.
  destruct (acl_check_decided context cid u topic access w Hsu Hcid)
    as [Hallow Hdeny].
  fold name t result in Hallow, Hdeny.
  split; [exact Hallow|]. split; [exact Hdeny|].
  split; [apply in_namespace_chars|].
  split; [|split].
  - intros E. apply Hallow. rewrite E. apply in_namespace_child.
  - intros E. apply Hdeny. rewrite E. apply not_in_namespace_self.
  - intros E. apply Hdeny. rewrite E. apply not_in_namespace_longer.
Qed.

(** The three topics of the specification, for user [u] of a broker whose
    superuser is [root]. *)
Lemma acl_check_namespace_witness :
  (forall su, superuser example_context = Some su -> c_str su <> c_str "u")
  /\ c_str "u" = c_str "u"
  /\ acl_result example_context (Some "u") (Some "u") (Some "u/x")
       MOSQ_ACL_WRITE example_world = Some MOSQ_ERR_SUCCESS
  /\ acl_result example_context (Some "u") (Some "u") (Some "u")
       MOSQ_ACL_WRITE example_world = Some MOSQ_ERR_ACL_DENIED
  /\ acl_result example_context (Some "u") (Some "u") (Some "ux/y")
       MOSQ_ACL_READ example_world = Some MOSQ_ERR_ACL_DENIED.
Proof.
  assert (forall su, superuser example_context = Some su ->
                     c_str su <> c_str "u") as Hsu.
  { intros su E. injection E as <-. discriminate. }
  split; [exact Hsu|]. split; [reflexivity|].
  split; [|split].
  - destruct (acl_check_namespace example_context "u" "u" "u/x"
                MOSQ_ACL_WRITE example_world Hsu eq_refl)
      as (_ & _ & _ & H & _ & _).
    apply H. reflexivity.
  - destruct (acl_check_namespace example_context "u" "u" "u"
                MOSQ_ACL_WRITE example_world Hsu eq_refl)
      as (_ & _ & _ & _ & H & _).
    apply H. reflexivity.
  - destruct (acl_check_namespace example_context "u" "u" "ux/y"
                MOSQ_ACL_READ example_world Hsu eq_refl)
      as (_ & _ & _ & _ & _ & H).
    apply H. reflexivity.
Defined.

(** C4.  When a superuser is configured and the username is the
    superuser's name, [acl_check] returns [MOSQ_ERR_SUCCESS] for every
    present client identifier, whether or not it is the username, for
    every topic (even an absent one) and every kind of access. *)
Theorem acl_check_superuser (context : Context) (su cid u : string)
    (topic : option string) (access : Z) (w : world) :
  superuser context = Some su ->
  c_str su = c_str u ->
  acl_result context (Some cid) (Some u) topic access w
  = Some MOSQ_ERR_SUCCESS.
Proof.
  intros Hsu E. unfold acl_result, mosquitto_auth_acl_check.
  now rewrite Hsu, strcmp_eqb, E, String.eqb_refl.
Qed.

Lemma acl_check_superuser_witness :
  superuser example_context = Some "root"
  /\ c_str "root" = c_str "root"
  /\ acl_result example_context (Some "anyone") (Some "root")
       (Some "any/topic") MOSQ_ACL_WRITE example_world
     = Some MOSQ_ERR_SUCCESS.
Proof.
  split; [reflexivity|]. split; [reflexivity|].
  apply (acl_check_superuser example_context "root" "anyone" "root"
           (Some "any/topic") MOSQ_ACL_WRITE example_world);
    reflexivity.
Defined.

(** C5, as the code has it.  [acl_check] returns [MOSQ_ERR_ACL_DENIED]
    whenever the client identifier or the username is absent ([NULL]), for
    every topic and every kind of access. *)
Theorem acl_check_absent_identity (context : Context)
    (cid u topic : option string) (access : Z) (w : world) :
  cid = None \/ u = None ->
  acl_result context cid u topic access w = Some MOSQ_ERR_ACL_DENIED.
Proof.
  unfold acl_result, mosquitto_auth_acl_check.
  intros [-> | ->]; [reflexivity|]. now destruct cid.
Qed.

Lemma acl_check_absent_identity_witness :
  (Some "u" = None \/ @None string = None)
  /\ acl_result example_context (Some "u") None (Some "u/x")
       MOSQ_ACL_READ example_world = Some MOSQ_ERR_ACL_DENIED.
Proof.
  split; [now right|].
  apply (acl_check_absent_identity example_context (Some "u") None
           (Some "u/x") MOSQ_ACL_READ example_world).
  now right.
Defined.

(** C5 as stated fails on empty names: an empty client identifier with an
    empty username is allowed topic [/x], and an empty client identifier
    with the superuser's name is allowed every topic. *)
Lemma acl_check_empty_identity_allowed :
  acl_result example_context (Some "") (Some "") (Some "/x")
    MOSQ_ACL_READ example_world <> Some MOSQ_ERR_ACL_DENIED
  /\ acl_result example_context (Some "") (Some "") (Some "/x")
       MOSQ_ACL_READ example_world = Some MOSQ_ERR_SUCCESS
  /\ acl_result example_context (Some "") (Some "root") (Some "any/topic")
       MOSQ_ACL_WRITE example_world = Some MOSQ_ERR_SUCCESS.
Proof.
  split; [|split].
  - vm_compute. discriminate.
  - reflexivity.
  - reflexivity.
Qed.

End AccessControlClaims.

(** * The password check *)

Section PasswordClaims.

Lemma registered_held (context : Context) (u : string) (w : world)
    (h s : string) :
  registered context u w h s -> String.eqb (held h) "" = false.
Proof. intros (_ & _ & H). now apply String.eqb_neq. Qed.

(** What the check returns for a registered user. *)
Lemma registered_check_value (context : Context) (u p : string)
    (w : world) (h s : string) :
  registered context u w h s ->
  unpwd_result context (Some u) (Some p) w
  = Some (if String.eqb (client_hash s p) (held h)
          then MOSQ_ERR_SUCCESS else MOSQ_ERR_AUTH).
Proof.
  intros R. pose proof (registered_held _ _ _ _ _ R) as E.
  destruct R as (Hw & Hc & _).
  now rewrite (unpwd_check_calm _ _ _ _ Hw), Hc, E.
Qed.

Lemma registered_check_iff (context : Context) (u p : string)
    (w : world) (h s : string) :
  registered context u w h s ->
  (unpwd_result context (Some u) (Some p) w = Some MOSQ_ERR_SUCCESS
   <-> client_hash s p = held h)
  /\ (unpwd_result context (Some u) (Some p) w = Some MOSQ_ERR_AUTH
      <-> client_hash s p <> held h).
Proof.
  intros R. rewrite (registered_check_value _ _ _ _ _ _ R).
  destruct (String.eqb (client_hash s p) (held h)) eqn:E.
  - apply String.eqb_eq in E. split; split; try tauto; try reflexivity.
    intros H. cbv in H. discriminate H.
  - apply String.eqb_neq in E. split; split; try tauto; try reflexivity.
    intros H. cbv in H. discriminate H.
Qed.

(** Changing one character of a stored hash, among those the buffer
    holds, changes what the buffer holds. *)
Lemma take_c_str_store (n : nat) (h : string) (i : nat) (c : ascii) :
  (i < String.length (take n (c_str h)))%nat ->
  c <> load h i ->
  take n (c_str (store h i c)) <> take n (c_str h).
Proof.
  revert n i. induction h as [|d h IH]; intros n i Hi Hd.
  - destruct n; cbn in Hi; lia.
  - cbn [c_str] in *. destruct (is_nul d) eqn:Ed.
    + destruct n; cbn in Hi; lia.
    + destruct n as [|n]; [cbn in Hi; lia|]. destruct i as [|i].
      * cbn [store c_str take load] in *.
        destruct (is_nul c); cbn [take]; [discriminate|].
        intros E. injection E as E. contradiction.
      * cbn [store c_str take load String.length] in *. rewrite Ed.
        cbn [take]. intros E. injection E as E.
        revert E. apply IH; [lia | exact Hd].
Qed.

(** C1, as the code has it.  For a registered user, with the stored hash
    and the stored salt as the two buffers of 65 characters hold them
    ([held]: the first 64 characters), [unpwd_check] grants access exactly
    when the base16 text of SHA-256 of the held salt followed by the
    password is the held hash, and denies otherwise.  After an Allow, a
    stored hash that differs in what the buffer holds gives a Deny, and so
    does a salt or a password that changes the digest; changing one
    character among the held characters of the stored hash changes what
    the buffer holds. *)
Theorem unpwd_check_registered (context : Context) (u p : string)
    (w : world) (h s : string) :
  registered context u w h s ->
  let result := unpwd_result context (Some u) (Some p) w in
  (result = Some MOSQ_ERR_SUCCESS
   <-> base16 (SHA256.digest (held s ++ c_str p)) = held h)
  /\ (result = Some MOSQ_ERR_AUTH
      <-> base16 (SHA256.digest (held s ++ c_str p)) <> held h)
  /\ (result = Some MOSQ_ERR_SUCCESS ->
      forall context' u' p' w' h' s',
        registered context' u' w' h' s' ->
        (held h' <> held h /\ held s' = held s /\ c_str p' = c_str p)
        \/ (held h' = held h
            /\ SHA256.digest (held s' ++ c_str p')
               <> SHA256.digest (held s ++ c_str p)) ->
        unpwd_result context' (Some u') (Some p') w' = Some MOSQ_ERR_AUTH)
  /\ (forall i c, (i < String.length (held h))%nat -> c <> load h i ->
        held (store h i c) <> held h).
Proof.
  intros R result.
  destruct (registered_check_iff context u p w h s R) as [Ha Hd].
  fold result in Ha, Hd. unfold client_hash in Ha, Hd.
  split; [exact Ha|]. split; [exact Hd|]. split.
  - intros HA context' u' p' w' h' s' R' Hchange.
    apply Ha in HA.
    apply (registered_check_iff context' u' p' w' h' s' R').
    unfold client_hash.
    destruct Hchange as [(Hh & Hs & Hp) | (Hh & Hdig)].
    + rewrite Hs, Hp, HA. intros E. apply Hh. now symmetry.
    + rewrite Hh, <- HA. intros E. apply Hdig. now apply base16_inj.
  - intros i c Hi Hl. unfold held in *. now apply take_c_str_store.
Qed.

Lemma registered_alice :
  registered example_context "alice" alice_world alice_hash "s1".
Proof.
  split; [reflexivity|]. split; [reflexivity|]. discriminate.
Defined.

(** The example of the specification: [hunter2] is allowed, [hunter3] is
    denied. *)
Lemma unpwd_check_registered_witness :
  registered example_context "alice" alice_world alice_hash "s1"
  /\ unpwd_result example_context (Some "alice") (Some "hunter2") alice_world
     = Some MOSQ_ERR_SUCCESS
  /\ unpwd_result example_context (Some "alice") (Some "hunter3") alice_world
     = Some MOSQ_ERR_AUTH.
Proof.
  split; [exact registered_alice|]. split.
  - destruct (unpwd_check_registered example_context "alice" "hunter2"
                alice_world alice_hash "s1" registered_alice)
      as (H & _).
    apply H. vm_compute. reflexivity.
  - destruct (unpwd_check_registered example_context "alice" "hunter3"
                alice_world alice_hash "s1" registered_alice)
      as (_ & H & _).
    apply H. vm_compute. discriminate.
Defined.

(** C1 as stated fails in both directions, and so does its second half.
    A stored hash of 65 characters, the right 64 and one more, is not the
    text of the digest, and the password is allowed; a stored salt of 65
    characters with the hash of that salt and the password gives a Deny.
    Changing the character at index 64 of such a stored hash, or of a
    stored salt of 65 characters, leaves an Allow an Allow. *)
Lemma unpwd_check_digest_equality_fails :
  (unpwd_result example_context (Some "dave") (Some "hunter2")
     (dave_world "0") = Some MOSQ_ERR_SUCCESS
   /\ base16 (SHA256.digest ("s1" ++ "hunter2")) <> alice_hash ++ "0")
  /\ (unpwd_result example_context (Some "carol") (Some "hunter2") carol_world
      = Some MOSQ_ERR_AUTH
      /\ base16 (SHA256.digest (carol_salt ++ "hunter2")) = carol_hash)
  /\ unpwd_result example_context (Some "dave") (Some "hunter2")
       (dave_world "1") = Some MOSQ_ERR_SUCCESS
  /\ (unpwd_result example_context (Some "erin") (Some long_password)
        (erin_world "a") = Some MOSQ_ERR_SUCCESS
      /\ unpwd_result example_context (Some "erin") (Some long_password)
           (erin_world "b") = Some MOSQ_ERR_SUCCESS).
Proof.
  split; [split|split; [split|split; [|split]]].
  - vm_compute. reflexivity.
  - vm_compute. discriminate.
  - vm_compute. reflexivity.
  - vm_compute. reflexivity.
  - vm_compute. reflexivity.
  - vm_compute. reflexivity.
  - vm_compute. reflexivity.
Qed.

(** C2.  For a username without a stored credential, [unpwd_check] grants
    access exactly when the guest secret is not configured and no password
    is supplied, or the guest secret is configured and the supplied
    password is the same C string; in every other combination it denies. *)
Theorem unpwd_check_guest (context : Context) (u : string)
    (password : option string) (w : world) :
  lookup_works context w = true ->
  credential (disk w) (c_str u) = None ->
  let result := unpwd_result context (Some u) password w in
  let granted :=
    (guestsecret context = None /\ password = None)
    \/ (exists secret p, guestsecret context = Some secret
                         /\ password = Some p /\ c_str secret = c_str p) in
  (result = Some MOSQ_ERR_SUCCESS <-> granted)
  /\ (result = Some MOSQ_ERR_AUTH <-> ~ granted).
Proof.
  intros Hw Hc result granted. unfold result, granted.
  rewrite (unpwd_check_calm _ _ _ _ Hw), Hc. unfold guest_rule.
  destruct (guestsecret context) as [g|], password as [p|].
  - destruct (String.eqb (c_str g) (c_str p)) eqn:E.
    + apply String.eqb_eq in E. split; split; try reflexivity.
      * intros _. right. now exists g, p.
      * intros H. cbv in H. discriminate H.
      * intros H. exfalso. apply H. right. now exists g, p.
    + apply String.eqb_neq in E. split; split; try reflexivity.
      * intros H. cbv in H. discriminate H.
      * intros [[H _] | (g' & p' & Hg & Hp & Hs)]; [discriminate H|].
        injection Hg as <-. injection Hp as <-. contradiction.
      * intros _ [[H _] | (g' & p' & Hg & Hp & Hs)]; [discriminate H|].
        injection Hg as <-. injection Hp as <-. contradiction.
  - split; split; try reflexivity.
    + intros H. cbv in H. discriminate H.
    + intros [[H _] | (g' & p' & _ & Hp & _)]; discriminate.
    + intros _ [[H _] | (g' & p' & _ & Hp & _)]; discriminate.
  - split; split; try reflexivity.
    + intros H. cbv in H. discriminate H.
    + intros [[_ H] | (g' & p' & Hg & _ & _)]; discriminate.
    + intros _ [[_ H] | (g' & p' & Hg & _ & _)]; discriminate.
  - split; split; try reflexivity.
    + intros _. now left.
    + intros H. cbv in H. discriminate H.
    + intros H. exfalso. apply H. now left.
Qed.

(** The example of the specification: with guest secret [letmein], that
    password is allowed, another one and an absent one are denied. *)
Lemma unpwd_check_guest_witness :
  lookup_works example_context alice_world = true
  /\ credential (disk alice_world) (c_str "guest") = None
  /\ unpwd_result example_context (Some "guest") (Some "letmein") alice_world
     = Some MOSQ_ERR_SUCCESS
  /\ unpwd_result example_context (Some "guest") (Some "letmeout") alice_world
     = Some MOSQ_ERR_AUTH
  /\ unpwd_result example_context (Some "guest") None alice_world
     = Some MOSQ_ERR_AUTH.
Proof.
  split; [reflexivity|]. split; [reflexivity|]. split; [|split].
  - apply (unpwd_check_guest example_context "guest" (Some "letmein")
             alice_world eq_refl eq_refl).
    right. exists "letmein", "letmein". repeat split.
  - apply (unpwd_check_guest example_context "guest" (Some "letmeout")
             alice_world eq_refl eq_refl).
    intros [[H _] | (g & p & Hg & Hp & Hs)]; [discriminate H|].
    injection Hg as <-. injection Hp as <-. discriminate Hs.
  - apply (unpwd_check_guest example_context "guest" None
             alice_world eq_refl eq_refl).
    intros [[H _] | (g & p & _ & Hp & _)]; discriminate.
Defined.

Lemma held_short (t : string) :
  (String.length (c_str t) <= 64)%nat -> held t = c_str t.
Proof. apply take_all. Qed.

(** C6, as the code has it.  The password is hashed at its full length,
    whatever that is; the stored salt and the stored hash are read through
    buffers of 65 characters.  When the stored salt and the stored hash
    have at most 64 characters, access is granted exactly when the stored
    hash is the base16 text of SHA-256 of the salt followed by the
    password; in particular a correct password is verified whenever the
    salt has at most 64 characters. *)
Theorem unpwd_check_lengths (context : Context) (u p : string)
    (w : world) (h s : string) :
  registered context u w h s ->
  (String.length (c_str s) <= 64)%nat ->
  let result := unpwd_result context (Some u) (Some p) w in
  ((String.length (c_str h) <= 64)%nat ->
   (result = Some MOSQ_ERR_SUCCESS
    <-> base16 (SHA256.digest (c_str s ++ c_str p)) = c_str h))
  /\ (c_str h = base16 (SHA256.digest (c_str s ++ c_str p)) ->
      result = Some MOSQ_ERR_SUCCESS).
Proof.
  intros R Hs result.
  destruct (registered_check_iff context u p w h s R) as [Ha _].
  fold result in Ha. unfold client_hash in Ha.
  rewrite (held_short s Hs) in Ha. split.
  - intros Hh. now rewrite (held_short h Hh) in Ha.
  - intros E. apply Ha. rewrite held_short; [now symmetry|].
    rewrite E, length_base16, length_digest. lia.
Qed.

Lemma registered_bob :
  registered example_context "bob" bob_world bob_hash bob_salt.
Proof.
  split; [reflexivity|]. split; [reflexivity|]. discriminate.
Defined.

(** A password of 200 characters with a salt of 64 characters. *)
Lemma unpwd_check_lengths_witness :
  registered example_context "bob" bob_world bob_hash bob_salt
  /\ (String.length (c_str bob_salt) <= 64)%nat
  /\ unpwd_result example_context (Some "bob") (Some long_password) bob_world
     = Some MOSQ_ERR_SUCCESS.
Proof.
  assert (String.length (c_str bob_salt) <= 64)%nat as Hs
      by (apply Nat.leb_le; reflexivity).
  split; [exact registered_bob|]. split; [exact Hs|].
  apply (unpwd_check_lengths example_context "bob" long_password bob_world
           bob_hash bob_salt registered_bob Hs).
  vm_compute. reflexivity.
Defined.

(** C6 as stated fails on a long salt: the credential of [carol] holds a
    salt of 65 characters and the hash of that salt and [hunter2]; the
    correct password [hunter2] is denied. *)
Lemma unpwd_check_long_salt_denied :
  String.length carol_salt = 65%nat
  /\ carol_hash = base16 (SHA256.digest (carol_salt ++ "hunter2"))
  /\ credential (disk carol_world) "carol" = Some (carol_hash, carol_salt)
  /\ unpwd_result example_context (Some "carol") (Some "hunter2") carol_world
     = Some MOSQ_ERR_AUTH.
Proof.
  split; [reflexivity|]. split; [vm_compute; reflexivity|].
  split; [reflexivity|]. vm_compute. reflexivity.
Qed.

(** C10.  For a registered user the check is defined exactly when a
    password is supplied: with an absent password the code takes
    [strlen(NULL)], which the model records as undefined; with a present
    password it returns Allow or Deny. *)
Theorem unpwd_check_needs_password (context : Context) (u : string)
    (password : option string) (w : world) (h s : string) :
  registered context u w h s ->
  let result := unpwd_result context (Some u) password w in
  (password = None -> result = None)
  /\ (forall p, password = Some p ->
        result = Some MOSQ_ERR_SUCCESS \/ result = Some MOSQ_ERR_AUTH)
  /\ (result = None <-> password = None).
Proof.
  intros R result.
  assert (password = None -> result = None) as HN.
  { intros ->. unfold result. pose proof (registered_held _ _ _ _ _ R) as E.
    destruct R as (Hw & Hc & _).
    now rewrite (unpwd_check_calm _ _ _ _ Hw), Hc, E. }
  assert (forall p, password = Some p ->
            result = Some MOSQ_ERR_SUCCESS \/ result = Some MOSQ_ERR_AUTH) as HS.
  { intros p ->. unfold result.
    rewrite (registered_check_value _ _ _ _ _ _ R).
    destruct (String.eqb _ _); [now left | now right]. }
  split; [exact HN|]. split; [exact HS|]. split; [|exact HN].
  destruct password as [p|]; [|reflexivity].
  intros E. destruct (HS p eq_refl) as [H | H]; rewrite H in E; discriminate E.
Qed.

Lemma unpwd_check_needs_password_witness :
  registered example_context "alice" alice_world alice_hash "s1"
  /\ unpwd_result example_context (Some "alice") None alice_world = None
  /\ unpwd_result example_context (Some "alice") (Some "") alice_world
     <> None.
Proof.
  split; [exact registered_alice|]. split.
  - apply (unpwd_check_needs_password example_context "alice" None
             alice_world alice_hash "s1" registered_alice).
    reflexivity.
  - intros E.
    apply (unpwd_check_needs_password example_context "alice" (Some "")
             alice_world alice_hash "s1" registered_alice) in E.
    discriminate E.
Defined.

End PasswordClaims.

(** * The lookup *)

Section LookupClaims.

Lemma evaluate_code (s : sqlite3_stmt) (w : world) :
  result_code (fst (evaluate s w)) <> SQLITE_OK.
Proof.
  unfold evaluate. destruct (text s); cbn; try discriminate.
  - destruct (resolves name (disk w)); [discriminate|].
    now destruct (index_named name (disk w)).
  - destruct (lookup_columns (disk w)); [|discriminate].
    destruct (param s) as [u|]; [|discriminate].
    now destruct (stored (disk w) u) as [[h v]|].
Qed.

Lemma faults_evaluate (s : sqlite3_stmt) (w : world) :
  faults (snd (evaluate s w)) = faults w.
Proof.
  unfold evaluate. destruct (text s); cbn; try reflexivity.
  - destruct (resolves name (disk w)); [reflexivity|].
    now destruct (index_named name (disk w)).
  - destruct (lookup_columns (disk w)); [|reflexivity].
    destruct (param s) as [u|]; [|reflexivity].
    now destruct (stored (disk w) u) as [[h v]|].
Qed.

Lemma reset_ready (s : sqlite3_stmt) (w : world) :
  at_ (snd (fst (sqlite3_reset s w))) = Ready.
Proof.
  unfold sqlite3_reset, bind, ret. now destruct (next_fault w).
Qed.

Lemma reset_code (s : sqlite3_stmt) (w : world) (e : error) :
  hd None (faults w) = Some e -> fst (fst (sqlite3_reset s w)) = code e.
Proof. intros H. now rewrite (reset_fault _ _ _ H). Qed.

Lemma neq_false (a b : Z) : neq a b = false -> a = b.
Proof. unfold neq. rewrite negb_false_iff. apply Z.eqb_eq. Qed.

Lemma neq_true (a b : Z) : neq a b = true -> a <> b.
Proof. unfold neq. rewrite negb_true_iff. apply Z.eqb_neq. Qed.

(** The end of a lookup: the closing reset leaves the statement ready, and
    a fault it meets is returned. *)
Lemma retrieve_password_end_exit (q : sqlite3_stmt) (h s : string)
    (w : world) :
  at_ (snd (fst (fst (fst (retrieve_password_end q h s w))))) = Ready
  /\ (forall e, hd None (faults w) = Some e ->
        fst (fst (fst (fst (retrieve_password_end q h s w)))) <> SQLITE_OK).
Proof.
  unfold retrieve_password_end, bind.
  pose proof (reset_ready q w) as Hr.
  pose proof (reset_code q w) as Hc.
  destruct (sqlite3_reset q w) as [[rc q'] w'']. cbn [fst snd] in Hr, Hc.
  destruct (neq rc SQLITE_OK) eqn:N; cbn [ret fst snd]; split;
    try exact Hr.
  - intros e He. rewrite (Hc e He). apply code_nonzero.
  - intros e He. apply neq_false in N. rewrite (Hc e He) in N.
    now apply code_nonzero in N.
Qed.

(** How a lookup ends.  When its behaviour is defined, either the
    statement is left reset, or the step has failed: then the reset and the
    bind before it met no fault, the lookup returns an error code, and the
    statement is left as the step left it; a fault met by one of the four
    calls makes the lookup return an error code.  Its behaviour is
    undefined only after a reset, a bind and a step that met no fault, and
    not on a database that serves the password query. *)
Lemma retrieve_password_exit (q : sqlite3_stmt) (u hash salt : string)
    (w : world) :
  match fst (retrieve_password q u hash 65 salt 65 w) with
  | None =>
      hd None (faults w) = None
      /\ hd None (faults (pop w)) = None
      /\ hd None (faults (pops 2 w)) = None
      /\ (is_select_hash_salt (text q) = true -> serves (disk w) = false)
  | Some (rc, q', _, _) =>
      (at_ q' = Ready
       \/ (rc <> SQLITE_OK
           /\ hd None (faults w) = None
           /\ hd None (faults (pop w)) = None
           /\ exists e,
                at_ q' = Failed e
                /\ (hd None (faults (pops 2 w)) = Some e
                    \/ (hd None (faults (pops 2 w)) = None
                        /\ fst (evaluate (Stmt (text q) (Some (c_str u)) Ready)
                                         (pops 3 w)) = Failed e))))
      /\ (forall e, hd None (faults w) = Some e
                    \/ hd None (faults (pop w)) = Some e
                    \/ hd None (faults (pops 2 w)) = Some e
                    \/ hd None (faults (pops 3 w)) = Some e ->
            rc <> SQLITE_OK)
  end.
Proof.
  unfold retrieve_password, bind.
  destruct (hd None (faults w)) as [e0|] eqn:F0.
  { rewrite (reset_fault _ _ _ F0), code_not_ok. cbn [ret fst snd].
    split; [now left|]. intros _ _. apply code_nonzero. }
  rewrite (reset_calm _ _ F0).
  destruct (neq (match at_ q with Failed e => code e | _ => SQLITE_OK end)
              SQLITE_OK) eqn:N0.
  { cbn [ret fst snd]. split; [now left|]. intros _ _. now apply neq_true. }
  destruct (hd None (faults (pop w))) as [e1|] eqn:F1.
  { rewrite (bind_fault _ _ _ _ F1), code_not_ok. cbn [ret fst snd].
    split; [now left|]. intros _ _. apply code_nonzero. }
  rewrite bind_calm by first [exact F1 | reflexivity].
  cbn [neq Z.eqb SQLITE_OK negb text with_progress].
  change (pop (pop w)) with (pops 2 w).
  destruct (hd None (faults (pops 2 w))) as [e2|] eqn:F2.
  { rewrite (step_fault _ _ _ F2), code_not_done, code_not_row.
    cbn [ret fst snd with_progress at_].
    split; [|intros _ _; apply code_nonzero].
    right. split; [apply code_nonzero|]. repeat split.
    exists e2. split; [reflexivity | now left]. }
  rewrite step_calm by first [exact F2 | reflexivity].
  change (pop (pops 2 w)) with (pops 3 w).
  set (q1 := Stmt (text q) (Some (c_str u)) Ready).
  pose proof (evaluate_code q1 (pops 3 w)) as Hcode.
  pose proof (faults_evaluate q1 (pops 3 w)) as Hfaults.
  assert (is_select_hash_salt (text q) = true -> serves (disk w) = true ->
          match fst (evaluate q1 (pops 3 w)) with
          | AtRow cols =>
              text_of (nth 0 cols Null) <> None
              /\ text_of (nth 1 cols Null) <> None
          | AtCount _ => False
          | _ => True
          end) as Hserves.
  { intros Hq Hs. destruct (text q) eqn:Et; try discriminate Hq.
    unfold q1. rewrite evaluate_select, disk_pops. cbn [fst].
    destruct (lookup_columns (disk w)); [|exact I].
    pose proof (serves_stored (disk w) (c_str u) Hs) as H.
    destruct (stored (disk w) (c_str u)) as [[h v]|]; [|exact I].
    destruct H as (ht & vt & Eh & Ev & _). cbn [nth]. rewrite Eh, Ev.
    split; discriminate. }
  destruct (evaluate q1 (pops 3 w)) as [p w'] eqn:Ev. cbn [fst snd] in *.
  assert (forall h s,
             match fst (bind (retrieve_password_end (with_progress p q1) h s)
                             (fun r => ret (Some r)) w') with
             | None => False
             | Some (rc, q', _, _) =>
                 at_ q' = Ready
                 /\ (forall e, hd None (faults (pops 3 w)) = Some e ->
                       rc <> SQLITE_OK)
             end) as Hfinish.
  { intros h s. unfold bind.
    destruct (retrieve_password_end_exit (with_progress p q1) h s w')
      as [Hr Hc]. rewrite Hfaults in Hc.
    destruct (retrieve_password_end (with_progress p q1) h s w')
      as [[[[rc q'] h'] s'] w'']. cbn [fst snd ret] in *. now split. }
  unfold bind in Hfinish.
  destruct (result_code p =? SQLITE_DONE)%Z eqn:ED.
  { specialize (Hfinish (store hash 0 NUL) (store salt 0 NUL)).
    destruct (retrieve_password_end _ _ _ w') as [[[[rc q'] h'] s'] w''].
    cbn [fst snd ret] in *. destruct Hfinish as [H1 H2].
    split; [now left|].
    intros e [He | [He | [He | He]]];
      [congruence | congruence | congruence | exact (H2 e He)]. }
  destruct (result_code p =? SQLITE_ROW)%Z eqn:ER.
  { destruct (sqlite3_column_text (with_progress p q1) 0) as [t0|] eqn:C0.
    2:{ cbn [ret fst]. do 3 (split; [reflexivity|]).
        intros Hq. destruct (serves (disk w)) eqn:Es; [|reflexivity].
        specialize (Hserves Hq eq_refl). unfold sqlite3_column_text in C0.
        cbn [at_ with_progress] in C0.
        destruct p; cbn in ER, Hserves, C0; try discriminate;
          try contradiction;
          try (rewrite code_not_row in ER; discriminate ER).
        destruct Hserves as [H _]. contradiction. }
    destruct (sqlite3_column_text (with_progress p q1) 1) as [t1|] eqn:C1.
    2:{ cbn [ret fst]. do 3 (split; [reflexivity|]).
        intros Hq. destruct (serves (disk w)) eqn:Es; [|reflexivity].
        specialize (Hserves Hq eq_refl). unfold sqlite3_column_text in C1.
        cbn [at_ with_progress] in C1.
        destruct p; cbn in ER, Hserves, C1; try discriminate;
          try contradiction;
          try (rewrite code_not_row in ER; discriminate ER).
        destruct Hserves as [_ H]. contradiction. }
    specialize (Hfinish (store (strncpy hash t0 65) (65 - 1) NUL)
                        (store (strncpy salt t1 65) (65 - 1) NUL)).
    destruct (retrieve_password_end _ _ _ w') as [[[[rc q'] h'] s'] w''].
    cbn [fst snd ret] in *. destruct Hfinish as [H1 H2].
    split; [now left|].
    intros e [He | [He | [He | He]]];
      [congruence | congruence | congruence | exact (H2 e He)]. }
  cbn [ret fst snd with_progress at_].
  split; [|intros _ _; exact Hcode].
  destruct p as [| n | cols | | e]; cbn in ED, ER, Hcode;
    try discriminate; try contradiction.
  right. split; [exact Hcode|]. repeat split.
  exists e. split; [reflexivity | now right].
Qed.

Lemma faults_pops (n : nat) (w : world) :
  faults (pops n w) = skipn n (faults w).
Proof.
  revert w. induction n as [|n IH]; intros w; [reflexivity|].
  cbn [pops]. rewrite IH. unfold pop. cbn [faults with_faults].
  destruct (faults w); [now destruct n | reflexivity].
Qed.

(** A fault in one of the four calls of the lookup makes it fail, when
    its behaviour is defined, as it is when the fault is met before the
    last call. *)
Lemma retrieve_code_fault (q : sqlite3_stmt) (u hash salt : string)
    (w : world) (k : nat) (e : error) (rest : list (option error)) :
  (k < 4)%nat -> faults w = (repeat None k ++ Some e :: rest)%list ->
  (k < 3)%nat \/ retrieve_code q u hash salt w <> None ->
  exists rc, retrieve_code q u hash salt w = Some rc /\ rc <> SQLITE_OK.
Proof.
  intros Hk Hf Hd. unfold retrieve_code in *.
  pose proof (retrieve_password_exit q u hash salt w) as H.
  change (pop w) with (pops 1 w) in H.
  change (faults w) with (faults (pops 0 w)) in H.
  rewrite !faults_pops, Hf in H.
  destruct (fst (retrieve_password q u hash 65 salt 65 w))
    as [[[[rc q'] h'] s']|]; cbn [option_map fst] in *.
  - exists rc. split; [reflexivity|]. apply (proj2 H e).
    destruct k as [|[|[|[|k]]]]; cbn; try lia; tauto.
  - destruct Hd as [Hd | Hd]; [|now contradiction Hd].
    destruct H as (H0 & H1 & H2 & _).
    destruct k as [|[|[|k]]]; cbn in H0, H1, H2; try discriminate; lia.
Qed.

(** On a database that serves the password query the behaviour of the
    lookup is defined, whatever the faults. *)
Lemma lookup_defined (context : Context) (u : string) (w : world) :
  is_select_hash_salt (text (passquery context)) = true ->
  serves (disk w) = true ->
  lookup_code context u w <> None.
Proof.
  intros Hq Hs. unfold lookup_code, retrieve_code.
  pose proof (retrieve_password_exit (passquery context) u
                (indeterminate w 65 65) (indeterminate w 130 65) w) as H.
  destruct (fst (retrieve_password _ _ _ _ _ _ _)); [discriminate|].
  destruct H as (_ & _ & _ & H). rewrite (H Hq) in Hs. discriminate Hs.
Qed.

(** C7.  When the lookup fails, that is, when it returns a code other than
    [SQLITE_OK], as it does when its reset, its bind, its step or its last
    reset meets a fault, [unpwd_check] returns [MOSQ_ERR_UNKNOWN], which is
    neither [MOSQ_ERR_SUCCESS] nor [MOSQ_ERR_AUTH]; and it returns
    [MOSQ_ERR_UNKNOWN] in no other case: a lookup that goes through and
    finds no row returns [SQLITE_OK], and the check then allows or
    denies.  (A fault of the last reset is met only if the lookup gets
    there, that is, unless it has stopped at a row that holds [NULL],
    where its behaviour is undefined; with the password query on a
    database that serves it, it always gets there.) *)
Theorem unpwd_check_store_error (context : Context) (u : string)
    (password : option string) (w : world) :
  let result := unpwd_result context (Some u) password w in
  (result = Some MOSQ_ERR_UNKNOWN <-> lookup_fails context u w)
  /\ (MOSQ_ERR_UNKNOWN <> MOSQ_ERR_SUCCESS /\ MOSQ_ERR_UNKNOWN <> MOSQ_ERR_AUTH)
  /\ (forall k e rest,
        (k < 4)%nat -> faults w = (repeat None k ++ Some e :: rest)%list ->
        (k < 3)%nat \/ lookup_code context u w <> None ->
        result = Some MOSQ_ERR_UNKNOWN)
  /\ (is_select_hash_salt (text (passquery context)) = true ->
      serves (disk w) = true -> lookup_code context u w <> None)
  /\ (lookup_works context w = true ->
      credential (disk w) (c_str u) = None ->
      lookup_code context u w = Some SQLITE_OK
      /\ (result = Some MOSQ_ERR_SUCCESS \/ result = Some MOSQ_ERR_AUTH)).
Proof.
  intros result. split; [apply unpwd_check_unknown|].
  split; [split; discriminate|]. split; [|split].
  - intros k e rest Hk Hf Hd. apply unpwd_check_unknown.
    now apply (retrieve_code_fault _ _ _ _ _ k e rest).
  - apply lookup_defined.
  - intros Hw Hc. split.
    + unfold lookup_works in Hw. rewrite !andb_true_iff in Hw.
      destruct Hw as [[[Hq Hf] Ht] Hw]. apply negb_true_iff in Hf.
      unfold lookup_code, retrieve_code.
      now rewrite retrieve_password_calm by assumption.
    + unfold result. rewrite (unpwd_check_calm _ _ _ _ Hw), Hc.
      destruct (guest_rule context password); [now left | now right].
Qed.

(** A busy database at the step of the lookup gives the indeterminate
    outcome, and so does one at its last reset; an unknown user in a world
    without faults is denied, not reported as an error. *)
Lemma unpwd_check_store_error_witness :
  unpwd_result example_context (Some "alice") (Some "hunter2") busy_world
  = Some MOSQ_ERR_UNKNOWN
  /\ unpwd_result example_context (Some "alice") (Some "hunter2")
       (world_of (accounts [["alice"; alice_hash; "s1"]])
                 [None; None; None; Some SQLITE_BUSY])
     = Some MOSQ_ERR_UNKNOWN
  /\ unpwd_result example_context (Some "nobody") (Some "x") alice_world
     = Some MOSQ_ERR_AUTH.
Proof.
  split; [|split].
  - destruct (unpwd_check_store_error example_context "alice"
                (Some "hunter2") busy_world) as (_ & _ & H & _).
    apply (H 2%nat SQLITE_BUSY []); [lia | reflexivity | left; lia].
  - destruct (unpwd_check_store_error example_context "alice"
                (Some "hunter2")
                (world_of (accounts [["alice"; alice_hash; "s1"]])
                          [None; None; None; Some SQLITE_BUSY]))
      as (_ & _ & H & _).
    apply (H 3%nat SQLITE_BUSY []); [lia | reflexivity | right].
    discriminate.
  - destruct (unpwd_check_store_error example_context "nobody"
                (Some "x") alice_world) as (_ & _ & _ & _ & H).
    destruct (H eq_refl eq_refl) as [_ [E | E]]; [|exact E].
    vm_compute in E. discriminate E.
Defined.

(** C9.  The defect, at an input.  The step of the lookup for [alice]
    meets a busy database.  The lookup returns [SQLITE_BUSY] from its last
    [else] without the reset that the two sibling branches go on to: the
    compiled query is left with the failure on it, not reset, while the
    same lookup without the fault, for a user that is found and for one
    that is not, leaves it reset.  The check that follows, which meets no
    fault, is then cancelled with [MOSQ_ERR_UNKNOWN] by its opening reset,
    although the password is right; the one after it is answered. *)
Lemma retrieve_password_step_failure :
  lookup_leaves example_query "alice"
    (replicate 65 "?") (replicate 65 "?") busy_world
  = Some (Stmt select_hash_salt (Some "alice") (Failed SQLITE_BUSY))
  /\ retrieve_code example_query "alice"
       (replicate 65 "?") (replicate 65 "?") busy_world
     = Some (code SQLITE_BUSY)
  /\ lookup_leaves example_query "alice"
       (replicate 65 "?") (replicate 65 "?") alice_world
     = Some (Stmt select_hash_salt (Some "alice") Ready)
  /\ lookup_leaves example_query "nobody"
       (replicate 65 "?") (replicate 65 "?") alice_world
     = Some (Stmt select_hash_salt (Some "nobody") Ready)
  /\ (let first := mosquitto_auth_unpwd_check example_context
                     (Some "alice") (Some "hunter2") busy_world in
      let second := mosquitto_auth_unpwd_check (snd (fst first))
                      (Some "alice") (Some "hunter2") (snd first) in
      let third := mosquitto_auth_unpwd_check (snd (fst second))
                     (Some "alice") (Some "hunter2") (snd second) in
      fst (fst first) = Some MOSQ_ERR_UNKNOWN
      /\ faults (snd first) = []
      /\ fst (fst second) = Some MOSQ_ERR_UNKNOWN
      /\ fst (fst third) = Some MOSQ_ERR_SUCCESS).
Proof. vm_compute. repeat split. Qed.

(** X20.  Every exit of the lookup but one leaves the compiled query
    reset.  The lookup resets the query before it uses it, so that a query
    whose last step did not fail may come in any state; and whenever it
    returns, with [SQLITE_OK] or with the error of its opening reset, of
    its bind or of its closing reset, the query is left ready.  The one
    exception is a failure of the step, by a fault or because the query
    has stopped to compile on the database: then, and only then, the query
    is left with the failure on it. *)
Theorem retrieve_password_resets (q q' : sqlite3_stmt)
    (u hash salt h' s' : string) (rc : Z) (w : world) :
  fst (retrieve_password q u hash 65 salt 65 w) = Some (rc, q', h', s') ->
  (failed (at_ q) = false ->
   retrieve_password q u hash 65 salt 65 w
   = retrieve_password (with_progress Ready q) u hash 65 salt 65 w)
  /\ (rc = SQLITE_OK -> at_ q' = Ready)
  /\ (forall e, hd None (faults w) = Some e
                \/ hd None (faults (pop w)) = Some e -> at_ q' = Ready)
  /\ (at_ q' <> Ready ->
      rc <> SQLITE_OK
      /\ hd None (faults w) = None
      /\ hd None (faults (pop w)) = None
      /\ exists e,
           at_ q' = Failed e
           /\ (hd None (faults (pops 2 w)) = Some e
               \/ (hd None (faults (pops 2 w)) = None
                   /\ fst (evaluate (Stmt (text q) (Some (c_str u)) Ready)
                                    (pops 3 w)) = Failed e)))
  /\ (hd None (faults w) = None -> hd None (faults (pop w)) = None ->
      hd None (faults (pops 2 w)) = None ->
      failed (fst (evaluate (Stmt (text q) (Some (c_str u)) Ready)
                            (pops 3 w))) = false ->
      at_ q' = Ready).
Proof.
  intros E.
  pose proof (retrieve_password_exit q u hash salt w) as H.
  rewrite E in H. destruct H as [Hexit _].
  split; [|split; [|split; [|split]]].
  - intros Hf. unfold retrieve_password, sqlite3_reset, bind, ret.
    destruct (next_fault w) as [[e|] w']; [reflexivity|].
    destruct q as [t pa st]. cbn [at_ with_progress text param] in *.
    now destruct st.
  - intros Ec. destruct Hexit as [H | (H & _)]; [exact H | contradiction].
  - intros e He. destruct Hexit as [H | (_ & H0 & H1 & _)]; [exact H|].
    destruct He as [He | He]; congruence.
  - intros Hn. destruct Hexit as [H | H]; [contradiction | exact H].
  - intros H0 H1 H2 Hf.
    destruct Hexit as [H | (_ & _ & _ & e & _ & [He | [_ He]])];
      [exact H | congruence |]. rewrite He in Hf. discriminate Hf.
Qed.

(** A lookup whose closing reset meets a busy database returns the error
    and leaves the query ready. *)
Lemma retrieve_password_resets_witness :
  retrieve_code (with_progress Done example_query) "alice"
    (replicate 65 "?") (replicate 65 "?")
    (world_of (accounts [["alice"; alice_hash; "s1"]])
              [None; None; None; Some SQLITE_BUSY])
  = Some (code SQLITE_BUSY)
  /\ at_ (Stmt select_hash_salt (Some "alice") Ready) = Ready.
Proof.
  split; [reflexivity|].
  destruct (retrieve_password_resets (with_progress Done example_query)
              (Stmt select_hash_salt (Some "alice") Ready)
              "alice" (replicate 65 "?") (replicate 65 "?")
              (store (strncpy (replicate 65 "?") alice_hash 65) 64 NUL)
              (store (strncpy (replicate 65 "?") "s1" 65) 64 NUL)
              (code SQLITE_BUSY)
              (world_of (accounts [["alice"; alice_hash; "s1"]])
                        [None; None; None; Some SQLITE_BUSY])
              eq_refl) as (_ & _ & _ & _ & H).
  exact (H eq_refl eq_refl eq_refl eq_refl).
Defined.

End LookupClaims.

(** * Further properties of the access-control check *)

Section AccessControlMore.

(** X1.  Identity binding: for a username that is not the superuser, a
    client identifier that is another C string is denied, for every topic,
    an absent one included, and every kind of access. *)
Theorem acl_check_identity_binding (context : Context) (cid u : string)
    (topic : option string) (access : Z) (w : world) :
  (forall su, superuser context = Some su -> c_str su <> c_str u) ->
  c_str cid <> c_str u ->
  acl_result context (Some cid) (Some u) topic access w
  = Some MOSQ_ERR_ACL_DENIED.
Proof.
  intros Hsu Hcid. unfold acl_result, mosquitto_auth_acl_check.
  assert (match superuser context with
          | Some su => (strcmp su u =? 0)%Z
          | None => false
          end = false) as ->.
  { destruct (superuser context) as [su|]; [|reflexivity].
    rewrite strcmp_eqb. apply String.eqb_neq. now apply Hsu. }
  rewrite neq_strcmp. apply String.eqb_neq in Hcid. now rewrite Hcid.
Qed.

Lemma acl_check_identity_binding_witness :
  (forall su, superuser example_context = Some su -> c_str su <> c_str "v")
  /\ c_str "u" <> c_str "v"
  /\ acl_result example_context (Some "u") (Some "v") (Some "v/x")
       MOSQ_ACL_READ example_world = Some MOSQ_ERR_ACL_DENIED
  /\ acl_result example_context (Some "u") (Some "v") None
       MOSQ_ACL_WRITE example_world = Some MOSQ_ERR_ACL_DENIED.
Proof.
  assert (forall su, superuser example_context = Some su ->
                     c_str su <> c_str "v") as Hsu.
  { intros su E. injection E as <-. discriminate. }
  assert (c_str "u" <> c_str "v") as Hn by discriminate.
  split; [exact Hsu|]. split; [exact Hn|]. split.
  - exact (acl_check_identity_binding example_context "u" "v" (Some "v/x")
             MOSQ_ACL_READ example_world Hsu Hn).
  - exact (acl_check_identity_binding example_context "u" "v" None
             MOSQ_ACL_WRITE example_world Hsu Hn).
Defined.

(** X2.  The check returns [MOSQ_ERR_SUCCESS] or [MOSQ_ERR_ACL_DENIED] and
    no other code; its behaviour is undefined in exactly one case: an
    absent topic, for a present username that is not the superuser and a
    present client identifier equal to it, where the code takes the length
    of the topic. *)
Theorem acl_check_defined (context : Context)
    (cid u topic : option string) (access : Z) (w : world) :
  let result := acl_result context cid u topic access w in
  (result = None <->
   exists c n, cid = Some c /\ u = Some n /\ topic = None
               /\ (forall su, superuser context = Some su ->
                              c_str su <> c_str n)
               /\ c_str c = c_str n)
  /\ (result = None \/ result = Some MOSQ_ERR_SUCCESS
      \/ result = Some MOSQ_ERR_ACL_DENIED).
Proof.
  intros result. unfold result, acl_result, mosquitto_auth_acl_check.
  destruct cid as [c|], u as [n|];
    try (split; [split; [discriminate
                        | intros (c' & n' & H1 & H2 & _); discriminate]
                | right; right; reflexivity]).
  destruct (match superuser context with
            | Some su => (strcmp su n =? 0)%Z
            | None => false
            end) eqn:Esu.
  { split; [|right; left; reflexivity].
    split; [discriminate|].
    intros (c' & n' & H1 & H2 & _ & Hs & _).
    injection H2 as <-. destruct (superuser context) as [su|];
      [|discriminate Esu].
    rewrite strcmp_eqb in Esu. apply String.eqb_eq in Esu.
    now apply (Hs su) in Esu. }
  assert (forall su, superuser context = Some su -> c_str su <> c_str n)
    as Hsu.
  { intros su E. rewrite E, strcmp_eqb in Esu. now apply String.eqb_neq. }
  rewrite neq_strcmp.
  destruct (String.eqb (c_str c) (c_str n)) eqn:Ecid; cbn [negb].
  - apply String.eqb_eq in Ecid. destruct topic as [t|].
    + split.
      * split.
        -- destruct (strlen t <? strlen n + 2)%nat; [discriminate|].
           destruct (acl_loop _ _ _ _); [|discriminate].
           destruct (negb _); discriminate.
        -- intros (c' & n' & _ & _ & H & _). discriminate H.
      * destruct (strlen t <? strlen n + 2)%nat; [now right; right|].
        destruct (acl_loop _ _ _ _); [|now right; right].
        destruct (negb _); [now right; right | now right; left].
    + split; [|now left]. split; [|reflexivity].
      intros _. exists c, n. repeat split; assumption.
  - apply String.eqb_neq in Ecid. split; [|now right; right].
    split; [discriminate|].
    intros (c' & n' & H1 & H2 & _ & _ & H).
    injection H1 as <-. injection H2 as <-. contradiction.
Qed.

(** X3.  The check reads nothing of the world and changes nothing but the
    log, to which it adds at most one message, at notice level; the kind of
    access does not enter the decision, and an Allow logs nothing. *)
Theorem acl_check_effects (context : Context)
    (cid u topic : option string) (access : Z) (w : world) :
  let w' := snd (mosquitto_auth_acl_check context cid u topic access w) in
  (w' = w \/ exists msg, w' = with_log (log w ++ [(MOSQ_LOG_NOTICE, msg)])%list w)
  /\ (acl_result context cid u topic access w = Some MOSQ_ERR_SUCCESS ->
      w' = w)
  /\ (forall access' w2,
        acl_result context cid u topic access' w2
        = acl_result context cid u topic access w).
Proof.
  cbv zeta. unfold acl_result, mosquitto_auth_acl_check.
  destruct cid as [c|], u as [n|];
    try (split; [right; eexists; reflexivity
                | split; [discriminate | reflexivity]]).
  destruct (match superuser context with
            | Some su => (strcmp su n =? 0)%Z
            | None => false
            end).
  { split; [now left|]. split; reflexivity. }
  destruct (neq (strcmp c n) 0).
  { split; [right; eexists; reflexivity|]. split; [discriminate|reflexivity]. }
  destruct topic as [t|].
  - destruct (strlen t <? strlen n + 2)%nat;
      [split; [now left | split; reflexivity]|].
    destruct (acl_loop _ _ _ _);
      [|split; [now left | split; reflexivity]].
    destruct (negb _); split; try (now left); split; reflexivity.
  - split; [now left|]. split; reflexivity.
Qed.

End AccessControlMore.

(** * The options of the plugin *)

Section Options.

Lemma read_option_fields (a b c : option string) (k v : string) :
  read_option (a, b, c) (k, v)
  = (if String.eqb (c_str k) "db_file" then Some v else a,
     if String.eqb (c_str k) "superuser" then Some (c_str v) else b,
     if String.eqb (c_str k) "guest_secret" then Some (c_str v) else c).
Proof.
  unfold read_option. rewrite !strcmp_eqb, !take_strlen.
  change (c_str "db_file") with "db_file".
  change (c_str "superuser") with "superuser".
  change (c_str "guest_secret") with "guest_secret".
  destruct (String.eqb (c_str k) "db_file") eqn:E1.
  { apply String.eqb_eq in E1. now rewrite E1. }
  destruct (String.eqb (c_str k) "superuser") eqn:E2.
  { apply String.eqb_eq in E2. now rewrite E2. }
  now destruct (String.eqb (c_str k) "guest_secret").
Qed.

Lemma last_value_app (key k v : string) (opts : list (string * string)) :
  last_value key (opts ++ [(k, v)])
  = if String.eqb (c_str k) key then Some v else last_value key opts.
Proof.
  induction opts as [|[k' v'] opts IH]; cbn [app last_value].
  - reflexivity.
  - rewrite IH. destruct (String.eqb (c_str k) key); [reflexivity|].
    reflexivity.
Qed.

Lemma read_options_values (auth_opts : list (string * string)) :
  read_options auth_opts
  = (last_value "db_file" auth_opts,
     option_map c_str (last_value "superuser" auth_opts),
     option_map c_str (last_value "guest_secret" auth_opts)).
Proof.
  unfold read_options.
  induction auth_opts as [|[k v] opts IH] using rev_ind; [reflexivity|].
  rewrite fold_left_app. cbn [fold_left]. rewrite IH, read_option_fields.
  rewrite !last_value_app.
  destruct (String.eqb (c_str k) "db_file"),
           (String.eqb (c_str k) "superuser"),
           (String.eqb (c_str k) "guest_secret"); reflexivity.
Qed.

(** X4.  The loop over the options keeps, for each of the three keys it
    knows, the value of the last option with that key, keys being compared
    as C strings; options with any other key change nothing.  The database
    file name is kept as the pointer given, the superuser and the guest
    secret as copies of the C strings, which therefore hold no NUL. *)
Theorem read_options_last (auth_opts : list (string * string)) :
  read_options auth_opts
  = (last_value "db_file" auth_opts,
     option_map c_str (last_value "superuser" auth_opts),
     option_map c_str (last_value "guest_secret" auth_opts))
  /\ (forall su, snd (fst (read_options auth_opts)) = Some su ->
                 no_nul su = true)
  /\ (forall secret, snd (read_options auth_opts) = Some secret ->
                     no_nul secret = true).
Proof.
  split; [apply read_options_values|].
  rewrite read_options_values. cbn [fst snd]. split.
  - intros su H. destruct (last_value "superuser" auth_opts);
      [|discriminate]. injection H as <-. apply no_nul_c_str.
  - intros s H. destruct (last_value "guest_secret" auth_opts);
      [|discriminate]. injection H as <-. apply no_nul_c_str.
Qed.

End Options.

(** * The helpers that run one statement *)

Section Statements.

Lemma first_fault_three (w : world) :
  first_fault 3 (faults w)
  = match hd None (faults w) with
    | Some e => Some e
    | None =>
        match hd None (faults (pop w)) with
        | Some e => Some e
        | None => hd None (faults (pops 2 w))
        end
    end.
Proof.
  destruct w as [d fk fs l s a].
  destruct fs as [|[e|] [|[e'|] [|[e''|] fs]]]; reflexivity.
Qed.

Lemma first_fault_two (w : world) :
  first_fault 2 (faults w)
  = match hd None (faults w) with
    | Some e => Some e
    | None => hd None (faults (pop w))
    end.
Proof.
  destruct w as [d fk fs l s a].
  destruct fs as [|[e|] [|[e'|] fs]]; reflexivity.
Qed.

Lemma first_fault_quiet (n : nat) (w : world) :
  first_fault n (faults w) = None <-> quiet n w = true.
Proof.
  unfold quiet. generalize (faults w) as fs.
  induction n as [|n IH]; intros fs; [now split|].
  destruct fs as [|[e|] fs]; cbn [first_fault firstn forallb is_none andb].
  - now split.
  - now split.
  - apply IH.
Qed.

(** X8.  [sql_exec_single_int] on the query that counts the tables of a
    name: it returns the code of the first of its three calls into SQLite
    that fails, and [SQLITE_OK] when none does; the integer is written once
    the statement is prepared and stepped, and is then the count, also when
    the finalization fails after it; it is left as it was otherwise.  The
    database is not changed.  A statement that compiles and yields no row
    makes the call return [SQLITE_DONE], one that does not compile
    [SQLITE_ERROR], the integer untouched. *)
Theorem sql_exec_single_int_result (db : sqlite3) (name : string)
    (result : Z) (w : world) :
  let r := sql_exec_single_int db (select_count_table name) result w in
  fst (fst r) = match first_fault 3 (faults w) with
                | Some e => code e
                | None => SQLITE_OK
                end
  /\ snd (fst r) = match first_fault 2 (faults w) with
                   | Some _ => result
                   | None => count_tables name (disk w)
                   end
  /\ disk (snd r) = disk w
  /\ (forall q, counts q = false -> prepares q (disk w) = true ->
      fst (sql_exec_single_int db q result (with_faults [] w))
      = (SQLITE_DONE, result))
  /\ (forall q, prepares q (disk w) = false ->
      fst (sql_exec_single_int db q result (with_faults [] w))
      = (code SQLITE_ERROR, result)).
Proof.
  cbv zeta.
  assert (forall q, prepares q (disk w) = false ->
            fst (sql_exec_single_int db q result (with_faults [] w))
            = (code SQLITE_ERROR, result)) as He.
  { intros q Hp. destruct w as [d fk fs l s a]. cbn [disk] in Hp.
    unfold sql_exec_single_int, sqlite3_prepare_v2, sqlite3_finalize,
      bind, ret, next_fault.
    cbv [faults with_faults disk foreign_keys log char_is_signed automatic].
    rewrite Hp. now rewrite code_not_ok. }
  assert (forall q, counts q = false -> prepares q (disk w) = true ->
            fst (sql_exec_single_int db q result (with_faults [] w))
            = (SQLITE_DONE, result)) as Hd.
  { intros q Hc Hp. destruct w as [d fk fs l s a]. cbn [disk] in Hp.
    unfold sql_exec_single_int, sqlite3_prepare_v2, sqlite3_step_at,
      sqlite3_step, sqlite3_finalize, bind, ret, next_fault, evaluate.
    cbv [faults with_faults disk foreign_keys log char_is_signed automatic
         text param at_].
    rewrite Hp. cbv [neq Z.eqb SQLITE_OK negb].
    destruct q as [|n|n defn|]; try discriminate Hc; cbn [prepares] in Hp.
    - reflexivity.
    - destruct (resolves n d); [reflexivity|].
      cbn [orb] in Hp. apply negb_true_iff in Hp. now rewrite Hp.
    - now destruct (lookup_columns d). }
  rewrite sql_exec_single_int_count, first_fault_three, first_fault_two.
  destruct (hd None (faults w)) as [e|];
    [repeat split; try reflexivity; first [exact Hd | exact He]|].
  destruct (hd None (faults (pop w))) as [e|].
  { repeat split;
      first [reflexivity | exact Hd | exact He | apply disk_pops]. }
  cbn [fst snd].
  repeat split; first [exact Hd | exact He | apply disk_pops
                      | now destruct (hd None (faults (pops 2 w)))].
Qed.

Lemma evaluate_runs (s : sqlite3_stmt) (w : world) :
  prepares (text s) (disk w) = true ->
  faults (snd (evaluate s w)) = faults w
  /\ failed (fst (evaluate s w)) = false
  /\ neq (result_code (fst (evaluate s w))) SQLITE_DONE
     && neq (result_code (fst (evaluate s w))) SQLITE_ROW = false.
Proof.
  unfold evaluate, prepares. destruct (text s) as [|name|name defn|].
  - repeat split.
  - repeat split.
  - intros Hq. destruct (resolves name (disk w)); [repeat split|].
    cbn [orb] in Hq. apply negb_true_iff in Hq. rewrite Hq. repeat split.
  - intros Hq. destruct (lookup_columns (disk w)); [|discriminate Hq].
    destruct (param s) as [u|]; [|repeat split].
    destruct (stored (disk w) u) as [[h v]|]; repeat split.
Qed.

(** X9.  For a statement that compiles on the database, [sql_exec_void]
    returns the code of the first of its three calls into SQLite that
    fails, and [SQLITE_OK] when none does, whether the statement yields a
    row or not.  The statement takes effect exactly when
    it is prepared and stepped, also when its finalization then fails and
    an error is returned; a statement that was not prepared is not
    finalized through SQLite.  A statement that does not compile makes the
    call return the error of the preparation, [SQLITE_ERROR] when no fault
    hides it, after that one call and without any effect. *)
Theorem sql_exec_void_result (db : sqlite3) (q : sql) (w : world) :
  let r := sql_exec_void db q w in
  (prepares q (disk w) = true ->
   fst r = match first_fault 3 (faults w) with
           | Some e => code e
           | None => SQLITE_OK
           end
   /\ snd r = match hd None (faults w) with
              | Some _ => pop w
              | None =>
                  match hd None (faults (pop w)) with
                  | Some _ => pops 3 w
                  | None =>
                      pop (snd (evaluate (Stmt q None Ready) (pops 2 w)))
                  end
              end)
  /\ (prepares q (disk w) = false ->
      fst r = match hd None (faults w) with
              | Some e => code e
              | None => code SQLITE_ERROR
              end
      /\ snd r = pop w).
Proof.
  cbv zeta. split.
  2:{ intros Hq.
      unfold sql_exec_void, sqlite3_prepare_v2, sqlite3_finalize, bind, ret.
      rewrite next_fault_pop. destruct (hd None (faults w)) as [e|].
      - rewrite code_not_ok. split; reflexivity.
      - change (disk (pop w)) with (disk w). rewrite Hq.
        rewrite code_not_ok. split; reflexivity. }
  intros Hq. rewrite first_fault_three.
  unfold sql_exec_void, sqlite3_prepare_v2, sqlite3_step_at, sqlite3_step,
    sqlite3_finalize, bind, ret. cbn [pops].
  rewrite next_fault_pop. destruct (hd None (faults w)) as [e|].
  { rewrite code_not_ok. split; reflexivity. }
  change (disk (pop w)) with (disk w). rewrite Hq.
  cbn [neq Z.eqb SQLITE_OK negb at_]. rewrite next_fault_pop.
  destruct (hd None (faults (pop w))) as [e|].
  { rewrite neq_code_done, neq_code_row. cbn [andb].
    rewrite next_fault_pop. split; reflexivity. }
  destruct (evaluate_runs (Stmt q None Ready) (pop (pop w)) Hq)
    as (Hf & Hp & Hrc).
  destruct (evaluate (Stmt q None Ready) (pop (pop w))) as [p w'].
  cbn [fst snd] in Hf, Hp, Hrc. rewrite Hrc.
  rewrite next_fault_pop, Hf. cbn [fst snd with_progress at_].
  destruct (hd None (faults (pop (pop w)))) as [e|].
  - rewrite code_not_ok. split; reflexivity.
  - destruct p; try discriminate Hp; split; reflexivity.
Qed.

Lemma sql_exec_void_result_witness :
  fst (sql_exec_void connection select_hash_salt alice_world) = SQLITE_OK
  /\ fst (sql_exec_void connection pragma_foreign_keys_on busy_world)
     = code SQLITE_BUSY
  /\ foreign_keys (snd (sql_exec_void connection pragma_foreign_keys_on
                          busy_world)) = true
  /\ fst (sql_exec_void connection select_hash_salt foreign_world)
     = code SQLITE_ERROR.
Proof.
  split; [|split; [|split]].
  - destruct (sql_exec_void_result connection select_hash_salt alice_world)
      as [H _]. destruct (H eq_refl) as [H1 _]. exact H1.
  - destruct (sql_exec_void_result connection pragma_foreign_keys_on
                busy_world) as [H _]. destruct (H eq_refl) as [H1 _].
    exact H1.
  - destruct (sql_exec_void_result connection pragma_foreign_keys_on
                busy_world) as [H _]. destruct (H eq_refl) as [_ H1].
    rewrite H1. reflexivity.
  - destruct (sql_exec_void_result connection select_hash_salt foreign_world)
      as [_ H]. destruct (H eq_refl) as [H1 _]. exact H1.
Defined.

End Statements.

(** * Creating a table *)

Section Tables.

Lemma first_fault_next (n : nat) (w : world) :
  first_fault (S n) (faults w)
  = match hd None (faults w) with
    | Some e => Some e
    | None => first_fault n (faults (pop w))
    end.
Proof.
  destruct w as [d fk fs l s a]. destruct fs as [|[e|] fs]; try reflexivity.
  now destruct n.
Qed.

Lemma has_table_resolves (name : string) (d : database) :
  has_table name d = true -> resolves name d = true.
Proof.
  unfold has_table, resolves. intros Hn.
  apply existsb_exists in Hn. destruct Hn as (entry & Hin & He).
  apply existsb_exists. exists entry. split; [exact Hin|].
  unfold listed, is_table, named in He. unfold answers, is_index, same_name.
  apply andb_true_iff in He. destruct He as [Hk He].
  apply String.eqb_eq in He. rewrite He, String.eqb_refl.
  now destruct (kind_of (snd entry)).
Qed.

Lemma has_table_occupied (name : string) (d : database) :
  has_table name d = true -> occupied name d = true.
Proof.
  intros H. unfold occupied. now rewrite (has_table_resolves _ _ H).
Qed.

Lemma ensure_present (name defn : string) (d : database) :
  occupied name d = true -> ensure name defn d = d.
Proof. unfold ensure. now intros ->. Qed.

Lemma ensure_absent (name defn : string) (d : database) :
  occupied name d = false ->
  ensure name defn d = (d ++ [(name, Table defn [])])%list.
Proof. unfold ensure. now intros ->. Qed.

Lemma resolves_ensure (name defn : string) (d : database) :
  resolves name d || negb (index_named name d) = true ->
  resolves name (ensure name defn d) = true.
Proof.
  unfold ensure, occupied. intros H.
  destruct (resolves name d) eqn:Er; [exact Er|].
  destruct (index_named name d); [discriminate H|].
  apply resolves_added.
Qed.

Ltac settle :=
  cbn [fst snd] in *;
  try match goal with
      | H : code ?e = _ |- _ => destruct (code_not_success e); contradiction
      | H : Some _ = None |- _ => discriminate H
      | H : NOTREQUIRED = SUCCESS |- _ => cbv in H; discriminate H
      | H : SUCCESS = NOTREQUIRED |- _ => cbv in H; discriminate H
      | H : true = false |- _ => discriminate H
      | H : false = true |- _ => discriminate H
      end;
  first [reflexivity | assumption | now left | now right].

(** [create_table] once its count has gone through and found no table of
    the name. *)
Lemma create_table_missing (db : sqlite3) (name defn : string) (w : world) :
  first_fault 3 (faults w) = None -> has_table name (disk w) = false ->
  create_table db name defn w
  = match hd None (faults (pops 3 w)) with
    | Some e => (code e, pops 4 w)
    | None =>
        if prepares (create_table_if_not_exists name defn) (disk w) then
          match hd None (faults (pops 4 w)) with
          | Some e => (code e, pops 6 w)
          | None =>
              (match hd None (faults (pops 5 w)) with
               | Some e => code e
               | None => SUCCESS
               end,
               with_disk (ensure name defn (disk w)) (pops 6 w))
          end
        else (code SQLITE_ERROR, pops 4 w)
    end.
Proof.
  intros Hf Et. rewrite create_table_cases.
  rewrite first_fault_three in Hf. cbn [pops] in *.
  destruct (hd None (faults w)) as [e|]; [discriminate Hf|].
  destruct (hd None (faults (pop w))) as [e|]; [discriminate Hf|].
  rewrite Hf, Et. cbv zeta. rewrite sql_exec_void_create. cbn [pops prepares].
  change (disk (pop (pop (pop w)))) with (disk w).
  destruct (hd None (faults (pop (pop (pop w))))) as [e|];
    [cbn [fst snd]; now rewrite code_not_ok|].
  destruct (resolves name (disk w) || negb (index_named name (disk w)));
    [|cbn [fst snd]; now rewrite code_not_ok].
  destruct (hd None (faults (pop (pop (pop (pop w)))))) as [e|];
    [cbn [fst snd]; now rewrite code_not_ok|].
  cbn [fst snd]. unfold ensure.
  destruct (hd None (faults (pop (pop (pop (pop (pop w))))))) as [e|];
    [rewrite code_not_ok | change (neq SQLITE_OK SQLITE_OK) with false];
    cbv iota; (destruct (occupied name (disk w)); [|reflexivity]);
    now destruct w.
Qed.

Lemma create_table_fault (db : sqlite3) (name defn : string) (w : world)
    (e : error) :
  first_fault 3 (faults w) = Some e ->
  fst (create_table db name defn w) = code e
  /\ disk (snd (create_table db name defn w)) = disk w.
Proof.
  intros Ef. rewrite create_table_cases.
  rewrite first_fault_three in Ef. cbn [pops] in *.
  destruct (hd None (faults w)) as [e0|];
    [injection Ef as ->; now split|].
  destruct (hd None (faults (pop w))) as [e0|];
    [injection Ef as ->; now split|].
  rewrite Ef. now split.
Qed.

Lemma create_table_found (db : sqlite3) (name defn : string) (w : world) :
  first_fault 3 (faults w) = None -> has_table name (disk w) = true ->
  create_table db name defn w = (NOTREQUIRED, pops 3 w).
Proof.
  intros Ef Et. rewrite create_table_cases.
  rewrite first_fault_three in Ef. cbn [pops] in *.
  destruct (hd None (faults w)) as [e|]; [discriminate Ef|].
  destruct (hd None (faults (pop w))) as [e|]; [discriminate Ef|].
  now rewrite Ef, Et.
Qed.

(** What a call of [create_table] does to the database, whatever the
    faults: nothing, or the statement that creates the table has run; and
    it has run, or had nothing to do, when the call reports no error. *)
Lemma create_table_step (db : sqlite3) (name defn : string) (w : world) :
  let r := create_table db name defn w in
  (disk (snd r) = disk w \/ disk (snd r) = ensure name defn (disk w))
  /\ (created (fst r) -> disk (snd r) = ensure name defn (disk w)).
Proof.
  cbv zeta. unfold created.
  destruct (first_fault 3 (faults w)) as [e0|] eqn:Ef.
  { destruct (create_table_fault db name defn w e0 Ef) as [Hc Hd].
    rewrite Hc, Hd. split; [now left | intros [H|H]; settle]. }
  destruct (has_table name (disk w)) eqn:Et.
  { rewrite (create_table_found _ _ _ _ Ef Et).
    rewrite (ensure_present _ _ _ (has_table_occupied _ _ Et)).
    cbn [fst snd]. rewrite disk_pops. split; [now left | reflexivity]. }
  rewrite (create_table_missing _ _ _ _ Ef Et).
  destruct (hd None (faults (pops 3 w))) as [e|];
    [split; [left; apply disk_pops | intros [H|H]; settle]|].
  destruct (prepares _ _);
    [|split; [left; apply disk_pops | intros [H|H]; settle]].
  destruct (hd None (faults (pops 4 w))) as [e|];
    [split; [left; apply disk_pops | intros [H|H]; settle]|].
  cbn [fst snd disk with_disk]. split; [now right | reflexivity].
Qed.

(** X7.  [create_table] on one of the three tables of the plugin, under
    any faults.  It returns the code of the first call into SQLite that
    fails; [NOTREQUIRED] when the count went through and found a table of
    exactly this name; otherwise [SQLITE_ERROR], without any fault, when
    the statement that creates the table is refused because an index has
    the name, and [SUCCESS] when that statement went through.
    [NOTREQUIRED] leaves the database as it was.  [SUCCESS] means that the
    count found no table of the name and that the statement ran: a table or
    a view answers to the name afterwards, which is the table added, with
    the definition given and no row, only if nothing had the name, even in
    another case of the letters, before.  In every case the database is as
    it was or as the statement leaves it, and it is as the statement leaves
    it as soon as the first five calls meet no fault: when only the
    finalization of the second statement fails, an error is returned
    although the table was created. *)
Theorem create_table_result (db : sqlite3) (name defn : string) (w : world) :
  In (name, defn) plugin_tables ->
  let r := create_table db name defn w in
  fst r = match first_fault 3 (faults w) with
          | Some e => code e
          | None =>
              if has_table name (disk w) then NOTREQUIRED
              else
                match hd None (faults (pops 3 w)) with
                | Some e => code e
                | None =>
                    if resolves name (disk w)
                       || negb (index_named name (disk w))
                    then match first_fault 2 (faults (pops 4 w)) with
                         | Some e => code e
                         | None => SUCCESS
                         end
                    else code SQLITE_ERROR
                end
          end
  /\ (fst r = NOTREQUIRED ->
      has_table name (disk w) = true /\ disk (snd r) = disk w)
  /\ (fst r = SUCCESS ->
      has_table name (disk w) = false
      /\ disk (snd r) = ensure name defn (disk w)
      /\ resolves name (disk (snd r)) = true
      /\ (has_table name (disk (snd r)) = true <->
          occupied name (disk w) = false))
  /\ (disk (snd r) = disk w \/ disk (snd r) = ensure name defn (disk w))
  /\ (first_fault 5 (faults w) = None ->
      disk (snd r) = ensure name defn (disk w)).
Proof.
  intros _. cbv zeta.
  destruct (create_table_step db name defn w) as [Hstep Hc].
  cbv zeta in Hstep, Hc.
  split; [|split; [|split; [|split; [exact Hstep|]]]]; clear Hstep.
  - destruct (first_fault 3 (faults w)) as [e0|] eqn:Ef;
      [apply (create_table_fault db name defn w e0 Ef)|].
    destruct (has_table name (disk w)) eqn:Et;
      [now rewrite (create_table_found _ _ _ _ Ef Et)|].
    rewrite (create_table_missing _ _ _ _ Ef Et), first_fault_two.
    cbn [prepares pops].
    destruct (hd None (faults (pop (pop (pop w))))) as [e|]; [reflexivity|].
    destruct (resolves name (disk w) || negb (index_named name (disk w)));
      [|reflexivity].
    destruct (hd None (faults (pop (pop (pop (pop w)))))) as [e|];
      reflexivity.
  - destruct (first_fault 3 (faults w)) as [e0|] eqn:Ef.
    { destruct (create_table_fault db name defn w e0 Ef) as [-> _].
      intros; settle. }
    destruct (has_table name (disk w)) eqn:Et.
    { rewrite (create_table_found _ _ _ _ Ef Et). cbn [fst snd].
      intros _. split; [reflexivity | apply disk_pops]. }
    rewrite (create_table_missing _ _ _ _ Ef Et).
    destruct (hd None (faults (pops 3 w))) as [e|]; [intros; settle|].
    destruct (prepares _ _); [|intros; settle].
    destruct (hd None (faults (pops 4 w))) as [e|]; [intros; settle|].
    destruct (hd None (faults (pops 5 w))) as [e|]; intros; settle.
  - intros Hs.
    destruct (first_fault 3 (faults w)) as [e0|] eqn:Ef.
    { destruct (create_table_fault db name defn w e0 Ef) as [He _].
      rewrite He in Hs. settle. }
    destruct (has_table name (disk w)) eqn:Et.
    { rewrite (create_table_found _ _ _ _ Ef Et) in Hs. settle. }
    pose proof (Hc (or_introl Hs)) as Hd. rewrite Hd.
    split; [reflexivity|]. split; [reflexivity|].
    assert (prepares (create_table_if_not_exists name defn) (disk w) = true)
      as Ep.
    { revert Hs. rewrite (create_table_missing _ _ _ _ Ef Et).
      destruct (hd None (faults (pops 3 w))) as [e|]; [intros; settle|].
      destruct (prepares _ _); [reflexivity | intros; settle]. }
    cbn [prepares] in Ep. split; [now apply resolves_ensure|].
    unfold ensure. destruct (occupied name (disk w)) eqn:Eo.
    + rewrite Et. split; discriminate.
    + rewrite has_table_added. now split.
  - intros Hf.
    destruct (first_fault 3 (faults w)) as [e0|] eqn:Ef.
    { exfalso. revert Hf. rewrite !first_fault_next in Ef |- *.
      destruct (hd None (faults w)) as [e|]; [discriminate|].
      destruct (hd None (faults (pop w))) as [e|]; [discriminate|].
      destruct (hd None (faults (pop (pop w)))) as [e|]; [discriminate|].
      cbn [first_fault] in Ef. discriminate Ef. }
    destruct (has_table name (disk w)) eqn:Et.
    { apply Hc. rewrite (create_table_found _ _ _ _ Ef Et). now right. }
    rewrite (create_table_missing _ _ _ _ Ef Et).
    assert (hd None (faults (pops 3 w)) = None
            /\ hd None (faults (pops 4 w)) = None) as [H3 H4].
    { revert Hf. rewrite !first_fault_next. cbn [pops first_fault].
      destruct (hd None (faults w)) as [e|]; [discriminate|].
      destruct (hd None (faults (pop w))) as [e|]; [discriminate|].
      destruct (hd None (faults (pop (pop w)))) as [e|]; [discriminate|].
      destruct (hd None (faults (pop (pop (pop w))))) as [e|];
        [discriminate|].
      destruct (hd None (faults (pop (pop (pop (pop w)))))) as [e|];
        [discriminate|]. now split. }
    rewrite H3, H4.
    destruct (prepares _ _) eqn:Ep; [reflexivity|].
    cbn [snd prepares] in *. rewrite disk_pops.
    apply orb_false_iff in Ep. destruct Ep as [_ Ei].
    apply negb_false_iff in Ei. symmetry. apply ensure_present.
    unfold occupied. rewrite Ei. apply orb_true_r.
Qed.

Lemma create_table_result_witness :
  In ("auth", auth_definition) plugin_tables
  /\ fst (create_table connection "auth" auth_definition late_fault_world)
     = code SQLITE_BUSY
  /\ disk (snd (create_table connection "auth" auth_definition
                  late_fault_world))
     = [("auth", Table auth_definition [])].
Proof.
  assert (In ("auth", auth_definition) plugin_tables) as Hin
    by (right; left; reflexivity).
  destruct (create_table_result connection "auth" auth_definition
              late_fault_world Hin) as (H1 & _ & _ & _ & H5).
  split; [exact Hin|]. split; [exact H1 | exact (H5 eq_refl)].
Defined.

End Tables.

(** * Shutting the plugin down *)

Section Cleanup.

Lemma quiet_three (w : world) :
  quiet 3 w = true <->
  hd None (faults w) = None /\ hd None (faults (pop w)) = None
  /\ hd None (faults (pops 2 w)) = None.
Proof.
  rewrite <- first_fault_quiet, first_fault_three.
  destruct (hd None (faults w)) as [e|];
    [split; [discriminate | intros (H & _); discriminate H]|].
  destruct (hd None (faults (pop w))) as [e|];
    [split; [discriminate | intros (_ & H & _); discriminate H]|].
  split; [now intros -> | now intros (_ & _ & ->)].
Qed.

Lemma finalize_cases (q : sqlite3_stmt) (w : world) :
  sqlite3_finalize (Some q) w
  = (match hd None (faults w) with
     | Some e => code e
     | None => match at_ q with Failed e => code e | _ => SQLITE_OK end
     end, pop w).
Proof. unfold sqlite3_finalize, bind, ret. now rewrite next_fault_pop. Qed.

Lemma finalize_code (q : sqlite3_stmt) (w : world) :
  neq (fst (sqlite3_finalize (Some q) w)) SQLITE_OK
  = negb (is_none (hd None (faults w)) && negb (failed (at_ q))).
Proof.
  rewrite finalize_cases. cbn [fst].
  destruct (hd None (faults w)) as [e|]; [apply code_not_ok|].
  destruct (at_ q); try reflexivity. apply code_not_ok.
Qed.

Lemma close_cases (db : sqlite3) (w : world) :
  sqlite3_close db w
  = (match hd None (faults w) with
     | Some e => code e
     | None => SQLITE_OK
     end, pop w).
Proof. unfold sqlite3_close, bind, ret. now rewrite next_fault_pop. Qed.

Lemma shutdown_cases (w : world) :
  sqlite3_shutdown w
  = (match hd None (faults w) with
     | Some e => code e
     | None => SQLITE_OK
     end, pop w).
Proof. unfold sqlite3_shutdown, bind, ret. now rewrite next_fault_pop. Qed.

Lemma neq_fault (f : option error) :
  neq match f with Some e => code e | None => SQLITE_OK end SQLITE_OK
  = negb (is_none f).
Proof. destruct f as [e|]; [apply code_not_ok | reflexivity]. Qed.

Lemma plugin_cleanup_cases (context : Context) (w : world) :
  mosquitto_auth_plugin_cleanup context w
  = if is_none (hd None (faults w))
       && negb (failed (at_ (passquery context)))
    then
      if is_none (hd None (faults (pop w))) then
        if is_none (hd None (faults (pops 2 w))) then
          (SUCCESS,
           with_log (log w ++ [(MOSQ_LOG_INFO,
             "AutoHome authorization plugin shut down successfully")])%list
             (pops 3 w))
        else
          (FAILED_SQLITE,
           with_log (log w ++ [(MOSQ_LOG_ERR,
             "Failed to shutdown SQLite3.")])%list (pops 3 w))
      else
        (DB_FILE_CANTCLOSE,
         with_log (log w ++ [(MOSQ_LOG_ERR,
           "Failed to close SQLite database.")])%list (pops 2 w))
    else
      (DB_FILE_CANTCLOSE,
       pop (with_log (log w ++ [(MOSQ_LOG_ERR,
         "Failed to finalize password prepared statement.")])%list (pop w))).
Proof.
  unfold mosquitto_auth_plugin_cleanup, bind.
  pose proof (finalize_code (passquery context) w) as Hf.
  rewrite finalize_cases in Hf |- *. cbn [fst] in Hf. rewrite Hf. clear Hf.
  destruct (is_none (hd None (faults w))
            && negb (failed (at_ (passquery context)))); cbn [negb].
  - rewrite close_cases, neq_fault.
    destruct (hd None (faults (pop w))) as [e|]; cbn [is_none negb];
      [reflexivity|].
    rewrite shutdown_cases, neq_fault. cbn [pops].
    destruct (hd None (faults (pop (pop w)))) as [e|]; reflexivity.
  - unfold mosquitto_log_printf. rewrite close_cases. reflexivity.
Qed.

Ltac wrap :=
  repeat match goal with
         | |- _ /\ _ => split
         | |- _ <-> _ => split
         | |- _ -> _ => intro
         | H : _ /\ _ |- _ => destruct H
         end;
  try match goal with
      | H : _ = _ |- _ => cbv in H; discriminate H
      | H : ?x <> ?x |- _ => contradiction H; reflexivity
      end;
  first [ reflexivity | now left | now right; left | now right; right
        | now eexists | discriminate ].

(** X10.  [mosquitto_auth_plugin_cleanup] returns [SUCCESS] exactly when
    the last step of the password query did not fail and the three calls
    (finalize, close, shutdown) meet no fault; otherwise it returns
    [DB_FILE_CANTCLOSE], or [FAILED_SQLITE] when only the shutdown fails.
    A query whose last step failed makes the finalization report that
    failure, so the cleanup fails without any fault of its own.  Whatever
    happens, the database is left as it is and one message is logged: at
    information level on success, at error level otherwise. *)
Theorem plugin_cleanup_result (context : Context) (w : world) :
  let r := mosquitto_auth_plugin_cleanup context w in
  (fst r = SUCCESS <->
   failed (at_ (passquery context)) = false /\ quiet 3 w = true)
  /\ (fst r = SUCCESS \/ fst r = DB_FILE_CANTCLOSE \/ fst r = FAILED_SQLITE)
  /\ (fst r = FAILED_SQLITE <->
      failed (at_ (passquery context)) = false /\ quiet 2 w = true
      /\ hd None (faults (pops 2 w)) <> None)
  /\ disk (snd r) = disk w
  /\ foreign_keys (snd r) = foreign_keys w
  /\ exists msg,
       log (snd r)
       = (log w ++ [(if (fst r =? SUCCESS)%Z then MOSQ_LOG_INFO
                     else MOSQ_LOG_ERR, msg)])%list.
Proof.
  cbv zeta. rewrite quiet_three, <- first_fault_quiet, first_fault_two.
  rewrite plugin_cleanup_cases. cbn [pops].
  destruct (hd None (faults w)) as [e|]; cbn [is_none andb negb fst snd];
    [wrap|].
  destruct (failed (at_ (passquery context))); cbn [negb fst snd]; [wrap|].
  destruct (hd None (faults (pop w))) as [e|]; cbn [is_none negb fst snd];
    [wrap|].
  destruct (hd None (faults (pop (pop w)))) as [e|];
    cbn [is_none negb fst snd]; wrap.
Qed.

Lemma plugin_cleanup_result_witness :
  fst (mosquitto_auth_plugin_cleanup example_context example_world) = SUCCESS
  /\ fst (mosquitto_auth_plugin_cleanup stale_context example_world)
     <> SUCCESS.
Proof.
  split.
  - destruct (plugin_cleanup_result example_context example_world)
      as ([_ H] & _).
    apply H. split; reflexivity.
  - destruct (plugin_cleanup_result stale_context example_world)
      as ([H _] & _).
    intros E. apply H in E. destruct E as [E _]. discriminate E.
Defined.

End Cleanup.

(** * Further properties of the initialization *)

Section Initialization.

Lemma ends_bind {A B : Type} (S : B -> Prop) (m : M A) (k : A -> M B) :
  (forall a, ends S (k a)) -> ends S (bind m k).
Proof. unfold ends, bind. intros Hk w. destruct (m w) as [a w']. apply Hk. Qed.

Lemma ends_ret {A : Type} (S : A -> Prop) (a : A) : S a -> ends S (ret a).
Proof. now intros H w. Qed.

Ltac erring :=
  repeat (apply ends_bind; intro);
  apply ends_ret; right; split; reflexivity.

Lemma initialize_cases (w : world) :
  sqlite3_initialize w
  = (match hd None (faults w) with
     | Some e => code e
     | None => SQLITE_OK
     end, pop w).
Proof. unfold sqlite3_initialize, bind, ret. now rewrite next_fault_pop. Qed.

Lemma open_cases (filename : string) (w : world) :
  sqlite3_open filename w
  = match hd None (faults w) with
    | Some e => ((code e, connection), pop w)
    | None => ((SQLITE_OK, connection), with_foreign_keys false (pop w))
    end.
Proof.
  unfold sqlite3_open, bind, ret. rewrite next_fault_pop.
  now destruct (hd None (faults w)).
Qed.

(** Once the database is open, the initialization ends with [SUCCESS] and
    a context or with [DB_ERROR] and none. *)
Lemma plugin_init_settled (db : sqlite3) (su gs : option string) :
  ends settled
    (retval <- sql_exec_void db pragma_foreign_keys_on ;;
     if neq retval SQLITE_OK then
       mosquitto_log_printf MOSQ_LOG_ERR "Failed to enable foreign keys." ;;
       sqlite3_close db ;;
       ret (DB_ERROR, None)
     else
     '(profretvalue, authretvalue, schedretvalue) <- create_tables db ;;
     let error :=
       (neq profretvalue SUCCESS && neq profretvalue NOTREQUIRED)
       || (neq authretvalue SUCCESS && neq authretvalue NOTREQUIRED)
       || (neq schedretvalue SUCCESS && neq schedretvalue NOTREQUIRED) in
     if error then
       mosquitto_log_printf MOSQ_LOG_ERR "Failed to create tables." ;;
       sqlite3_close db ;;
       ret (DB_ERROR, None)
     else
     (if (profretvalue =? SUCCESS)%Z && (authretvalue =? SUCCESS)%Z
         && (schedretvalue =? SUCCESS)%Z
      then mosquitto_log_printf MOSQ_LOG_NOTICE
             "Uninitialized database. Creating from scratch."
      else if (profretvalue =? NOTREQUIRED)%Z
              && (authretvalue =? NOTREQUIRED)%Z
              && (schedretvalue =? NOTREQUIRED)%Z
      then ret tt
      else mosquitto_log_printf MOSQ_LOG_NOTICE
             "Incomplete database. Patching (but foreign keys may be wrong).") ;;
     '(retval, passquery) <- sqlite3_prepare_v2 db select_hash_salt ;;
     match neq retval SQLITE_OK, passquery with
     | false, Some passquery =>
         mosquitto_log_printf MOSQ_LOG_INFO
           "AutoHome authorization plugin initialized successfully" ;;
         ret (SUCCESS, Some (Build_Context db passquery su gs))
     | _, _ =>
         mosquitto_log_printf MOSQ_LOG_ERR
           "Failed to compile password prepared statement." ;;
         sqlite3_finalize passquery ;;
         sqlite3_close db ;;
         ret (DB_ERROR, None)
     end).
Proof.
  apply ends_bind. intros rc. destruct (neq rc SQLITE_OK); [erring|].
  apply ends_bind. intros [[p a] s]. cbv zeta.
  destruct (neq p SUCCESS && neq p NOTREQUIRED
            || neq a SUCCESS && neq a NOTREQUIRED
            || neq s SUCCESS && neq s NOTREQUIRED); [erring|].
  apply ends_bind. intros u. apply ends_bind. intros [rc3 q].
  destruct (neq rc3 SQLITE_OK); [destruct q; erring|].
  destruct q as [q|]; [|erring].
  apply ends_bind. intros u'. apply ends_ret. left.
  split; [reflexivity|]. now eexists.
Qed.

Lemma settled_codes (r : Z * option Context) :
  settled r ->
  (snd r = None <-> fst r <> SUCCESS)
  /\ fst r <> FAILED_SQLITE /\ fst r <> NO_DB_FILE_SPECIFIED
  /\ fst r <> DB_FILE_CANTOPEN /\ (fst r = SUCCESS \/ fst r = DB_ERROR).
Proof.
  intros [(E & c & Ec)|(E & Ec)]; rewrite E, Ec.
  - repeat split; try discriminate; try (now left). now intros H.
  - repeat split; try discriminate; now right.
Qed.

Lemma bind_initialize {A : Type} (k : Z -> M A) (w : world) :
  bind sqlite3_initialize k w
  = k match hd None (faults w) with
      | Some e => code e
      | None => SQLITE_OK
      end (pop w).
Proof. unfold bind at 1. now rewrite initialize_cases. Qed.

Lemma bind_open {A : Type} (filename : string) (k : Z * sqlite3 -> M A)
    (w : world) :
  bind (sqlite3_open filename) k w
  = match hd None (faults w) with
    | Some e => k (code e, connection) (pop w)
    | None => k (SQLITE_OK, connection) (with_foreign_keys false (pop w))
    end.
Proof.
  unfold bind at 1. rewrite open_cases. now destruct (hd None (faults w)).
Qed.

Lemma plugin_init_cases (auth_opts : list (string * string)) (w : world) :
  let r := fst (mosquitto_auth_plugin_init auth_opts w) in
  match hd None (faults w) with
  | Some _ => r = (FAILED_SQLITE, None)
  | None =>
      match last_value "db_file" auth_opts with
      | None => r = (NO_DB_FILE_SPECIFIED, None)
      | Some _ =>
          match hd None (faults (pop w)) with
          | Some _ => r = (DB_FILE_CANTOPEN, None)
          | None => settled r
          end
      end
  end.
Proof.
  cbv zeta. unfold mosquitto_auth_plugin_init.
  change (fold_left read_option auth_opts (None, None, None))
    with (read_options auth_opts).
  rewrite read_options_values, bind_initialize.
  destruct (hd None (faults w)) as [e|].
  { now rewrite code_not_ok. }
  cbn [neq Z.eqb SQLITE_OK negb].
  destruct (last_value "db_file" auth_opts) as [dbfile|]; [|reflexivity].
  rewrite bind_open.
  destruct (hd None (faults (pop w))) as [e|].
  { rewrite code_not_ok. unfold sqlite3_close, mosquitto_log_printf, bind, ret.
    now rewrite next_fault_pop. }
  cbn [neq Z.eqb SQLITE_OK negb].
  exact (plugin_init_settled connection _ _ _).
Qed.

Ltac codes :=
  repeat match goal with
         | |- _ /\ _ => split
         | |- _ <-> _ => split
         | |- _ -> _ => intro
         | H : _ /\ _ |- _ => destruct H
         | H : _ \/ _ |- _ => destruct H
         end;
  try match goal with
      | H : _ = _ |- _ => cbv in H; discriminate H
      | H : ?x <> ?x |- _ => exfalso; apply H; reflexivity
      end;
  first [ reflexivity | discriminate | now left | now right | assumption ].

(** X5.  The return code of the initialization names the step that failed.
    It is [FAILED_SQLITE] exactly when the first call into SQLite
    ([sqlite3_initialize]) fails, whatever the options are;
    [NO_DB_FILE_SPECIFIED] exactly when that call goes through and no
    option has the key [db_file]; [DB_FILE_CANTOPEN] exactly when the file
    is named and opening it fails; and [SUCCESS] or [DB_ERROR] in every
    other case.  A context is handed over exactly when the code is
    [SUCCESS]. *)
Theorem plugin_init_codes (auth_opts : list (string * string)) (w : world) :
  let r := fst (mosquitto_auth_plugin_init auth_opts w) in
  (snd r = None <-> fst r <> SUCCESS)
  /\ (fst r = FAILED_SQLITE <-> hd None (faults w) <> None)
  /\ (fst r = NO_DB_FILE_SPECIFIED <->
      hd None (faults w) = None /\ last_value "db_file" auth_opts = None)
  /\ (fst r = DB_FILE_CANTOPEN <->
      hd None (faults w) = None /\ last_value "db_file" auth_opts <> None
      /\ hd None (faults (pop w)) <> None)
  /\ (fst r = SUCCESS \/ fst r = DB_ERROR <->
      hd None (faults w) = None /\ last_value "db_file" auth_opts <> None
      /\ hd None (faults (pop w)) = None).
Proof.
  intros r. pose proof (plugin_init_cases auth_opts w) as H.
  cbv zeta in H. fold r in H.
  destruct (hd None (faults w)) as [e|]; [rewrite H; clear H r; codes|].
  destruct (last_value "db_file" auth_opts) as [dbfile|];
    [|rewrite H; clear H r; codes].
  destruct (hd None (faults (pop w))) as [e|]; [rewrite H; clear H r; codes|].
  apply settled_codes in H. clearbody r. destruct r as [rc c].
  cbn [fst snd] in *.
  destruct H as (H1 & H2 & H3 & H4 & H5).
  split; [exact H1|]. split; [split; [contradiction | now intros H]|].
  split; [split; [contradiction | intros (_ & H); discriminate H]|].
  split; [split; [contradiction | intros (_ & _ & H); now contradiction H]|].
  split; [intros _; repeat split; discriminate | intros _; exact H5].
Qed.

Lemma plugin_init_codes_witness :
  fst (fst (mosquitto_auth_plugin_init [("superuser", "root")] example_world))
  = NO_DB_FILE_SPECIFIED
  /\ fst (fst (mosquitto_auth_plugin_init example_options busy_world))
     = DB_ERROR.
Proof.
  split.
  - destruct (plugin_init_codes [("superuser", "root")] example_world)
      as (_ & _ & [_ H] & _).
    apply H. split; reflexivity.
  - destruct (plugin_init_codes example_options busy_world)
      as (H0 & _ & _ & _ & [_ H]).
    destruct H as [H|H]; [repeat split; discriminate | | exact H].
    exfalso. apply H0 in H; [exact H | reflexivity].
Defined.

Lemma bind_run {A B : Type} (m : M A) (k : A -> M B) (w w' : world) (a : A) :
  m w = (a, w') -> bind m k w = k a w'.
Proof. unfold bind. now intros ->. Qed.

Lemma pop_calm (w : world) : faults w = [] -> pop w = w.
Proof. destruct w as [d fk fs l sg a]. cbn. now intros ->. Qed.

Lemma create_table_calm (db : sqlite3) (name defn : string) (d : database)
    (fk sg : bool) (l : list (Z * string)) (a : nat -> ascii) :
  create_table db name defn (World d fk [] l sg a)
  = (outcome name d, World (ensure name defn d) fk [] l sg a).
Proof.
  unfold outcome, blocked, ensure, occupied.
  destruct (has_table name d) eqn:Et.
  - rewrite create_table_found by (first [reflexivity | exact Et]).
    now rewrite (has_table_resolves _ _ Et).
  - rewrite create_table_missing by (first [reflexivity | exact Et]).
    cbn [pops pop faults with_faults tl hd disk prepares].
    unfold ensure, occupied.
    destruct (resolves name d), (index_named name d); reflexivity.
Qed.

Lemma has_table_app (name : string) (d d' : database) :
  has_table name (d ++ d')%list = has_table name d || has_table name d'.
Proof. apply existsb_app. Qed.

Lemma has_table_ensure (name other defn : string) (d : database) :
  String.eqb other name = false ->
  has_table name (ensure other defn d) = has_table name d.
Proof.
  intros H. unfold ensure. destruct (occupied other d); [reflexivity|].
  rewrite has_table_app.
  assert (has_table name [(other, Table defn [])] = false) as ->.
  { unfold has_table, listed, named. cbn [existsb fst]. rewrite H.
    now rewrite andb_false_r. }
  apply orb_false_r.
Qed.

Lemma resolves_other (name other defn : string) (d : database) :
  same_name other name = false ->
  resolves name (ensure other defn d) = resolves name d.
Proof.
  intros H. unfold ensure. destruct (occupied other d); [reflexivity|].
  unfold resolves. rewrite existsb_app.
  assert (existsb (answers name) [(other, Table defn [])] = false) as ->.
  { unfold answers. cbn [existsb fst]. rewrite H.
    now rewrite andb_false_r. }
  apply orb_false_r.
Qed.

Lemma index_named_ensure (name other defn : string) (d : database) :
  index_named name (ensure other defn d) = index_named name d.
Proof.
  unfold ensure. destruct (occupied other d); [reflexivity|].
  unfold index_named. rewrite existsb_app. cbn.
  now rewrite !orb_false_r.
Qed.

Lemma occupied_other (name other defn : string) (d : database) :
  same_name other name = false ->
  occupied name (ensure other defn d) = occupied name d.
Proof.
  intros H. unfold occupied.
  now rewrite resolves_other, index_named_ensure.
Qed.

Lemma outcome_other (name other defn : string) (d : database) :
  String.eqb other name = false -> same_name other name = false ->
  outcome name (ensure other defn d) = outcome name d.
Proof.
  intros H H'. unfold outcome, blocked.
  now rewrite has_table_ensure, resolves_other, index_named_ensure.
Qed.

Lemma find_table_app (name : string) (d d' : database) (t : object) :
  find_table name d = Some t -> find_table name (d ++ d')%list = Some t.
Proof.
  unfold find_table. induction d as [|entry d IH]; cbn; [discriminate|].
  destruct (named name entry); [trivial | exact IH].
Qed.

Lemma find_table_ensure (name other defn : string) (d : database)
    (t : object) :
  find_table name d = Some t -> find_table name (ensure other defn d) = Some t.
Proof.
  intros H. unfold ensure. destruct (occupied other d); [exact H|].
  now apply find_table_app.
Qed.

(** The three calls of [create_table] when no fault lies ahead. *)
Lemma create_tables_calm (db : sqlite3) (d : database) (fk sg : bool)
    (l : list (Z * string)) (a : nat -> ascii) :
  create_tables db (World d fk [] l sg a)
  = ((outcome "profile" d, outcome "auth" d, outcome "schedule" d),
     World (ensure_schema d) fk [] l sg a).
Proof.
  unfold create_tables, bind, ret, ensure_schema.
  rewrite !create_table_calm.
  now rewrite !outcome_other by reflexivity.
Qed.

(** A return code of [create_table] under no fault is an error exactly
    when the statement that creates the table is refused. *)
Lemma outcome_error (name : string) (d : database) :
  neq (outcome name d) SUCCESS && neq (outcome name d) NOTREQUIRED
  = blocked name d.
Proof.
  unfold outcome, blocked. destruct (has_table name d) eqn:Et.
  - now rewrite (has_table_resolves _ _ Et).
  - now destruct (negb (resolves name d) && index_named name d).
Qed.

Lemma outcome_free (name : string) (d : database) :
  blocked name d = false ->
  outcome name d = if has_table name d then NOTREQUIRED else SUCCESS.
Proof. unfold outcome. now intros ->. Qed.

Lemma prepare_refused (db : sqlite3) (q : sql) (w : world) :
  hd None (faults w) = None -> prepares q (disk w) = false ->
  sqlite3_prepare_v2 db q w = ((code SQLITE_ERROR, None), pop w).
Proof.
  intros H Ht. unfold sqlite3_prepare_v2, bind, ret.
  rewrite next_fault_pop, H.
  change (disk (pop w)) with (disk w). now rewrite Ht.
Qed.

Lemma resolve_app (name : string) (d d' : database) :
  resolves name d = false ->
  resolve name (d ++ d')%list = resolve name d'.
Proof.
  unfold resolves, resolve. intros H. f_equal.
  induction d as [|entry d IH]; [reflexivity|]. cbn [existsb] in H.
  apply orb_false_iff in H. destruct H as [H1 H2]. cbn [app find].
  rewrite H1. now apply IH.
Qed.

Lemma occupied_free (name : string) (d : database) :
  occupied name d = false ->
  has_table name d = false /\ resolves name d = false
  /\ blocked name d = false.
Proof.
  unfold occupied, blocked. intros H. apply orb_false_iff in H.
  destruct H as [Hr Hi]. rewrite Hr, Hi. repeat split.
  destruct (has_table name d) eqn:Et; [|reflexivity].
  now rewrite (has_table_resolves _ _ Et) in Hr.
Qed.

(** Where nothing had the names of the three tables, the initialization
    adds them, and the password query compiles on the result. *)
Lemma ensure_schema_fresh (d : database) :
  occupied "profile" d = false -> occupied "auth" d = false ->
  occupied "schedule" d = false ->
  ensure_schema d = (d ++ accounts [])%list
  /\ prepares select_hash_salt (ensure_schema d) = true.
Proof.
  intros Hp Ha Hs.
  assert (ensure_schema d = (d ++ accounts [])%list) as E.
  { unfold ensure_schema.
    rewrite (ensure_absent "profile" profile_definition d Hp).
    assert (occupied "auth"
              (d ++ [("profile", Table profile_definition [])])%list
            = false) as Ha'.
    { rewrite <- (ensure_absent "profile" profile_definition d Hp).
      now rewrite occupied_other by reflexivity. }
    rewrite (ensure_absent "auth" auth_definition _ Ha').
    assert (occupied "schedule"
              ((d ++ [("profile", Table profile_definition [])])
               ++ [("auth", Table auth_definition [])])%list = false) as Hs'.
    { rewrite <- (ensure_absent "auth" auth_definition _ Ha').
      rewrite occupied_other by reflexivity.
      rewrite <- (ensure_absent "profile" profile_definition d Hp).
      now rewrite occupied_other by reflexivity. }
    rewrite (ensure_absent "schedule" schedule_definition _ Hs').
    now rewrite <- !app_assoc. }
  split; [exact E|]. rewrite E. cbn [prepares]. unfold lookup_columns.
  rewrite resolve_app by (now apply occupied_free). reflexivity.
Qed.

Ltac tidy :=
  cbv [pop pops with_faults with_foreign_keys with_disk with_log
       faults disk foreign_keys log char_is_signed automatic tl hd].

(** X6.  An initialization that meets no fault, with a database file named
    in the options, on any database.  It turns foreign keys on, runs the
    three statements that create the tables, each adding its table, empty,
    unless something has the name, and keeps everything it has found.  It
    fails with [DB_ERROR] and the message that the tables could not be
    created when one of the three names is that of an index and of no table
    or view; otherwise it logs the notice that the database was created
    from scratch exactly when the count found none of the three tables, no
    notice when it found all three, the notice of an incomplete database
    otherwise; it then fails with [DB_ERROR] when the password query does
    not compile on the tables that answer to its names, as when [auth] has
    no column [hash], and else reports [SUCCESS], hands over a context with
    the compiled query and the superuser and guest secret of the options,
    and logs the message of success.  On a database where nothing has the
    three names it succeeds and adds the three tables. *)
Theorem plugin_init_calm (auth_opts : list (string * string)) (w : world)
    (dbfile : string) :
  faults w = [] ->
  last_value "db_file" auth_opts = Some dbfile ->
  let r := mosquitto_auth_plugin_init auth_opts w in
  let d := disk w in
  disk (snd r) = ensure_schema d
  /\ (forall name t, find_table name d = Some t ->
                     find_table name (disk (snd r)) = Some t)
  /\ foreign_keys (snd r) = true
  /\ (if blocked "profile" d || blocked "auth" d || blocked "schedule" d
      then
        fst r = (DB_ERROR, None)
        /\ log (snd r)
           = (log w ++ [(MOSQ_LOG_ERR, "Failed to create tables.")])%list
      else if prepares select_hash_salt (ensure_schema d)
      then
        fst r
        = (SUCCESS,
           Some (Build_Context connection example_query
                   (option_map c_str (last_value "superuser" auth_opts))
                   (option_map c_str
                      (last_value "guest_secret" auth_opts))))
        /\ log (snd r) = (log w ++ schema_notice d ++ [initialized])%list
      else
        fst r = (DB_ERROR, None)
        /\ log (snd r)
           = (log w ++ schema_notice d
              ++ [(MOSQ_LOG_ERR,
                   "Failed to compile password prepared statement.")])%list)
  /\ (occupied "profile" d = false -> occupied "auth" d = false ->
      occupied "schedule" d = false ->
      fst (fst r) = SUCCESS /\ disk (snd r) = (d ++ accounts [])%list).
Proof.
  intros Hf Hdb. destruct w as [d fk fs l sg a]. cbn [faults] in Hf.
  subst fs. cbv zeta. cbn [disk log].
  set (ctx := Build_Context connection example_query
                (option_map c_str (last_value "superuser" auth_opts))
                (option_map c_str (last_value "guest_secret" auth_opts))).
  set (failure := blocked "profile" d || blocked "auth" d
                  || blocked "schedule" d).
  assert (mosquitto_auth_plugin_init auth_opts (World d fk [] l sg a)
          = if failure then
              ((DB_ERROR, None),
               World (ensure_schema d) true []
                 (l ++ [(MOSQ_LOG_ERR, "Failed to create tables.")]) sg a)
            else if prepares select_hash_salt (ensure_schema d) then
              ((SUCCESS, Some ctx),
               World (ensure_schema d) true []
                 (l ++ schema_notice d ++ [initialized]) sg a)
            else
              ((DB_ERROR, None),
               World (ensure_schema d) true []
                 (l ++ schema_notice d
                  ++ [(MOSQ_LOG_ERR,
                       "Failed to compile password prepared statement.")])
                 sg a)) as E.
  { unfold mosquitto_auth_plugin_init.
    change (fold_left read_option auth_opts (None, None, None))
      with (read_options auth_opts).
    rewrite read_options_values, Hdb, bind_initialize. tidy.
    cbn [neq Z.eqb SQLITE_OK negb]. rewrite bind_open. tidy.
    cbn [neq Z.eqb SQLITE_OK negb].
    erewrite bind_run by (apply pragma_calm; reflexivity). tidy.
    cbn [neq Z.eqb SQLITE_OK negb].
    erewrite bind_run by apply create_tables_calm. cbv beta iota zeta.
    rewrite !outcome_error. fold failure.
    destruct failure eqn:Eb.
    { unfold bind, ret, mosquitto_log_printf, sqlite3_close, next_fault.
      tidy. reflexivity. }
    unfold failure in Eb. apply orb_false_iff in Eb. destruct Eb as [Eb Es].
    apply orb_false_iff in Eb. destruct Eb as [Ep Ea].
    rewrite !outcome_free by assumption. unfold schema_notice.
    destruct (prepares select_hash_salt (ensure_schema d)) eqn:Eq;
      destruct (has_table "profile" d), (has_table "auth" d),
               (has_table "schedule" d);
      cbv zeta;
      cbn [neq Z.eqb SUCCESS NOTREQUIRED Pos.eqb negb andb orb];
      (erewrite bind_run by reflexivity); tidy;
      (erewrite bind_run
         by first [ apply prepare_calm; first [reflexivity | exact Eq]
                  | apply prepare_refused; first [reflexivity | exact Eq] ]);
      cbn [neq Z.eqb SQLITE_OK code Pos.eqb negb];
      unfold bind, ret, mosquitto_log_printf, initialized, sqlite3_finalize,
        sqlite3_close, next_fault; tidy;
      cbn [app]; rewrite <- ?app_assoc; reflexivity. }
  rewrite E. clear E.
  split; [now destruct failure, (prepares select_hash_salt (ensure_schema d))|].
  split.
  { intros name t H.
    assert (find_table name (ensure_schema d) = Some t) as H'
      by (unfold ensure_schema; now repeat apply find_table_ensure).
    now destruct failure, (prepares select_hash_salt (ensure_schema d)). }
  split; [now destruct failure, (prepares select_hash_salt (ensure_schema d))|].
  split.
  { destruct failure; [now split|].
    destruct (prepares select_hash_salt (ensure_schema d)); now split. }
  intros Hp Ha Hs.
  destruct (ensure_schema_fresh d Hp Ha Hs) as [Ed Eq].
  destruct (occupied_free _ _ Hp) as (_ & _ & Bp).
  destruct (occupied_free _ _ Ha) as (_ & _ & Ba).
  destruct (occupied_free _ _ Hs) as (_ & _ & Bs).
  unfold failure. rewrite Bp, Ba, Bs, Eq. cbn [orb fst snd disk].
  split; [reflexivity | exact Ed].
Qed.

Lemma plugin_init_calm_witness :
  (fst (mosquitto_auth_plugin_init example_options example_world)
   = (SUCCESS,
      Some (Build_Context connection example_query (Some "root") None))
   /\ log (snd (mosquitto_auth_plugin_init example_options example_world))
      = [(MOSQ_LOG_NOTICE, "Uninitialized database. Creating from scratch.");
         initialized])
  /\ (fst (mosquitto_auth_plugin_init example_options foreign_world)
      = (DB_ERROR, None)
      /\ log (snd (mosquitto_auth_plugin_init example_options foreign_world))
         = [(MOSQ_LOG_NOTICE,
             "Incomplete database. Patching (but foreign keys may be wrong).");
            (MOSQ_LOG_ERR,
             "Failed to compile password prepared statement.")])
  /\ disk (snd (mosquitto_auth_plugin_init example_options capital_world))
     = [("PROFILE", Table profile_definition []);
        ("auth", Table auth_definition []);
        ("schedule", Table schedule_definition [])].
Proof.
  split; [|split].
  - destruct (plugin_init_calm example_options example_world "autohome.db"
                eq_refl eq_refl) as (_ & _ & _ & H & _).
    exact H.
  - destruct (plugin_init_calm example_options foreign_world "autohome.db"
                eq_refl eq_refl) as (_ & _ & _ & H & _).
    exact H.
  - destruct (plugin_init_calm example_options capital_world "autohome.db"
                eq_refl eq_refl) as (H & _).
    exact H.
Defined.

End Initialization.

(** * The text of the digest *)

Section Encoding.

Lemma hex_digits (c : ascii) :
  is_hex_digit (load digit (Z.to_nat (uchar c / 16))) = true
  /\ is_hex_digit (load digit (Z.to_nat (uchar c mod 16))) = true.
Proof. destruct c as [[] [] [] [] [] [] [] []]; split; reflexivity. Qed.

Lemma all_hex_base16 (s : string) : all_chars is_hex_digit (base16 s) = true.
Proof.
  induction s as [|c s IH]; [reflexivity|].
  cbn [base16 all_chars]. destruct (hex_digits c) as [-> ->]. exact IH.
Qed.

Lemma decode16_base16 (s : string) : decode16 (base16 s) = s.
Proof.
  induction s as [|c s IH]; [reflexivity|].
  cbn [base16 decode16]. now rewrite unhex_digits, IH.
Qed.

Lemma length_terminated (p : string) :
  String.length (p ++ String NUL EmptyString) = S (String.length p).
Proof. induction p as [|c p IH]; cbn; [reflexivity | now rewrite IH]. Qed.

(** X11.  The loop that turns the digest into text, in place.  For a digest
    of 32 bytes at the start of a buffer of 65 characters, whatever the
    rest of the buffer holds, whether [char] is signed or not, and however
    many turns more the bound allows, the loop and the terminator leave
    the base16 text of the digest followed by NUL: 64 characters, each a
    digit or a letter from [a] to [f], high nibble first, from which the
    digest is read back.  No byte of the digest is overwritten before it
    is read. *)
Theorem hex_encoding_in_place (signed : bool) (d buffer : string)
    (extra : nat) :
  String.length d = 32%nat -> String.length buffer = 65%nat ->
  let out :=
    store (encode_loop (32 + extra) signed 31 63 (blit d buffer)) 64 NUL in
  out = base16 d ++ String NUL EmptyString
  /\ String.length out = 65%nat
  /\ strlen out = 64%nat
  /\ all_chars is_hex_digit (c_str out) = true
  /\ decode16 (c_str out) = d.
Proof.
  intros Hd Hb out.
  assert (out = base16 d ++ String NUL EmptyString) as E.
  { unfold out. rewrite encode_loop_fuel by reflexivity.
    rewrite encode_in_place by assumption. now rewrite loop_base16_spec. }
  assert (c_str out = base16 d) as Ec.
  { rewrite E. apply c_str_terminated, no_nul_base16. }
  split; [exact E|]. split.
  { rewrite E, length_terminated, length_base16, Hd. reflexivity. }
  split.
  { rewrite strlen_c_str, Ec, length_base16, Hd. reflexivity. }
  rewrite Ec. split; [apply all_hex_base16 | apply decode16_base16].
Qed.

Lemma hex_encoding_in_place_witness :
  String.length (SHA256.digest "abc") = 32%nat
  /\ String.length (replicate 65 "x") = 65%nat
  /\ c_str (store (encode_loop (32 + 1) false 31 63
                     (blit (SHA256.digest "abc") (replicate 65 "x"))) 64 NUL)
     = "ba7816bf8f01cfea414140de5dae2223b00361a396177a9cb410ff61f20015ad".
Proof.
  assert (String.length (SHA256.digest "abc") = 32%nat) as Hd
    by (vm_compute; reflexivity).
  assert (String.length (replicate 65 "x") = 65%nat) as Hb by reflexivity.
  split; [exact Hd|]. split; [exact Hb|].
  destruct (hex_encoding_in_place false (SHA256.digest "abc")
              (replicate 65 "x") 1 Hd Hb) as (E & _).
  rewrite E, c_str_terminated by apply no_nul_base16.
  vm_compute. reflexivity.
Defined.

End Encoding.

(** * The buffers of the lookup *)

Section Buffers.

Lemma length_store (p : string) (i : nat) (c : ascii) :
  String.length (store p i c) = String.length p.
Proof.
  revert i. induction p as [|d p IH]; intros [|i]; cbn; try reflexivity.
  now rewrite IH.
Qed.

Lemma length_strncpy (dst src : string) (n : nat) :
  String.length (strncpy dst src n) = String.length dst.
Proof.
  revert dst src. induction n as [|n IH]; intros [|x dst] src;
    try reflexivity.
  cbn [strncpy]. destruct src as [|c src]; cbn [String.length].
  - now rewrite IH.
  - destruct (is_nul c); cbn [String.length]; now rewrite IH.
Qed.

Lemma strlen_store_le (p : string) (i : nat) :
  (i < String.length p)%nat -> (strlen (store p i NUL) <= i)%nat.
Proof.
  revert i. induction p as [|d p IH]; intros i H; cbn in H; [lia|].
  destruct i as [|i]; cbn [store strlen].
  - change (is_nul NUL) with true. cbn. lia.
  - destruct (is_nul d); [lia|]. specialize (IH i). lia.
Qed.

Lemma step_code (q : sqlite3_stmt) (w : world) :
  fst (fst (sqlite3_step q w)) <> SQLITE_OK.
Proof.
  unfold sqlite3_step, bind, ret. rewrite next_fault_pop.
  destruct (hd None (faults w)) as [e|]; [apply code_nonzero|].
  pose proof (evaluate_code q (pop w)) as H.
  destruct (at_ q); try discriminate;
    destruct (evaluate q (pop w)) as [p w']; exact H.
Qed.

Lemma step_text (q : sqlite3_stmt) (w : world) :
  text (snd (fst (sqlite3_step q w))) = text q.
Proof.
  unfold sqlite3_step, bind, ret. rewrite next_fault_pop.
  destruct (hd None (faults w)) as [e|]; [reflexivity|].
  destruct (at_ q); try reflexivity;
    now destruct (evaluate q (pop w)) as [p w'].
Qed.

Lemma evaluate_lookup (s : sqlite3_stmt) (w : world) :
  is_select_hash_salt (text s) = true -> snd (evaluate s w) = w.
Proof.
  unfold evaluate. destruct (text s); try discriminate. intros _.
  destruct (lookup_columns (disk w)); [|reflexivity].
  destruct (param s) as [u|]; [|reflexivity].
  now destruct (stored (disk w) u) as [[h v]|].
Qed.

Lemma step_lookup (q : sqlite3_stmt) (w : world) :
  is_select_hash_salt (text q) = true -> snd (sqlite3_step q w) = pop w.
Proof.
  intros Hq. unfold sqlite3_step, bind, ret. rewrite next_fault_pop.
  destruct (hd None (faults w)) as [e|]; [reflexivity|].
  pose proof (evaluate_lookup q (pop w) Hq) as H.
  destruct (at_ q); try reflexivity;
    destruct (evaluate q (pop w)) as [p w']; exact H.
Qed.

Lemma reset_world (q : sqlite3_stmt) (w : world) :
  snd (sqlite3_reset q w) = pop w
  /\ text (snd (fst (sqlite3_reset q w))) = text q.
Proof.
  unfold sqlite3_reset, bind, ret. rewrite next_fault_pop. now split.
Qed.

Lemma bind_text_world (q : sqlite3_stmt) (i : Z) (v : string) (w : world) :
  snd (sqlite3_bind_text q i v w) = pop w
  /\ text (snd (fst (sqlite3_bind_text q i v w))) = text q.
Proof.
  unfold sqlite3_bind_text, bind, ret. rewrite next_fault_pop.
  split; [reflexivity|].
  destruct (hd None (faults w)) as [e|]; [reflexivity|].
  destruct (at_ q); try reflexivity. now destruct (i =? 1)%Z.
Qed.

(** The shape of a lookup.  Either its behaviour is undefined, or its
    return code, the statement and the world it leaves do not depend on
    what the two buffers hold, and the buffers come back untouched (with an
    error code), cleared, or with a copy. *)
Lemma retrieve_password_shape (q : sqlite3_stmt) (u : string) (w : world) :
  (exists w',
      (is_select_hash_salt (text q) = true ->
       exists fs, w' = with_faults fs w)
      /\ forall hash salt,
           retrieve_password q u hash 65 salt 65 w = (None, w'))
  \/ (exists rc q' wr w',
         (wr = Untouched -> rc <> SQLITE_OK)
         /\ text q' = text q
         /\ (is_select_hash_salt (text q) = true ->
             exists fs, w' = with_faults fs w)
         /\ forall hash salt,
              retrieve_password q u hash 65 salt 65 w
              = (Some (rc, q', hash_after wr hash, salt_after wr salt), w')).
Proof.
  unfold retrieve_password, bind.
  destruct (reset_world q w) as [W0 T0].
  destruct (sqlite3_reset q w) as [[rc0 q0] w0]. cbn [fst snd] in W0, T0.
  destruct (neq rc0 SQLITE_OK) eqn:N0.
  { right. exists rc0, q0, Untouched, w0.
    split; [intros _; now apply neq_true|].
    split; [exact T0|]. split; [|reflexivity].
    intros _. subst w0. now eexists. }
  destruct (bind_text_world q0 1 u w0) as [W1 T1].
  destruct (sqlite3_bind_text q0 1 u w0) as [[rc1 q1] w1].
  cbn [fst snd] in W1, T1.
  destruct (neq rc1 SQLITE_OK) eqn:N1.
  { right. exists rc1, q1, Untouched, w1.
    split; [intros _; now apply neq_true|].
    split; [congruence|]. split; [|reflexivity].
    intros _. subst w1 w0. now eexists. }
  pose proof (step_code q1 w1) as C2. pose proof (step_text q1 w1) as T2.
  pose proof (step_lookup q1 w1) as W2.
  destruct (sqlite3_step q1 w1) as [[rc2 q2] w2]. cbn [fst snd] in C2, T2, W2.
  assert (is_select_hash_salt (text q) = true ->
          exists fs, w2 = with_faults fs w) as W3'.
  { intros Hq. rewrite W2 by congruence. subst w1 w0. now eexists. }
  assert (is_select_hash_salt (text q) = true ->
          exists fs, pop w2 = with_faults fs w) as W3.
  { intros Hq. rewrite W2 by congruence. subst w1 w0. now eexists. }
  assert (forall wr, wr <> Untouched ->
            exists rc q' w',
              (wr = Untouched -> rc <> SQLITE_OK)
              /\ text q' = text q
              /\ (is_select_hash_salt (text q) = true ->
                  exists fs, w' = with_faults fs w)
              /\ forall hash salt,
                   retrieve_password_end q2 (hash_after wr hash)
                     (salt_after wr salt) w2
                   = ((rc, q', hash_after wr hash, salt_after wr salt), w'))
    as Hend.
  { intros wr Hwr. unfold retrieve_password_end, bind.
    destruct (reset_world q2 w2) as [W4 T4].
    destruct (sqlite3_reset q2 w2) as [[rc3 q3] w3]. cbn [fst snd] in W4, T4.
    subst w3.
    destruct (neq rc3 SQLITE_OK);
      [exists rc3, q3, (pop w2) | exists SQLITE_OK, q3, (pop w2)];
      (split; [contradiction|]); (split; [congruence|]);
      (split; [exact W3 | reflexivity]). }
  destruct (rc2 =? SQLITE_DONE)%Z.
  { destruct (Hend Cleared) as (rc & q' & w' & H1 & H2 & H3 & H4);
      [discriminate|].
    right. exists rc, q', Cleared, w'.
    split; [exact H1|]. split; [exact H2|]. split; [exact H3|].
    intros hash salt. unfold ret.
    cbn [hash_after salt_after] in H4. now rewrite H4. }
  destruct (rc2 =? SQLITE_ROW)%Z.
  { destruct (sqlite3_column_text q2 0) as [t1|];
      [|left; exists w2; split; [exact W3' | reflexivity]].
    destruct (sqlite3_column_text q2 1) as [t2|];
      [|left; exists w2; split; [exact W3' | reflexivity]].
    destruct (Hend (Copied t1 t2)) as (rc & q' & w' & H1 & H2 & H3 & H4);
      [discriminate|].
    right. exists rc, q', (Copied t1 t2), w'.
    split; [exact H1|]. split; [exact H2|]. split; [exact H3|].
    intros hash salt. unfold ret.
    cbn [hash_after salt_after] in H4. now rewrite H4. }
  right. exists rc2, q2, Untouched, w2. split; [intros _; exact C2|].
  split; [congruence|]. split; [|reflexivity].
  intros Hq. rewrite W2 by congruence. subst w1 w0. now eexists.
Qed.

(** The lookup with the password query, by the faults of its calls, the
    state of the query and the database. *)
Lemma retrieve_password_cases (q : sqlite3_stmt) (u hash salt : string)
    (w : world) :
  is_select_hash_salt (text q) = true ->
  let bound := Stmt select_hash_salt (Some (c_str u)) Ready in
  let final := match hd None (faults (pops 3 w)) with
               | Some e => code e
               | None => SQLITE_OK
               end in
  retrieve_password q u hash 65 salt 65 w
  = match first_fault 1 (faults w), at_ q with
    | Some e, _ | None, Failed e =>
        (Some (code e, with_progress Ready q, hash, salt), pop w)
    | None, _ =>
        match hd None (faults (pop w)) with
        | Some e => (Some (code e, with_progress Ready q, hash, salt),
                     pops 2 w)
        | None =>
            match hd None (faults (pops 2 w)) with
            | Some e =>
                (Some (code e, with_progress (Failed e) bound, hash, salt),
                 pops 3 w)
            | None =>
                if prepares select_hash_salt (disk w) then
                  match stored (disk w) (c_str u) with
                  | None =>
                      (Some (final, bound, store hash 0 NUL,
                             store salt 0 NUL), pops 4 w)
                  | Some (h, s) =>
                      match text_of h, text_of s with
                      | Some ht, Some st =>
                          (Some (final, bound,
                                 store (strncpy hash ht 65) 64 NUL,
                                 store (strncpy salt st 65) 64 NUL),
                           pops 4 w)
                      | _, _ => (None, pops 3 w)
                      end
                  end
                else
                  (Some (code SQLITE_ERROR,
                         with_progress (Failed SQLITE_ERROR) bound,
                         hash, salt), pops 3 w)
            end
        end
    end.
Proof.
  intros Hq. cbv zeta. destruct q as [t pa st]. cbn [text] in Hq.
  destruct t; try discriminate Hq. clear Hq.
  rewrite (first_fault_next 0). cbn [first_fault pops at_].
  unfold retrieve_password, bind.
  destruct (hd None (faults w)) as [e|] eqn:H0.
  { rewrite (reset_fault _ _ _ H0). now rewrite code_not_ok. }
  rewrite (reset_calm _ _ H0). cbn [at_ with_progress text param].
  destruct st as [|n|cols| |e]; try (now rewrite code_not_ok).
  all: change (neq SQLITE_OK SQLITE_OK) with false; cbv iota.
  all: destruct (hd None (faults (pop w))) as [e|] eqn:H1;
    [rewrite (bind_fault _ _ _ _ H1); now rewrite code_not_ok|].
  all: rewrite bind_calm by first [exact H1 | reflexivity].
  all: change (neq SQLITE_OK SQLITE_OK) with false; cbv iota; cbn [text].
  all: destruct (hd None (faults (pop (pop w)))) as [e|] eqn:H2;
    [rewrite (step_fault _ _ _ H2);
     now rewrite code_not_done, code_not_row|].
  all: rewrite step_calm by first [exact H2 | reflexivity].
  all: rewrite evaluate_select.
  all: change (disk (pop (pop (pop w)))) with (disk w); cbn [prepares].
  all: destruct (lookup_columns (disk w)) as [c|];
    [|cbn [fst snd result_code]; now rewrite code_not_done, code_not_row].
  all: destruct (stored (disk w) (c_str u)) as [[h s]|];
    cbn [fst snd result_code with_progress text param];
    cbn [Z.eqb SQLITE_DONE SQLITE_ROW Pos.eqb].
  all: try (unfold sqlite3_column_text; cbn [at_ with_progress nth];
            destruct (text_of h) as [ht|]; [|reflexivity];
            destruct (text_of s) as [st0|]; [|reflexivity]).
  all: unfold retrieve_password_end, bind.
  all: destruct (hd None (faults (pop (pop (pop w))))) as [e|] eqn:H3;
    [rewrite (reset_fault _ _ _ H3); now rewrite code_not_ok
    |rewrite (reset_calm _ _ H3); reflexivity].
Qed.

Lemma c_str_copied (buffer t : string) :
  String.length buffer = 65%nat ->
  c_str (store (strncpy buffer t 65) (65 - 1) NUL) = held t.
Proof. intros H. now rewrite (strncpy_terminated 64) by exact H. Qed.

Ltac refute :=
  let Hf := fresh "Hf" in let Hw := fresh "Hw" in let Hp := fresh "Hp" in
  let Hst := fresh "Hst" in let Hn := fresh "Hn" in
  intros (Hf & Hw & Hp & ? & ? & Hst & Hn);
  first [ discriminate Hf | discriminate Hw | discriminate Hp
        | discriminate Hst | injection Hst as <- <-; discriminate Hn ].

Ltac exits :=
  cbn [fst];
  split;
  [ split; [discriminate | refute]
  | let E := fresh "E" in let Hrc := fresh "Hrc" in
    intros ? ? ? ? E Hrc; injection E as <- _ _ _;
    first [ discriminate Hrc
          | match type of Hrc with
            | code ?e = _ => destruct (code_nonzero e Hrc)
            end ] ].

(** X12.  The lookup and its two buffers of 65 characters, when the
    context holds the password query.  Its behaviour is undefined, a
    [strncpy] from a [NULL] pointer, exactly when the query was not left
    with a failure, the reset, the bind and the step meet no fault, the
    query compiles on the database, and the row found for the user holds
    [NULL] for the hash or for the salt.  In every other case the lookup
    returns, and when it returns [SQLITE_OK] each buffer holds a terminator
    among its first 65 characters, so that the caller's [strlen] and
    [strcmp] stay inside the arrays; the text before it is empty when no
    row was found, and otherwise the first 64 characters of the text
    stored. *)
Theorem retrieve_password_buffers (q : sqlite3_stmt) (u hash salt : string)
    (w : world) :
  is_select_hash_salt (text q) = true ->
  String.length hash = 65%nat -> String.length salt = 65%nat ->
  let r := fst (retrieve_password q u hash 65 salt 65 w) in
  (r = None <->
   failed (at_ q) = false /\ quiet 3 w = true
   /\ prepares select_hash_salt (disk w) = true
   /\ exists h s, stored (disk w) (c_str u) = Some (h, s)
                  /\ is_null h || is_null s = true)
  /\ (forall rc q' hash' salt',
        r = Some (rc, q', hash', salt') -> rc = SQLITE_OK ->
        (strlen hash' <= 64)%nat /\ (strlen salt' <= 64)%nat
        /\ match stored (disk w) (c_str u) with
           | None => c_str hash' = "" /\ c_str salt' = ""
           | Some (h, s) =>
               option_map held (text_of h) = Some (c_str hash')
               /\ option_map held (text_of s) = Some (c_str salt')
           end).
Proof.
  intros Hq Hh Hs. cbv zeta.
  rewrite <- first_fault_quiet, first_fault_three.
  rewrite (retrieve_password_cases q u hash salt w Hq). cbv zeta.
  rewrite (first_fault_next 0). cbn [first_fault pops].
  destruct (hd None (faults w)) as [e|]; [exits|].
  destruct (at_ q) as [|n|cols| |e]; cbn [failed]; try exits.
  all: destruct (hd None (faults (pop w))) as [e|]; [exits|].
  all: destruct (hd None (faults (pop (pop w)))) as [e|]; [exits|].
  all: destruct (prepares select_hash_salt (disk w)); [|exits].
  all: destruct (stored (disk w) (c_str u)) as [[h s]|].
  all: try (destruct h as [|ht|ht], s as [|st0|st0];
            cbn [text_of fst is_null orb option_map]).
  all: cbn [fst];
    try (split; [split; [intros _; repeat split; eauto | reflexivity]
                | intros rc q' h' s' E; discriminate E]).
  all: split; [split; [discriminate | refute]|].
  all: intros rc q' h' s' E Hrc; injection E as _ _ <- <-.
  all: rewrite ?strlen_store_nul, <- ?take_strlen, ?strlen_store_nul.
  all: try (cbn [take]; repeat split; lia).
  all: rewrite !take_strlen, !(c_str_copied _ _ Hh), !(c_str_copied _ _ Hs).
  all: repeat split; apply strlen_store_le; rewrite length_strncpy; lia.
Qed.

Lemma retrieve_password_buffers_witness :
  (exists rc q' hash' salt',
      fst (retrieve_password example_query "bob"
             (replicate 65 "x") 65 (replicate 65 "x") 65 bob_world)
      = Some (rc, q', hash', salt')
      /\ (strlen hash' <= 64)%nat /\ (strlen salt' <= 64)%nat)
  /\ fst (retrieve_password example_query "nobody"
            (replicate 65 "x") 65 (replicate 65 "x") 65 null_world) = None.
Proof.
  split.
  - destruct (retrieve_password_buffers example_query "bob"
                (replicate 65 "x") (replicate 65 "x") bob_world
                eq_refl eq_refl eq_refl) as [_ H].
    eexists _, _, _, _. split; [vm_compute; reflexivity|].
    match goal with
    | |- (strlen ?h <= 64)%nat /\ (strlen ?s <= 64)%nat =>
        destruct (H SQLITE_OK
                    (Stmt select_hash_salt (Some "bob") Ready) h s)
          as (H1 & H2 & _); [vm_compute; reflexivity | reflexivity|]
    end.
    split; [exact H1 | exact H2].
  - apply (retrieve_password_buffers example_query "nobody"
             (replicate 65 "x") (replicate 65 "x") null_world
             eq_refl eq_refl eq_refl).
    repeat split. exists (Text "x"), Null. now split.
Defined.

Lemma uniform_bind {A B : Type} (m : M A) (k : A -> M B) :
  uniform m -> (forall a, uniform (k a)) -> uniform (bind m k).
Proof.
  intros Hm Hk sg a w. unfold bind. rewrite Hm.
  destruct (m w) as [x w']. cbn [fst snd]. apply Hk.
Qed.

Lemma uniform_ret {A : Type} (a : A) : uniform (ret a).
Proof. now intros sg j w. Qed.

Lemma uniform_next_fault : uniform next_fault.
Proof.
  intros sg j [d fk fs l s a]. unfold next_fault, with_platform.
  cbn [faults]. now destruct fs.
Qed.

Lemma uniform_evaluate (q : sqlite3_stmt) (k : progress -> Z * sqlite3_stmt) :
  uniform (fun w => let (p, w') := evaluate q w in (k p, w')).
Proof.
  intros sg j w. unfold evaluate. destruct (text q) as [|name|name defn|].
  - reflexivity.
  - reflexivity.
  - change (disk (with_platform sg j w)) with (disk w).
    destruct (resolves name (disk w)); [reflexivity|].
    now destruct (index_named name (disk w)).
  - change (disk (with_platform sg j w)) with (disk w).
    destruct (lookup_columns (disk w)); [|reflexivity].
    destruct (param q) as [u|]; [|reflexivity].
    now destruct (stored (disk w) u) as [[h v]|].
Qed.

Lemma uniform_retrieve_password (q : sqlite3_stmt) (u hash salt : string) :
  uniform (retrieve_password q u hash 65 salt 65).
Proof.
  assert (forall q h s, uniform (retrieve_password_end q h s)) as Hend.
  { intros q0 h s. unfold retrieve_password_end, sqlite3_reset.
    apply uniform_bind.
    - apply uniform_bind; [apply uniform_next_fault|].
      intros f. apply uniform_ret.
    - intros [rc q1]. destruct (neq rc SQLITE_OK); apply uniform_ret. }
  unfold retrieve_password. apply uniform_bind.
  { unfold sqlite3_reset. apply uniform_bind; [apply uniform_next_fault|].
    intros f. apply uniform_ret. }
  intros [rc0 q0]. destruct (neq rc0 SQLITE_OK); [apply uniform_ret|].
  apply uniform_bind.
  { unfold sqlite3_bind_text. apply uniform_bind; [apply uniform_next_fault|].
    intros f. apply uniform_ret. }
  intros [rc1 q1]. destruct (neq rc1 SQLITE_OK); [apply uniform_ret|].
  apply uniform_bind.
  { unfold sqlite3_step. apply uniform_bind; [apply uniform_next_fault|].
    intros [e|]; [apply uniform_ret|].
    destruct (at_ q1); try apply uniform_ret;
      apply (uniform_evaluate q1
               (fun p => (result_code p, with_progress p q1))). }
  intros [rc2 q2].
  destruct (rc2 =? SQLITE_DONE)%Z;
    [apply uniform_bind; [apply Hend | intros r; apply uniform_ret]|].
  destruct (rc2 =? SQLITE_ROW)%Z; [|apply uniform_ret].
  destruct (sqlite3_column_text q2 0); [|apply uniform_ret].
  destruct (sqlite3_column_text q2 1); [|apply uniform_ret].
  apply uniform_bind; [apply Hend | intros r; apply uniform_ret].
Qed.

(** The check when the behaviour of its lookup is undefined. *)
Lemma unpwd_check_undefined (context : Context) (u : string)
    (password : option string) (w w' : world) :
  (forall hash salt,
      retrieve_password (passquery context) u hash 65 salt 65 w
      = (None, w')) ->
  mosquitto_auth_unpwd_check context (Some u) password w
  = ((None, context), w').
Proof.
  intros E. unfold mosquitto_auth_unpwd_check, bind. now rewrite E.
Qed.

(** The check by the shape of its lookup. *)
Lemma unpwd_check_cases (context : Context) (u : string)
    (password : option string) (w w' : world) (rc : Z) (q' : sqlite3_stmt)
    (wr : written) :
  (wr = Untouched -> rc <> SQLITE_OK) ->
  (forall hash salt,
      retrieve_password (passquery context) u hash 65 salt 65 w
      = (Some (rc, q', hash_after wr hash, salt_after wr salt), w')) ->
  mosquitto_auth_unpwd_check context (Some u) password w
  = if neq rc 0
    then ((Some MOSQ_ERR_UNKNOWN, with_passquery q' context),
          with_log (log w' ++ [cancelled])%list w')
    else ((answer context wr password, with_passquery q' context), w').
Proof.
  intros Hu E. unfold mosquitto_auth_unpwd_check, bind. rewrite E.
  pose proof (length_indeterminate w 0 65) as Hc.
  pose proof (length_indeterminate w 65 65) as Hh.
  pose proof (length_indeterminate w 130 65) as Hs.
  revert Hc Hh Hs.
  generalize (indeterminate w 0 65), (indeterminate w 65 65),
    (indeterminate w 130 65).
  intros clienthash hash salt Hc Hh Hs.
  destruct (neq rc 0) eqn:N; [reflexivity|].
  assert (forall g pw : option string,
             match g, pw with
             | None, None => true
             | Some secret, Some password => (strcmp secret password =? 0)%Z
             | _, _ => false
             end
             = match g, pw with
               | None, None => true
               | Some secret, Some password =>
                   String.eqb (c_str secret) (c_str password)
               | _, _ => false
               end) as Hg.
  { intros [g|] [pw|]; try reflexivity. apply strcmp_eqb. }
  destruct wr as [| |h s]; cbn [hash_after salt_after answer].
  - apply neq_false in N. now apply Hu in N.
  - rewrite strlen_store_nul. unfold ret, guest_rule. cbn [Nat.eqb].
    now rewrite Hg.
  - rewrite strlen_zero, c_str_copied by exact Hh.
    destruct (String.eqb (held h) "").
    + unfold ret, guest_rule. now rewrite Hg.
    + destruct password as [p|]; [|reflexivity].
      unfold ret. rewrite compare_hashes by exact Hc.
      now rewrite !c_str_copied by assumption.
Qed.

(** X13.  The check does not depend on what the C implementation leaves
    open: for every content of the three automatic arrays before they are
    written, and whether [char] is signed or not, the result, the context
    and the effects on the world are the same.  Uninitialized memory is
    never read into the decision. *)
Theorem unpwd_check_platform (context : Context)
    (username password : option string) (signed : bool)
    (junk : nat -> ascii) (w : world) :
  mosquitto_auth_unpwd_check context username password
    (with_platform signed junk w)
  = (fst (mosquitto_auth_unpwd_check context username password w),
     with_platform signed junk
       (snd (mosquitto_auth_unpwd_check context username password w))).
Proof.
  destruct username as [u|]; [|reflexivity].
  destruct (retrieve_password_shape (passquery context) u w)
    as [(w' & _ & E) | (rc & q' & wr & w' & Hu & _ & _ & E)].
  { rewrite (unpwd_check_undefined context u password w w' E).
    apply unpwd_check_undefined.
    intros hash salt. rewrite uniform_retrieve_password. now rewrite E. }
  rewrite (unpwd_check_cases context u password w w' rc q' wr Hu E).
  rewrite (unpwd_check_cases context u password
             (with_platform signed junk w) (with_platform signed junk w')
             rc q' wr Hu).
  - now destruct (neq rc 0).
  - intros hash salt. rewrite uniform_retrieve_password. now rewrite E.
Qed.

(** X14.  What the check leaves behind, when the context holds the password
    query.  Whatever the faults, the database and the foreign-key setting
    are as before and the context keeps its query text, superuser and guest
    secret; the log gets the warning of a cancelled authentication exactly
    when the result is [MOSQ_ERR_UNKNOWN], and nothing otherwise: an Allow
    or a Deny is not logged. *)
Theorem unpwd_check_effects (context : Context)
    (username password : option string) (w : world) :
  is_select_hash_salt (text (passquery context)) = true ->
  let r := mosquitto_auth_unpwd_check context username password w in
  disk (snd r) = disk w
  /\ foreign_keys (snd r) = foreign_keys w
  /\ log (snd r) = (log w ++ warning_of (fst (fst r)))%list
  /\ text (passquery (snd (fst r))) = select_hash_salt
  /\ superuser (snd (fst r)) = superuser context
  /\ guestsecret (snd (fst r)) = guestsecret context.
Proof.
  intros Hq. cbv zeta.
  assert (text (passquery context) = select_hash_salt) as Ht.
  { now destruct (text (passquery context)). }
  destruct username as [u|].
  2:{ cbn. rewrite app_nil_r. now repeat split. }
  destruct (retrieve_password_shape (passquery context) u w)
    as [(w' & Hw & E) | (rc & q' & wr & w' & Hu & Hq' & Hw & E)].
  { rewrite (unpwd_check_undefined context u password w w' E).
    destruct (Hw Hq) as [fs ->]. cbn [fst snd warning_of].
    rewrite app_nil_r. now repeat split. }
  rewrite (unpwd_check_cases context u password w w' rc q' wr Hu E).
  destruct (Hw Hq) as [fs ->]. rewrite Ht in Hq'.
  destruct (neq rc 0); cbn [fst snd].
  - now repeat split.
  - assert (warning_of (answer context wr password) = []) as ->.
    { unfold answer, warning_of.
      destruct wr as [| |h s]; try (now destruct (guest_rule _ _)).
      destruct (String.eqb (held h) "");
        [now destruct (guest_rule _ _)|].
      destruct password as [p|]; [|reflexivity].
      now destruct (String.eqb _ _). }
    rewrite app_nil_r. now repeat split.
Qed.

Lemma unpwd_check_effects_witness :
  disk (snd (mosquitto_auth_unpwd_check example_context (Some "alice")
               (Some "hunter2") busy_world)) = disk busy_world
  /\ log (snd (mosquitto_auth_unpwd_check example_context (Some "alice")
                 (Some "hunter2") busy_world)) = [cancelled].
Proof.
  destruct (unpwd_check_effects example_context (Some "alice")
              (Some "hunter2") busy_world eq_refl) as (H1 & _ & H2 & _).
  split; [exact H1 | exact H2].
Defined.

End Buffers.

(** * What the initialization does to the database *)

Section Preservation.

Ltac unsuccessful :=
  apply hoare_fails;
  repeat (apply fails_bind; intro);
  apply fails_ret; discriminate.

Lemma grows_ensure (name defn : string) (d0 d : database) :
  grows d0 d -> grows d0 (ensure name defn d).
Proof.
  intros [more ->]. unfold ensure. destruct (occupied name _).
  - now exists more.
  - exists (more ++ [(name, Table defn [])])%list. now rewrite app_assoc.
Qed.

(** The tables of [d0] are in [d], after one another, with their
    definitions and rows. *)
Lemma create_table_extends (d0 : database) (db : sqlite3)
    (name defn : string) :
  maintains (fun d => grows d0 d
                      /\ forall n t, find_table n d0 = Some t ->
                                     find_table n d = Some t)
    (create_table db name defn).
Proof.
  intros w [Hg Hf]. destruct (create_table_step db name defn w) as [[E|E] _];
    rewrite E; [now split|]. split.
  - now apply grows_ensure.
  - intros n t H. now apply find_table_ensure, Hf.
Qed.

(** A name that is taken stays taken, and no table is added under it,
    whichever table is created. *)
Lemma create_table_counts (d0 : database) (db : sqlite3)
    (name other defn : string) :
  maintains (fun d => occupied name d = true
                      /\ count_tables name d = count_tables name d0)
    (create_table db other defn).
Proof.
  intros w [Ho Hc].
  destruct (create_table_step db other defn w) as [[E|E] _];
    rewrite E; [now split|].
  unfold ensure. destruct (occupied other (disk w)) eqn:Eo; [now split|].
  assert (String.eqb other name = false) as Hn.
  { destruct (String.eqb other name) eqn:En; [|reflexivity].
    apply String.eqb_eq in En. subst other. congruence. }
  split.
  - unfold occupied in *. unfold resolves, index_named in *.
    rewrite !existsb_app. apply orb_true_iff in Ho.
    destruct Ho as [-> | ->]; [reflexivity|]. cbn [orb].
    now rewrite !orb_true_r.
  - rewrite <- Hc. unfold count_tables. rewrite filter_app, length_app.
    cbn [filter]. unfold listed at 2, named. cbn [fst]. rewrite Hn.
    rewrite andb_false_r. cbn [List.length]. now rewrite Nat.add_0_r.
Qed.

Lemma create_tables_ensure (d0 : database) (db : sqlite3) :
  hoare (fun w => disk w = d0) (create_tables db)
    (fun r w' =>
       created (fst (fst r)) -> created (snd (fst r)) -> created (snd r) ->
       disk w' = ensure_schema d0).
Proof.
  intros w Hw. unfold create_tables, bind, ensure_schema.
  destruct (create_table_step db "profile" profile_definition w) as [_ P1].
  destruct (create_table db "profile" _ w) as [p w1]. cbn [fst snd] in P1.
  destruct (create_table_step db "auth" auth_definition w1) as [_ P2].
  destruct (create_table db "auth" _ w1) as [a w2]. cbn [fst snd] in P2.
  destruct (create_table_step db "schedule" schedule_definition w2)
    as [_ P3].
  destruct (create_table db "schedule" _ w2) as [s w3]. cbn [fst snd] in P3.
  cbn [ret fst snd]. intros Cp Ca Cs.
  now rewrite (P3 Cs), (P2 Ca), (P1 Cp), Hw.
Qed.

(** Whatever the faults, a successful initialization has run the three
    statements that create the tables. *)
Lemma plugin_init_schema (auth_opts : list (string * string)) (d0 : database) :
  hoare (fun w => disk w = d0)
    (mosquitto_auth_plugin_init auth_opts)
    (fun r w' => fst r = SUCCESS -> disk w' = ensure_schema d0).
Proof.
  unfold mosquitto_auth_plugin_init.
  destruct (fold_left read_option auth_opts (None, None, None))
    as [[dbfile su] gs].
  eapply hoare_bind;
    [apply (hoare_keeps (fun d => d = d0)), keeps_initialize|].
  intros rc. destruct (neq rc SQLITE_OK); [unsuccessful|].
  destruct dbfile as [dbfile|]; [|unsuccessful].
  eapply hoare_bind; [apply (hoare_keeps (fun d => d = d0)), keeps_open|].
  intros [rc' db]. destruct (neq rc' SQLITE_OK); [unsuccessful|].
  eapply hoare_bind; [apply (hoare_keeps (fun d => d = d0)), keeps_pragma|].
  intros rc''. destruct (neq rc'' SQLITE_OK); [unsuccessful|].
  eapply hoare_bind; [apply create_tables_ensure|]. intros [[p a] s].
  cbv zeta. cbn [fst snd].
  destruct (neq p SUCCESS && neq p NOTREQUIRED) eqn:Ep; [unsuccessful|].
  destruct (neq a SUCCESS && neq a NOTREQUIRED) eqn:Ea; [unsuccessful|].
  destruct (neq s SUCCESS && neq s NOTREQUIRED) eqn:Es; [unsuccessful|].
  cbn [orb].
  apply hoare_weaken with (P' := fun w => disk w = ensure_schema d0).
  { intros w H. apply H; now apply created_of_codes. }
  eapply hoare_bind.
  { apply (hoare_keeps (fun d => d = ensure_schema d0)).
    destruct ((p =? SUCCESS)%Z && (a =? SUCCESS)%Z && (s =? SUCCESS)%Z);
      [apply keeps_log|].
    destruct ((p =? NOTREQUIRED)%Z && (a =? NOTREQUIRED)%Z
              && (s =? NOTREQUIRED)%Z); [apply keeps_ret | apply keeps_log]. }
  intros u. eapply hoare_bind.
  { apply (hoare_keeps (fun d => d = ensure_schema d0)), keeps_prepare. }
  intros [rc3 [q|]]; [|destruct (neq rc3 SQLITE_OK); unsuccessful].
  destruct (neq rc3 SQLITE_OK); [unsuccessful|].
  intros w H _. exact H.
Qed.

Lemma plugin_init_extends (auth_opts : list (string * string)) (w : world) :
  grows (disk w) (disk (snd (mosquitto_auth_plugin_init auth_opts w)))
  /\ (forall name t,
        find_table name (disk w) = Some t ->
        find_table name (disk (snd (mosquitto_auth_plugin_init auth_opts w)))
        = Some t).
Proof.
  apply (plugin_init_maintains
           (fun d => grows (disk w) d
                     /\ forall n t, find_table n (disk w) = Some t ->
                                    find_table n d = Some t)
           auth_opts).
  - intros db. unfold create_tables.
    repeat (apply maintains_bind; [apply create_table_extends | intro]).
    apply maintains_ret.
  - split; [apply grows_refl | trivial].
Qed.

(** X19.  The initialization is not destructive.  Whatever the options and
    the faults, and whether it succeeds or not, the database it leaves
    starts with the objects it has found, in their order, each with its
    definition and rows; only tables of the schema are added after them.
    When it returns [SUCCESS], the three statements that create the tables
    have run on the database it has found: each table of the schema is
    added, empty, unless a table, a view or an index has its name, in
    whatever case of the letters, and then nothing is added for it. *)
Theorem plugin_init_preserves (auth_opts : list (string * string))
    (w : world) :
  let r := mosquitto_auth_plugin_init auth_opts w in
  grows (disk w) (disk (snd r))
  /\ (forall name t, find_table name (disk w) = Some t ->
                     find_table name (disk (snd r)) = Some t)
  /\ (fst (fst r) = SUCCESS -> disk (snd r) = ensure_schema (disk w))
  /\ (forall name defn,
        In (name, defn) plugin_tables -> occupied name (disk w) = true ->
        count_tables name (disk (snd r)) = count_tables name (disk w)).
Proof.
  cbv zeta. destruct (plugin_init_extends auth_opts w) as [Hg Hf].
  split; [exact Hg|]. split; [exact Hf|].
  split; [exact (plugin_init_schema auth_opts (disk w) w eq_refl)|].
  intros name defn Hin Ho.
  apply (plugin_init_maintains
           (fun d => occupied name d = true
                     /\ count_tables name d = count_tables name (disk w))
           auth_opts); [|now split].
  intros db. unfold create_tables.
  repeat (apply maintains_bind; [apply create_table_counts | intro]).
  apply maintains_ret.
Qed.

End Preservation.

(** * Checks one after another *)

Section Sequences.

(** X15.  A username whose stored hash is the empty C string is treated as
    an unregistered one: when the lookup goes through, the salt and the
    password are not hashed and the guest rule decides.  With no guest
    secret configured, such a user is admitted without a password. *)
Theorem unpwd_check_empty_hash (context : Context) (u h s : string)
    (password : option string) (w : world) :
  lookup_works context w = true ->
  credential (disk w) (c_str u) = Some (h, s) ->
  c_str h = "" ->
  unpwd_result context (Some u) password w
  = Some (if guest_rule context password
          then MOSQ_ERR_SUCCESS else MOSQ_ERR_AUTH)
  /\ (guestsecret context = None ->
      unpwd_result context (Some u) None w = Some MOSQ_ERR_SUCCESS).
Proof.
  intros Hw Hc Hh.
  assert (forall pw, unpwd_result context (Some u) pw w
                     = Some (if guest_rule context pw
                             then MOSQ_ERR_SUCCESS else MOSQ_ERR_AUTH)) as E.
  { intros pw. rewrite unpwd_check_calm by exact Hw. rewrite Hc.
    unfold held. now rewrite Hh. }
  split; [apply E|]. intros Hg. rewrite E. unfold guest_rule. now rewrite Hg.
Qed.

Lemma unpwd_check_empty_hash_witness :
  unpwd_result (Build_Context connection example_query None None)
    (Some "eve") None (world_of (accounts [["eve"; ""; "s1"]]) [])
  = Some MOSQ_ERR_SUCCESS.
Proof.
  destruct (unpwd_check_empty_hash
              (Build_Context connection example_query None None)
              "eve" "" "s1" None
              (world_of (accounts [["eve"; ""; "s1"]]) [])
              eq_refl eq_refl eq_refl) as [_ H].
  exact (H eq_refl).
Defined.

Lemma resolve_grows (name : string) (d more : database) :
  resolves name d = true -> resolve name (d ++ more)%list = resolve name d.
Proof.
  unfold resolves, resolve. intros H. f_equal.
  induction d as [|entry d IH]; [discriminate H|]. cbn [existsb] in H.
  cbn [app find]. destruct (answers name entry); [reflexivity|].
  now apply IH.
Qed.

Lemma serves_resolves (d : database) :
  serves d = true -> resolves "auth" d = true.
Proof.
  unfold serves, lookup_columns, resolve, resolves.
  destruct (find (answers "auth") d) as [entry|] eqn:E; [|discriminate].
  intros _. apply existsb_exists. exists entry.
  apply find_some in E. exact E.
Qed.

(** A database that serves the password query still does when tables are
    added after its own. *)
Lemma serves_grows (d d' : database) :
  grows d d' -> serves d = true -> serves d' = true.
Proof.
  intros [more ->] H. pose proof (serves_resolves d H) as Hr.
  unfold serves, lookup_columns in *. now rewrite resolve_grows.
Qed.

(** Where nothing has the name [auth], the table that the initialization
    adds serves the password query. *)
Lemma serves_fresh (d : database) :
  occupied "auth" d = false -> serves (ensure_schema d) = true.
Proof.
  intros Ha. unfold ensure_schema.
  apply serves_grows
    with (d := ensure "auth" auth_definition
                 (ensure "profile" profile_definition d)).
  { apply grows_ensure, grows_refl. }
  assert (occupied "auth" (ensure "profile" profile_definition d) = false)
    as Ha' by now rewrite occupied_other.
  rewrite (ensure_absent _ _ _ Ha').
  apply occupied_free in Ha'. destruct Ha' as (_ & Hr & _).
  unfold serves, lookup_columns. now rewrite resolve_app.
Qed.

(** X16.  Initialization and checks compose.  The password query compiles
    on the database a successful initialization leaves, and that database
    serves the query, with no [NULL] among its hashes and salts, when the
    one it has found did or had nothing named [auth].  The context it hands
    over answers every check made on a database that serves the query, as
    long as the four calls of the lookup meet no fault: the result is not
    [MOSQ_ERR_UNKNOWN], it is defined when a password is given, and the
    context the check hands back is again one that answers, so that any
    number of checks may follow. *)
Theorem plugin_init_then_check (auth_opts : list (string * string))
    (w w1 : world) (context : Context) :
  mosquitto_auth_plugin_init auth_opts w = ((SUCCESS, Some context), w1) ->
  prepares select_hash_salt (disk w1) = true
  /\ (serves (disk w) = true \/ occupied "auth" (disk w) = false ->
      serves (disk w1) = true)
  /\ forall (c : Context) (w2 : world),
       (c = context \/ lookup_works c w2 = true) ->
       serves (disk w2) = true -> quiet 4 w2 = true ->
       forall (u : string) (password : option string) (w3 : world),
         serves (disk w3) = true -> quiet 4 w3 = true ->
         unpwd_result c (Some u) password w2 <> Some MOSQ_ERR_UNKNOWN
         /\ (password <> None ->
             unpwd_result c (Some u) password w2 <> None)
         /\ lookup_works
              (snd (fst (mosquitto_auth_unpwd_check c (Some u) password w2)))
              w3 = true.
Proof.
  intros E.
  pose proof (plugin_init_success auth_opts w I) as Hs.
  pose proof (plugin_init_context auth_opts w I) as Hc.
  pose proof (plugin_init_schema auth_opts (disk w) w eq_refl) as Hd.
  destruct (plugin_init_extends auth_opts w) as [Hg _].
  rewrite E in Hs, Hc, Hd, Hg. cbn [fst snd] in Hs, Hc, Hd, Hg.
  specialize (Hs eq_refl). specialize (Hd eq_refl).
  destruct (Hc eq_refl) as (f & c0 & Ec & _ & Hq).
  injection Ec as <-.
  split; [exact Hs|]. split.
  { intros [H | H]; [now apply (serves_grows (disk w))|].
    rewrite Hd. now apply serves_fresh. }
  intros c w2 Hcw Ht2 Hq2 u password w3 Ht3 Hq3.
  assert (lookup_works c w2 = true) as Hw.
  { destruct Hcw as [-> | Hw]; [|exact Hw].
    unfold lookup_works. now rewrite Hq, Ht2, Hq2. }
  split; [|split].
  - rewrite unpwd_check_unknown. intros (rc & Hrc & Hn). apply Hn.
    unfold lookup_code, retrieve_code in Hrc.
    unfold lookup_works in Hw. rewrite !andb_true_iff in Hw.
    destruct Hw as [[[H1 H2] H3] H4]. apply negb_true_iff in H2.
    rewrite retrieve_password_calm in Hrc by assumption.
    cbn [option_map fst] in Hrc. now injection Hrc as <-.
  - intros Hp. rewrite unpwd_check_calm by exact Hw.
    destruct (credential (disk w2) (c_str u)) as [[h s]|]; [|discriminate].
    destruct (String.eqb (held h) ""); [discriminate|].
    destruct password as [p|]; [discriminate | now contradiction Hp].
  - unfold lookup_works. rewrite unpwd_check_ready by exact Hw.
    now rewrite Ht3, Hq3.
Qed.

Lemma plugin_init_then_check_witness :
  unpwd_result (Build_Context connection example_query (Some "root") None)
    (Some "alice") (Some "hunter2") alice_world
  <> Some MOSQ_ERR_UNKNOWN
  /\ serves (disk (snd first_run)) = true.
Proof.
  destruct (plugin_init_then_check example_options example_world
              (snd first_run)
              (Build_Context connection example_query (Some "root") None)
              eq_refl) as (_ & H0 & H).
  destruct (H (Build_Context connection example_query (Some "root") None)
              alice_world (or_introl eq_refl) eq_refl eq_refl
              "alice" (Some "hunter2") alice_world eq_refl eq_refl)
    as [H1 _].
  split; [exact H1 | exact (H0 (or_intror eq_refl))].
Defined.

(** X17.  A failed step is reported twice.  When the reset and the binding
    of a lookup go through and its step fails, the check returns
    [MOSQ_ERR_UNKNOWN] and hands back the query with that failure on it;
    the next check, for any user and password, then returns
    [MOSQ_ERR_UNKNOWN] too although its own first call meets no fault,
    because the opening reset reports the failure of the last step; it
    hands back the query ready, so that a third check is answered. *)
Theorem unpwd_check_stale (context : Context) (u : string)
    (password : option string) (w : world) (e : error) :
  failed (at_ (passquery context)) = false ->
  hd None (faults w) = None ->
  hd None (faults (pop w)) = None ->
  hd None (faults (pops 2 w)) = Some e ->
  let first := mosquitto_auth_unpwd_check context (Some u) password w in
  fst (fst first) = Some MOSQ_ERR_UNKNOWN
  /\ at_ (passquery (snd (fst first))) = Failed e
  /\ forall (u2 : string) (password2 : option string) (w2 : world),
       hd None (faults w2) = None ->
       let second :=
         mosquitto_auth_unpwd_check (snd (fst first)) (Some u2) password2 w2 in
       fst (fst second) = Some MOSQ_ERR_UNKNOWN
       /\ at_ (passquery (snd (fst second))) = Ready.
Proof.
  intros Hf F0 F1 F2. cbv zeta.
  set (q2 := with_progress (Failed e)
               (Stmt (text (passquery context)) (Some (c_str u)) Ready)).
  assert (forall hash salt,
             retrieve_password (passquery context) u hash 65 salt 65 w
             = (Some (code e, q2, hash_after Untouched hash,
                      salt_after Untouched salt), pops 3 w)) as E1.
  { intros hash salt. unfold retrieve_password, bind.
    rewrite (reset_calm _ _ F0).
    assert (match at_ (passquery context) with
            | Failed e0 => code e0
            | _ => SQLITE_OK
            end = SQLITE_OK) as -> by now destruct (at_ (passquery context)).
    cbn [neq Z.eqb SQLITE_OK negb].
    rewrite bind_calm by first [exact F1 | reflexivity].
    cbn [neq Z.eqb SQLITE_OK negb text with_progress].
    rewrite (step_fault _ _ _ F2), code_not_done, code_not_row.
    reflexivity. }
  rewrite (unpwd_check_cases context u password w (pops 3 w) (code e) q2
             Untouched (fun _ => code_nonzero e) E1).
  change (neq (code e) 0) with (neq (code e) SQLITE_OK). rewrite code_not_ok.
  cbn [fst snd with_passquery passquery].
  split; [reflexivity|]. split; [reflexivity|].
  intros u2 password2 w2 G0.
  assert (forall hash salt,
             retrieve_password q2 u2 hash 65 salt 65 w2
             = (Some (code e, with_progress Ready q2,
                      hash_after Untouched hash,
                      salt_after Untouched salt), pop w2)) as E2.
  { intros hash salt. unfold retrieve_password, bind.
    rewrite (reset_calm _ _ G0). cbn [q2 with_progress at_].
    now rewrite code_not_ok. }
  rewrite (unpwd_check_cases (with_passquery q2 context) u2 password2 w2
             (pop w2) (code e)
             (with_progress Ready q2) Untouched
             (fun _ => code_nonzero e) E2).
  change (neq (code e) 0) with (neq (code e) SQLITE_OK). rewrite code_not_ok.
  split; reflexivity.
Qed.

Lemma unpwd_check_stale_witness :
  fst (fst (mosquitto_auth_unpwd_check example_context (Some "alice")
              (Some "hunter2") busy_world)) = Some MOSQ_ERR_UNKNOWN
  /\ fst (fst (mosquitto_auth_unpwd_check
                 (snd (fst (mosquitto_auth_unpwd_check example_context
                              (Some "alice") (Some "hunter2") busy_world)))
                 (Some "alice") (Some "hunter2") alice_world))
     = Some MOSQ_ERR_UNKNOWN.
Proof.
  destruct (unpwd_check_stale example_context "alice" (Some "hunter2")
              busy_world SQLITE_BUSY eq_refl eq_refl eq_refl eq_refl)
    as (H1 & _ & H2).
  split; [exact H1|].
  destruct (H2 "alice" (Some "hunter2") alice_world eq_refl) as [H3 _].
  exact H3.
Defined.

End Sequences.

(** * The results of the password check *)

Section Results.


End Results.

(** * A second run of the schema initialization *)

Section SchemaClaims.

Lemma has_table_schema (name : string) (d d' : database) :
  schema_of d = schema_of d' -> has_table name d = has_table name d'.
Proof.
  revert d'. induction d as [|[n o] d IH]; intros [|[n' o'] d'] H;
    try discriminate H; [reflexivity|].
  cbn [schema_of map fst snd] in H. injection H as Hn Hk _ _ Hrest.
  unfold has_table. cbn [existsb]. f_equal; [|exact (IH d' Hrest)].
  unfold listed, is_table, named. cbn [fst snd]. now rewrite Hn, Hk.
Qed.

Lemma resolve_schema (name : string) (d d' : database) :
  schema_of d = schema_of d' ->
  option_map columns (resolve name d) = option_map columns (resolve name d').
Proof.
  unfold resolve.
  revert d'. induction d as [|[n o] d IH]; intros [|[n' o'] d'] H;
    try discriminate H; [reflexivity|].
  cbn [schema_of map fst snd] in H. injection H as Hn Hk _ Hc Hrest.
  cbn [find]. unfold answers, is_index. cbn [fst snd]. rewrite Hn, Hk.
  destruct (negb _ && same_name n' name); [|exact (IH d' Hrest)].
  cbn [option_map snd]. now rewrite Hc.
Qed.

Lemma prepares_columns (d : database) :
  prepares select_hash_salt d
  = match option_map columns (resolve "auth" d) with
    | Some cols =>
        match column_index "hash" cols, column_index "salt" cols,
              column_index "username" cols with
        | Some _, Some _, Some _ => true
        | _, _, _ => false
        end
    | None => false
    end.
Proof.
  unfold prepares, lookup_columns.
  destruct (resolve "auth" d) as [t|]; [|reflexivity]. cbn [option_map].
  destruct (column_index "hash" (columns t)); [|reflexivity].
  destruct (column_index "salt" (columns t)); [|reflexivity].
  now destruct (column_index "username" (columns t)).
Qed.

(** Whether the password query compiles, and which tables the count
    finds, depends on the schema only, not on the rows. *)
Lemma schema_of_same (d d' : database) :
  schema_of d = schema_of d' ->
  schema_present d = schema_present d'
  /\ prepares select_hash_salt d = prepares select_hash_salt d'.
Proof.
  intros H. split.
  - unfold schema_present.
    now rewrite !(has_table_schema _ d d' H).
  - now rewrite !prepares_columns, (resolve_schema "auth" d d' H).
Qed.

Lemma has_table_ensured (name defn : string) (d : database) :
  has_table name d || negb (occupied name d) = true ->
  has_table name (ensure name defn d) = true.
Proof.
  intros H. unfold ensure. destruct (occupied name d) eqn:Eo.
  - now rewrite orb_false_r in H.
  - apply has_table_added.
Qed.

(** The three tables exist after the statements that create them have run,
    when each of them existed or nothing had its name. *)
Lemma schema_present_ensured (d : database) :
  (forall name defn, In (name, defn) plugin_tables ->
                     has_table name d || negb (occupied name d) = true) ->
  schema_present (ensure_schema d) = true.
Proof.
  intros H. unfold schema_present, ensure_schema.
  assert (forall name defn, In (name, defn) plugin_tables ->
            forall other defn',
              String.eqb other name = false ->
              same_name other name = false ->
              has_table name (ensure other defn' d)
              || negb (occupied name (ensure other defn' d)) = true) as H'.
  { intros name defn Hin other defn' Hn Hs.
    rewrite has_table_ensure, occupied_other by assumption.
    now apply (H name defn). }
  rewrite (has_table_ensure "profile" "schedule") by reflexivity.
  rewrite (has_table_ensure "profile" "auth") by reflexivity.
  rewrite has_table_ensured by (apply (H _ profile_definition); now left).
  rewrite (has_table_ensure "auth" "schedule") by reflexivity.
  rewrite has_table_ensured
    by (apply (H' _ auth_definition); [right; now left | reflexivity..]).
  rewrite has_table_ensured; [reflexivity|].
  rewrite has_table_ensure, occupied_other by reflexivity.
  apply (H' _ schedule_definition);
    [right; right; now left | reflexivity..].
Qed.

(** C8.  Take a first run of the initialization that reports [SUCCESS] on
    a store where each of the tables [profile], [auth] and [schedule]
    either exists or has its name free, so that the run creates those that
    are missing.  The store it leaves has the three tables, after what was
    there, and the password query compiles on it.  On that store, and on
    every store with the same tables, views and indexes whatever rows they
    hold since, a second run leaves the store, tables and rows, as it is,
    and each call of [create_table] reports [NOTREQUIRED] unless SQLite
    reports an error; when no fault occurs each of the three calls reports
    [NOTREQUIRED], and the run succeeds and logs nothing but its success. *)
Theorem schema_initialization_idempotent
    (auth_opts : list (string * string)) (w : world) :
  (forall name defn,
      In (name, defn) plugin_tables ->
      has_table name (disk w) || negb (occupied name (disk w)) = true) ->
  fst (fst (mosquitto_auth_plugin_init auth_opts w)) = SUCCESS ->
  let d1 := disk (snd (mosquitto_auth_plugin_init auth_opts w)) in
  schema_present d1 = true
  /\ d1 = ensure_schema (disk w)
  /\ (occupied "profile" (disk w) = false ->
      occupied "auth" (disk w) = false ->
      occupied "schedule" (disk w) = false ->
      d1 = (disk w ++ accounts [])%list)
  /\ forall w2 : world,
      schema_of (disk w2) = schema_of d1 ->
      schema_present (disk w2) = true
      /\ (forall db,
             disk (snd (create_tables db w2)) = disk w2
             /\ already_there (fst (fst (fst (create_tables db w2))))
             /\ already_there (snd (fst (fst (create_tables db w2))))
             /\ already_there (snd (fst (create_tables db w2))))
      /\ (forall opts,
             disk (snd (mosquitto_auth_plugin_init opts w2)) = disk w2)
      /\ (quiet 9 w2 = true ->
          forall db,
            fst (create_tables db w2)
            = (NOTREQUIRED, NOTREQUIRED, NOTREQUIRED))
      /\ (quiet 15 w2 = true ->
          forall opts dbfile su gs,
            read_options opts = (Some dbfile, su, gs) ->
            fst (fst (mosquitto_auth_plugin_init opts w2)) = SUCCESS
            /\ log (snd (mosquitto_auth_plugin_init opts w2))
               = (log w2 ++ [initialized])%list).
Proof.
  intros Hfree H1. cbv zeta.
  pose proof (plugin_init_schema auth_opts (disk w) w eq_refl H1) as Hd.
  pose proof (plugin_init_success auth_opts w I H1) as Hc.
  assert (schema_present
            (disk (snd (mosquitto_auth_plugin_init auth_opts w))) = true)
    as Hp by (rewrite Hd; now apply schema_present_ensured).
  split; [exact Hp|]. split; [exact Hd|]. split.
  { intros Op Oa Os. rewrite Hd. now apply ensure_schema_fresh. }
  intros w2 Hs. destruct (schema_of_same _ _ Hs) as [Sp Sc].
  rewrite Hp in Sp. rewrite Hc in Sc.
  split; [exact Sp|]. split; [|split; [|split]].
  - intros db. now apply create_tables_existing.
  - intros opts. now apply plugin_init_existing.
  - intros Hq db. now rewrite create_tables_existing_calm.
  - intros Hq opts dbfile su gs Ho.
    destruct (plugin_init_existing_calm opts dbfile su gs w2 Ho Sp Sc Hq)
      as [E1 E2].
    split; [now rewrite E1 | exact E2].
Qed.

(** A first run on an empty database file, and a second run on what the
    first one leaves; then a run on that store once it holds a
    credential. *)
Lemma schema_initialization_idempotent_witness :
  fst (fst first_run) = SUCCESS
  /\ disk (snd first_run) = accounts []
  /\ fst (create_tables connection (snd first_run))
     = (NOTREQUIRED, NOTREQUIRED, NOTREQUIRED)
  /\ disk (snd second_run) = disk (snd first_run)
  /\ disk (snd (mosquitto_auth_plugin_init example_options alice_world))
     = disk alice_world.
Proof.
  assert (fst (fst first_run) = SUCCESS) as H1 by reflexivity.
  assert (forall name defn,
             In (name, defn) plugin_tables ->
             has_table name (disk example_world)
             || negb (occupied name (disk example_world)) = true) as H0.
  { intros name defn [H | [H | [H | []]]]; injection H as <- _;
      reflexivity. }
  destruct (schema_initialization_idempotent example_options
              example_world H0 H1) as (_ & _ & Hf & Hrun).
  split; [exact H1|].
  split; [exact (Hf eq_refl eq_refl eq_refl)|]. split; [|split].
  - destruct (Hrun (snd first_run) eq_refl) as (_ & _ & _ & H & _).
    apply H. reflexivity.
  - destruct (Hrun (snd first_run) eq_refl) as (_ & _ & H & _). apply H.
  - destruct (Hrun alice_world eq_refl) as (_ & _ & H & _). apply H.
Defined.

End SchemaClaims.
